(** * nbodykit.utils: distributed arrays over an MPI communicator

    A shallow embedding of [nbodykit/utils.py]: the collective redistribution
    primitives [GatherArray], [ScatterArray], [FrontPadArray], the boundary
    helper [LinearTopology] and the [DistributedArray] class.

    Every rank runs the same Python function.  A rank's run is embedded as a
    value of [prog]: a tree whose nodes are the calls the rank makes on the
    communicator.  [run] executes the programs of all the ranks in lock step,
    one collective call at a time, and reports for every rank whether it
    returned, raised, or was left blocked in a call its peers never made. *)

From Stdlib Require Import String Ascii ZArith Lia Bool Arith PeanoNat List.
Import ListNotations.

Set Warnings "-register-all".

(** ** Element types (numpy dtypes) *)

(** A dtype is a fixed-width scalar, identified by its type character and its
    byte width, or a structured type with named fields.  ['O'] is the boxed
    object type, ['V'] with no fields the raw void type. *)
Inductive dtype : Type :=
| DScalar (char : ascii) (itemsize : nat)
| DStruct (fields : list (string * dtype)).

Definition dtype_O : dtype := DScalar "O" 8.
Definition int64 : dtype := DScalar "l" 8.
Definition float64 : dtype := DScalar "d" 8.
Definition int32 : dtype := DScalar "i" 4.
Definition bool_ : dtype := DScalar "?" 1.

(** [dtype.char] *)
Definition dtype_char (d : dtype) : ascii :=
  match d with
  | DScalar c _ => c
  | DStruct _ => "V"%char
  end.

(** [dtype.names]: [None] unless structured. *)
Definition dtype_names (d : dtype) : option (list string) :=
  match d with
  | DScalar _ _ => None
  | DStruct fs => Some (map fst fs)
  end.

Fixpoint assoc {B : Type} (name : string) (l : list (string * B)) : option B :=
  match l with
  | [] => None
  | (n, b) :: l' => if String.eqb name n then Some b else assoc name l'
  end.

(** [dtype[name]] *)
Definition dtype_field (d : dtype) (name : string) : option dtype :=
  match d with
  | DScalar _ _ => None
  | DStruct fs => assoc name fs
  end.

(** [dtype.itemsize], for packed structured types. *)
Fixpoint dtype_itemsize (d : dtype) : nat :=
  match d with
  | DScalar _ n => n
  | DStruct fs =>
      (fix go (fs : list (string * dtype)) : nat :=
         match fs with
         | [] => 0
         | (_, d') :: fs' => dtype_itemsize d' + go fs'
         end) fs
  end.

(** [a == b] on dtypes. *)
Fixpoint dtype_eqb (a b : dtype) : bool :=
  match a, b with
  | DScalar c n, DScalar c' n' => Ascii.eqb c c' && Nat.eqb n n'
  | DStruct fs, DStruct gs =>
      (fix go (fs gs : list (string * dtype)) : bool :=
         match fs, gs with
         | [], [] => true
         | (n, d) :: fs', (m, e) :: gs' =>
             String.eqb n m && dtype_eqb d e && go fs' gs'
         | _, _ => false
         end) fs gs
  | _, _ => false
  end.

(** ** Array contents *)

(** One cell of an array: a scalar (by its bit pattern), a record of named
    fields, or memory nobody has written yet ([numpy.empty]). *)
Inductive elem : Type :=
| EInt (z : Z)
| ERec (fields : list (string * elem))
| EUninit.

(** A row is what one index along the first axis selects: the cells of the
    trailing dimensions, flattened in C order. *)
Definition row : Type := list elem.

(** An array with at least one dimension: [shape = (len rows,) + tshape]. *)
Record ndarray : Type := mk_ndarray {
  arr_dtype : dtype;
  tshape : list nat;
  rows : list row
}.

Definition shape (a : ndarray) : list nat := length (rows a) :: tshape a.

(** [numpy.product(shape[1:])] *)
Definition duplicity (ts : list nat) : nat := fold_right Nat.mul 1 ts.

(** The cell [numpy.empty] leaves for dtype [d]. *)
Fixpoint uninit (d : dtype) : elem :=
  match d with
  | DScalar _ _ => EUninit
  | DStruct fs =>
      ERec ((fix go (fs : list (string * dtype)) : list (string * elem) :=
               match fs with
               | [] => []
               | (n, d') :: fs' => (n, uninit d') :: go fs'
               end) fs)
  end.

(** [numpy.empty((n,) + ts, dtype=d)] *)
Definition np_empty (n : nat) (ts : list nat) (d : dtype) : ndarray :=
  mk_ndarray d ts (repeat (repeat (uninit d) (duplicity ts)) n).

Definition get_field (name : string) (e : elem) : elem :=
  match e with
  | ERec fs => match assoc name fs with Some v => v | None => EUninit end
  | _ => EUninit
  end.

Fixpoint assoc_set {B : Type} (name : string) (v : B) (l : list (string * B))
  : list (string * B) :=
  match l with
  | [] => []
  | (n, b) :: l' =>
      if String.eqb name n then (n, v) :: l' else (n, b) :: assoc_set name v l'
  end.

Definition set_field (name : string) (e v : elem) : elem :=
  match e with
  | ERec fs => ERec (assoc_set name v fs)
  | _ => e
  end.

(** [data[name]]: the column of field [name]; numpy raises when the dtype has
    no such field. *)
Definition getitem_field (a : ndarray) (name : string) : option ndarray :=
  match dtype_field (arr_dtype a) name with
  | Some d => Some (mk_ndarray d (tshape a) (map (map (get_field name)) (rows a)))
  | None => None
  end.

Fixpoint zip_with {A B C : Type} (f : A -> B -> C) (l : list A) (m : list B)
  : list C :=
  match l, m with
  | a :: l', b :: m' => f a b :: zip_with f l' m'
  | _, _ => []
  end.

Fixpoint list_eqb {A : Type} (eqb : A -> A -> bool) (l m : list A) : bool :=
  match l, m with
  | [], [] => true
  | a :: l', b :: m' => eqb a b && list_eqb eqb l' m'
  | _, _ => false
  end.

(** [recvbuffer[name] = d]: assignment of a column of the same shape. *)
Definition setitem_field (a : ndarray) (name : string) (d : ndarray)
  : option ndarray :=
  if list_eqb Nat.eqb (shape a) (shape d) then
    Some (mk_ndarray (arr_dtype a) (tshape a)
            (zip_with (zip_with (set_field name)) (rows a) (rows d)))
  else None.

(** ** Python values *)

(** The values the functions hold in variables and pass through the
    communicator.  [MInst pid addr] is an instance of [EmptyRankType]: the
    object at address [addr] of the process [pid]; two instances are the
    same object when both coordinates agree.  [MBuffer] is the content of a
    receive buffer after a buffer-mode collective. *)
Inductive msg : Type :=
| MNone
| MBool (b : bool)
| MInt (z : Z)
| MTuple (items : list msg)
| MDtype (d : dtype)
| MArray (a : ndarray)
| MInst (pid addr : nat)
| MBuffer (records : list row).

(** Exceptions: the class and the (format) string of the [raise]. *)
Inductive exn_class : Type :=
| ValueError | TypeError | AttributeError | StopIteration | IndexError
| MPIException.

Inductive exn : Type := Exn (c : exn_class) (message : string).

Definition exn_kind (e : exn) : exn_class := let (c, _) := e in c.

(** *** EmptyRank and pickling

    [EmptyRank = EmptyRankType()] is created once per process when the module
    is imported; address 0 stands for that module-level slot. *)
Definition EmptyRank (pid : nat) : msg := MInst pid 0.

(** [x is y] *)
Definition py_is (x y : msg) : bool :=
  match x, y with
  | MInst p a, MInst q b => Nat.eqb p q && Nat.eqb a b
  | MNone, MNone => true
  | _, _ => false
  end.

(** Module-level functions a pickle can name. *)
Inductive global_fn : Type := fn_get_empty_rank.

(** [_get_empty_rank()], called in process [pid]. *)
Definition call_global (pid : nat) (f : global_fn) : msg :=
  match f with
  | fn_get_empty_rank => EmptyRank pid
  end.

(** A pickle: plain values by content, an instance by what its class's
    [__reduce__] returns, a callable and its arguments. *)
Inductive pickled : Type :=
| PNone
| PBool (b : bool)
| PInt (z : Z)
| PTuple (items : list pickled)
| PDtype (d : dtype)
| PArray (a : ndarray)
| PBuffer (records : list row)
| PReduce (f : global_fn).

(** [EmptyRankType.__reduce__]: [(_get_empty_rank, ())]. *)
Definition EmptyRankType_reduce : pickled := PReduce fn_get_empty_rank.

Fixpoint dumps (v : msg) : pickled :=
  match v with
  | MNone => PNone
  | MBool b => PBool b
  | MInt z => PInt z
  | MTuple l => PTuple (map dumps l)
  | MDtype d => PDtype d
  | MArray a => PArray a
  | MInst _ _ => EmptyRankType_reduce
  | MBuffer r => PBuffer r
  end.

(** [pickle.loads], run in process [pid]. *)
Fixpoint loads (pid : nat) (p : pickled) : msg :=
  match p with
  | PNone => MNone
  | PBool b => MBool b
  | PInt z => MInt z
  | PTuple l => MTuple (map (loads pid) l)
  | PDtype d => MDtype d
  | PArray a => MArray a
  | PBuffer r => MBuffer r
  | PReduce f => call_global pid f
  end.

(** What process [pid] holds after an object was sent to it. *)
Definition deliver (pid : nat) (v : msg) : msg := loads pid (dumps v).

(** ** The communicator *)

Record Comm : Type := mk_Comm { rank : nat; size : nat }.

Inductive redop : Type := SUM | LOR.

(** [[data, dt]]: a buffer read as records of [buf_itemsize] bytes. *)
Record buf : Type := mk_buf { buf_itemsize : nat; records : list row }.

(** The calls of a rank on the communicator, with their arguments.  The
    lower-case calls move pickled objects, the upper-case ones buffers. *)
Inductive coll : Type :=
| allgather (v : msg)
| bcast (v : msg) (root : nat)
| allreduce (v : msg) (op : redop)
| alltoall (vs : list msg)
| Barrier
| Gatherv (send : buf) (recv : option buf) (counts offsets : list Z) (root : nat)
| Allgatherv (send : buf) (recv : buf) (counts offsets : list Z)
| Scatterv (send : buf) (counts offsets : list Z) (recv : buf) (root : nat).

(** A rank's run: it returns, raises, or calls the communicator and goes on
    with the reply. *)
Inductive prog (A : Type) : Type :=
| Ret (a : A)
| Raise (e : exn)
| Call (c : coll) (k : msg -> prog A).

Arguments Ret {A} a.
Arguments Raise {A} e.
Arguments Call {A} c k.

Fixpoint bind {A B : Type} (m : prog A) (f : A -> prog B) : prog B :=
  match m with
  | Ret a => f a
  | Raise e => Raise e
  | Call c k => Call c (fun r => bind (k r) f)
  end.

Definition call (c : coll) : prog msg := Call c Ret.

Declare Scope prog_scope.
Delimit Scope prog_scope with prog.
Notation "x <- m ;; k" := (bind m (fun x => k))
  (at level 100, m at next level, right associativity) : prog_scope.
Notation "m ;;; k" := (bind m (fun _ => k))
  (at level 100, right associativity) : prog_scope.
Open Scope prog_scope.

(** ** Lock-step execution *)

Inductive outcome (A : Type) : Type :=
| Ok (a : A)
| Raised (e : exn)
| Hang.

Arguments Ok {A} a.
Arguments Raised {A} e.
Arguments Hang {A}.

(** What a call hands back to one rank. *)
Inductive reply : Type :=
| RMsg (m : msg)
| RErr (e : exn).

Definition mpi_error : exn := Exn MPIException "MPI error".

(** Ranks meet in a call only when they make the same call, on the same root
    and with the same reduction. *)
Definition same_call (c c' : coll) : bool :=
  match c, c' with
  | allgather _, allgather _ => true
  | bcast _ r, bcast _ r' => Nat.eqb r r'
  | allreduce _ SUM, allreduce _ SUM => true
  | allreduce _ LOR, allreduce _ LOR => true
  | alltoall _, alltoall _ => true
  | Barrier, Barrier => true
  | Gatherv _ _ _ _ r, Gatherv _ _ _ _ r' => Nat.eqb r r'
  | Allgatherv _ _ _ _, Allgatherv _ _ _ _ => true
  | Scatterv _ _ _ _ r, Scatterv _ _ _ _ r' => Nat.eqb r r'
  | _, _ => false
  end.

(** The object a rank passes to an object-mode call. *)
Definition payload (c : coll) : msg :=
  match c with
  | allgather v | bcast v _ | allreduce v _ => v
  | alltoall vs => MTuple vs
  | _ => MNone
  end.

(** Truth value of an object in [if]. *)
Definition truthy (v : msg) : bool :=
  match v with
  | MNone => false
  | MBool b => b
  | MInt z => negb (Z.eqb z 0)
  | MTuple l => negb (Nat.eqb (length l) 0)
  | _ => true
  end.

Definition as_int (v : msg) : option Z :=
  match v with
  | MInt z => Some z
  | MBool b => Some (if b then 1%Z else 0%Z)
  | _ => None
  end.

Fixpoint sum_msgs (l : list msg) : option Z :=
  match l with
  | [] => Some 0%Z
  | v :: l' =>
      match as_int v, sum_msgs l' with
      | Some a, Some b => Some (a + b)%Z
      | _, _ => None
      end
  end.

Definition reduce (op : redop) (l : list msg) : reply :=
  match op with
  | SUM =>
      match sum_msgs l with
      | Some z => RMsg (MInt z)
      | None => RErr (Exn TypeError "unsupported operand type(s) for +")
      end
  | LOR => RMsg (MBool (existsb truthy l))
  end.

(** Overwrite [dst] from row [off] on with [src]. *)
Definition place (dst : list row) (off : nat) (src : list row) : list row :=
  firstn off dst ++ src ++ skipn (off + length src) dst.

Definition garble (r : row) : row := map (fun _ => EUninit) r.

(** One block arriving in a receive buffer of records of [isz] bytes, at
    [off], with room for [count] records.  More bytes than the room is
    MPI_ERR_TRUNCATE; records of another width leave bytes that no longer
    read as the cells that were sent. *)
Definition recv_block (isz : nat) (dst : list row) (count off : Z) (s : buf)
  : option (list row) :=
  let sent := buf_itemsize s * length (records s) in
  if (count <? 0)%Z || (off <? 0)%Z
     || (Z.of_nat (length dst) <? off + count)%Z
     || (isz * Z.to_nat count <? sent) then None
  else if Nat.eqb (buf_itemsize s) isz then
    Some (place dst (Z.to_nat off) (records s))
  else
    let k := (sent + isz - 1) / isz in
    Some (place dst (Z.to_nat off)
            (map garble (firstn k (skipn (Z.to_nat off) dst)))).

Fixpoint gather_into (isz : nat) (dst : list row) (sends : list buf)
  (counts offsets : list Z) : option (list row) :=
  match sends, counts, offsets with
  | [], _, _ => Some dst
  | s :: sends', c :: counts', o :: offsets' =>
      match recv_block isz dst c o s with
      | Some dst' => gather_into isz dst' sends' counts' offsets'
      | None => None
      end
  | _, _, _ => None
  end.

Definition gather_reply (recv : buf) (sends : list buf) (counts offsets : list Z)
  : reply :=
  match gather_into (buf_itemsize recv) (records recv) sends counts offsets with
  | Some r => RMsg (MBuffer r)
  | None => RErr mpi_error
  end.

Definition send_of (c : coll) : buf :=
  match c with
  | Gatherv s _ _ _ _ | Allgatherv s _ _ _ | Scatterv s _ _ _ _ => s
  | _ => mk_buf 0 []
  end.

(** The block the root of a scatter sends to rank [j]. *)
Definition scatter_block (send : buf) (counts offsets : list Z) (j : nat)
  : option buf :=
  match nth_error counts j, nth_error offsets j with
  | Some c, Some o =>
      if (c <? 0)%Z || (o <? 0)%Z
         || (Z.of_nat (length (records send)) <? o + c)%Z then None
      else Some (mk_buf (buf_itemsize send)
                   (firstn (Z.to_nat c) (skipn (Z.to_nat o) (records send))))
  | _, _ => None
  end.

Definition scatter_reply (blk : option buf) (recv : buf) : reply :=
  match blk with
  | Some b =>
      match recv_block (buf_itemsize recv) (records recv)
              (Z.of_nat (length (records recv))) 0 b with
      | Some r => RMsg (MBuffer r)
      | None => RErr mpi_error
      end
  | None => RErr mpi_error
  end.

Definition indexed {A : Type} (l : list A) : list (nat * A) :=
  combine (seq 0 (length l)) l.

(** The reply of the call [c] made by rank [j], the ranks having made the
    calls [cs] (in rank order). *)
Definition reply_to (cs : list coll) (j : nat) (c : coll) : reply :=
  let n := length cs in
  match c with
  | allgather _ => RMsg (MTuple (map (fun c' => deliver j (payload c')) cs))
  | bcast _ root =>
      match nth_error cs root with
      | Some c' => RMsg (deliver j (payload c'))
      | None => RErr mpi_error
      end
  | allreduce _ op => reduce op (map payload cs)
  | alltoall _ =>
      RMsg (MTuple (map (fun c' =>
                           match payload c' with
                           | MTuple vs => deliver j (nth j vs MNone)
                           | _ => MNone
                           end) cs))
  | Barrier => RMsg MNone
  | Gatherv _ recv counts offsets root =>
      if Nat.ltb root n then
        if Nat.eqb j root then
          match recv with
          | Some rb => gather_reply rb (map send_of cs) counts offsets
          | None => RErr mpi_error
          end
        else RMsg MNone
      else RErr mpi_error
  | Allgatherv _ recv counts offsets =>
      gather_reply recv (map send_of cs) counts offsets
  | Scatterv _ _ _ recv root =>
      match nth_error cs root with
      | Some (Scatterv send counts offsets _ _) =>
          scatter_reply (scatter_block send counts offsets j) recv
      | _ => RErr mpi_error
      end
  end.

Definition alltoall_ok (n : nat) (c : coll) : bool :=
  match c with
  | alltoall vs => Nat.eqb (length vs) n
  | _ => true
  end.

(** The replies of one round, or [None] when the ranks did not make the same
    call: then no rank ever gets a reply. *)
Definition exchange (cs : list coll) : option (list reply) :=
  match cs with
  | [] => Some []
  | c0 :: _ =>
      if forallb (same_call c0) cs && forallb (alltoall_ok (length cs)) cs
      then Some (map (fun jc => reply_to cs (fst jc) (snd jc)) (indexed cs))
      else None
  end.

(** Where a rank stands when its peers are gone. *)
Definition settle {A : Type} (p : prog A) : outcome A :=
  match p with
  | Ret a => Ok a
  | Raise e => Raised e
  | Call _ _ => Hang
  end.

Fixpoint pendings {A : Type} (ps : list (prog A))
  : option (list (coll * (msg -> prog A))) :=
  match ps with
  | [] => Some []
  | Call c k :: ps' =>
      match pendings ps' with
      | Some cks => Some ((c, k) :: cks)
      | None => None
      end
  | _ => None
  end.

Definition resume {A : Type} (ck : coll * (msg -> prog A)) (r : reply) : prog A :=
  match r with
  | RMsg m => snd ck m
  | RErr e => Raise e
  end.

(** Rank 0 runs [p0], the other ranks [rest].  A round is played when every
    rank stands at a call and the calls match; otherwise the ranks that stand
    at a call stay there. *)
Fixpoint run_from {A : Type} (p0 : prog A) (rest : list (prog A)) {struct p0}
  : list (outcome A) :=
  match p0 with
  | Call c0 k0 =>
      match pendings rest with
      | Some cks =>
          match exchange (c0 :: map fst cks) with
          | Some (r0 :: rs) =>
              let rest' := zip_with resume cks rs in
              match r0 with
              | RMsg m => run_from (k0 m) rest'
              | RErr e => Raised e :: map settle rest'
              end
          | _ => Hang :: map settle rest
          end
      | None => Hang :: map settle rest
      end
  | _ => settle p0 :: map settle rest
  end.

Definition run {A : Type} (ps : list (prog A)) : list (outcome A) :=
  match ps with
  | [] => []
  | p0 :: rest => run_from p0 rest
  end.

(** Every rank of a communicator of [length xs] ranks runs [f] on its own
    argument. *)
Definition spmd {X A : Type} (f : Comm -> X -> prog A) (xs : list X)
  : list (outcome A) :=
  run (map (fun jx => f (mk_Comm (fst jx) (length xs)) (snd jx)) (indexed xs)).

(** ** Reading replies *)

Definition type_error : exn := Exn TypeError "object of unexpected type".

Definition expect {A : Type} (o : option A) : prog A :=
  match o with
  | Some a => Ret a
  | None => Raise type_error
  end.

Definition as_nat (v : msg) : option nat :=
  match v with
  | MInt z => if (0 <=? z)%Z then Some (Z.to_nat z) else None
  | _ => None
  end.

Definition as_dtype (v : msg) : option dtype :=
  match v with
  | MDtype d => Some d
  | _ => None
  end.

Fixpoint decode_all {A : Type} (f : msg -> option A) (l : list msg)
  : option (list A) :=
  match l with
  | [] => Some []
  | v :: l' =>
      match f v, decode_all f l' with
      | Some a, Some r => Some (a :: r)
      | _, _ => None
      end
  end.

Definition as_seq {A : Type} (f : msg -> option A) (v : msg) : option (list A) :=
  match v with
  | MTuple l => decode_all f l
  | _ => None
  end.

Definition as_shape : msg -> option (list nat) := as_seq as_nat.

Definition nat_msg (n : nat) : msg := MInt (Z.of_nat n).

Definition shape_msg (s : list nat) : msg := MTuple (map nat_msg s).

(** [numpy.cumsum] *)
Fixpoint cumsum_from (acc : Z) (l : list Z) : list Z :=
  match l with
  | [] => []
  | x :: l' => (acc + x)%Z :: cumsum_from (acc + x) l'
  end.

Definition cumsum : list Z -> list Z := cumsum_from 0.

(** [offsets = zeros_like(counts); offsets[1:] = counts.cumsum()[:-1]] *)
Definition offsets_of (counts : list Z) : list Z :=
  match counts with
  | [] => []
  | _ => 0%Z :: removelast (cumsum counts)
  end.

(** ** GatherArray *)

(** [root]: a rank, or [Ellipsis] for every rank. *)
Inductive root_t : Type :=
| Rank (r : nat)
| Ellipsis.

(** [root is Ellipsis or comm.rank == root] *)
Definition is_dest (root : root_t) (comm : Comm) : bool :=
  match root with
  | Ellipsis => true
  | Rank r => Nat.eqb (rank comm) r
  end.

(** [set(l) == set(m)] *)
Definition set_eqb (l m : list string) : bool :=
  forallb (fun x => existsb (String.eqb x) m) l
  && forallb (fun x => existsb (String.eqb x) l) m.

(** [any(set(dt.names) != names for dt in dts)]; [None] when the scan
    reaches a dtype with no names ([set(None)] is a TypeError). *)
Fixpoint any_names_differ (names : list string) (dts : list dtype)
  : option bool :=
  match dts with
  | [] => Some false
  | dt :: dts' =>
      match dtype_names dt with
      | None => None
      | Some ns =>
          if negb (set_eqb ns names) then Some true
          else any_names_differ names dts'
      end
  end.

(** [d == 'O'] *)
Definition is_object (d : dtype) : bool := dtype_eqb d dtype_O.

(** [any(dtype[name] == 'O' for name in dtype.names)] *)
Definition any_object_field (d : dtype) (names : list string) : bool :=
  existsb (fun name =>
             match dtype_field d name with
             | Some f => is_object f
             | None => false
             end) names.

Definition no_field : exn := Exn ValueError "no field of name".

(** The loop [for name in dtypes[0].names]: [subs] holds, for every field of
    this rank's own dtype, the call [GatherArray(data[name], comm, root)];
    [data[name]] raises when this rank's dtype has no such field. *)
Fixpoint gather_fields (subs : list (string * prog msg)) (dest : bool)
  (names : list string) (recvbuffer : msg) : prog msg :=
  match names with
  | [] => Ret recvbuffer
  | name :: names' =>
      match assoc name subs with
      | None => Raise no_field
      | Some sub =>
          d <- sub ;;
          if dest then
            match recvbuffer, d with
            | MArray rb, MArray col =>
                match setitem_field rb name col with
                | Some rb' => gather_fields subs dest names' (MArray rb')
                | None =>
                    Raise (Exn ValueError "could not broadcast input array")
                end
            | _, _ => Raise type_error
            end
          else gather_fields subs dest names' recvbuffer
      end
  end.

Definition unpack2 (v : msg) : option (msg * msg) :=
  match v with
  | MTuple [a; b] => Some (a, b)
  | _ => None
  end.

Definition GatherArray_body (subs : list (string * prog msg)) (data : ndarray)
  (comm : Comm) (root : root_t) : prog msg :=
  let local_length := length (rows data) in
  (* check dtypes and shapes *)
  shapes_r <- call (allgather (shape_msg (shape data))) ;;
  dtypes_r <- call (allgather (MDtype (arr_dtype data))) ;;
  shapes <- expect (as_seq as_shape shapes_r) ;;
  dtypes <- expect (as_seq as_dtype dtypes_r) ;;
  match dtypes, shapes with
  | dt0 :: dts, s0 :: ss =>
      if Ascii.eqb (dtype_char dt0) "V" then
        (* structured data *)
        match dtype_names dt0 with
        | None => Raise (Exn TypeError "'NoneType' object is not iterable")
        | Some names =>
            match any_names_differ names dts with
            | None => Raise (Exn TypeError "'NoneType' object is not iterable")
            | Some true =>
                Raise (Exn ValueError
                         "mismatch between data type fields in structured data")
            | Some false =>
                if any_object_field dt0 names then
                  Raise (Exn ValueError
                    "object data types ('O') not allowed in structured data in GatherArray")
                else
                  newlength_r <- call (allreduce (nat_msg local_length) SUM) ;;
                  newlength <- expect (as_nat newlength_r) ;;
                  let recvbuffer :=
                    if is_dest root comm
                    then MArray (np_empty newlength (tshape data) dt0)
                    else MNone in
                  gather_fields subs (is_dest root comm) names recvbuffer
            end
        end
      else if is_object dt0 then
        Raise (Exn ValueError
          "object data types ('O') not allowed in structured data in GatherArray")
      else
        (* check for bad dtypes and bad shapes *)
        let flags :=
          if is_dest root comm then
            MTuple [MBool (existsb (fun s => negb (list_eqb Nat.eqb (tl s) (tl s0))) ss);
                    MBool (existsb (fun dt => negb (dtype_eqb dt dt0)) dts)]
          else MTuple [MNone; MNone] in
        flags_r <- call (bcast flags 0) ;;
        bad <- expect (unpack2 flags_r) ;;
        if truthy (fst bad) then
          Raise (Exn ValueError
                   "mismatch between shape[1:] across ranks in GatherArray")
        else if truthy (snd bad) then
          Raise (Exn ValueError
                   "mismatch between dtypes across ranks in GatherArray")
        else
          (* the custom dtype *)
          let itemsize := duplicity (tshape data) * dtype_itemsize (arr_dtype data) in
          newlength_r <- call (allreduce (nat_msg local_length) SUM) ;;
          newlength <- expect (as_nat newlength_r) ;;
          let recvbuffer := np_empty newlength (tshape data) (arr_dtype data) in
          counts_r <- call (allgather (nat_msg local_length)) ;;
          counts <- expect (as_seq as_int counts_r) ;;
          let offsets := offsets_of counts in
          let send := mk_buf itemsize (rows data) in
          let recv := mk_buf itemsize (rows recvbuffer) in
          match root with
          | Ellipsis =>
              r <- call (Allgatherv send recv counts offsets) ;;
              match r with
              | MBuffer rs =>
                  Ret (MArray (mk_ndarray (arr_dtype data) (tshape data) rs))
              | _ => Raise type_error
              end
          | Rank rt =>
              r <- call (Gatherv send
                           (if Nat.eqb (rank comm) rt then Some recv else None)
                           counts offsets rt) ;;
              if Nat.eqb (rank comm) rt then
                match r with
                | MBuffer rs =>
                    Ret (MArray (mk_ndarray (arr_dtype data) (tshape data) rs))
                | _ => Raise type_error
                end
              else Ret MNone
          end
  | _, _ => Raise (Exn IndexError "list index out of range")
  end.

(** [GatherArray] on an array of dtype [d], trailing shape [ts], rows [rs];
    the recursion is the one of the source, on the fields of the dtype. *)
Fixpoint GatherArray_nd (d : dtype) (ts : list nat) (rs : list row)
  (comm : Comm) (root : root_t) {struct d} : prog msg :=
  GatherArray_body
    match d with
    | DScalar _ _ => []
    | DStruct fs =>
        (fix go (fs : list (string * dtype)) : list (string * prog msg) :=
           match fs with
           | [] => []
           | (n, d') :: fs' =>
               (n, GatherArray_nd d' ts (map (map (get_field n)) rs) comm root)
               :: go fs'
           end) fs
    end
    (mk_ndarray d ts rs) comm root.

Definition GatherArray (data : msg) (comm : Comm) (root : root_t) : prog msg :=
  match data with
  | MArray a => GatherArray_nd (arr_dtype a) (tshape a) (rows a) comm root
  | _ => Raise (Exn ValueError "`data` must by numpy array in GatherArray")
  end.

(** ** ScatterArray *)

Definition sum_Z (l : list Z) : Z := fold_right Z.add 0%Z l.

Definition buf_of (itemsize : nat) (data : msg) : buf :=
  match data with
  | MArray a => mk_buf itemsize (rows a)
  | _ => mk_buf itemsize []
  end.

Definition as_shape_dtype (v : msg) : option (list nat * dtype) :=
  match v with
  | MTuple [s; MDtype d] =>
      match as_shape s with
      | Some sh => Some (sh, d)
      | None => None
      end
  | _ => None
  end.

Definition ScatterArray (data : msg) (comm : Comm) (root : nat)
  (counts : option (list Z)) : prog msg :=
  if match counts with
     | Some c => negb (Nat.eqb (length c) (size comm))
     | None => false
     end
  then Raise (Exn ValueError "counts array has wrong length!")
  else
    (* check for bad input *)
    let bad_input :=
      if Nat.eqb (rank comm) root
      then MBool (match data with MArray _ => false | _ => true end)
      else MNone in
    bad_input_r <- call (bcast bad_input 0) ;;
    if truthy bad_input_r then
      Raise (Exn ValueError "`data` must by numpy array on root in ScatterArray")
    else
      shape_and_dtype <-
        (if Nat.eqb (rank comm) 0 then
           match data with
           | MArray a => Ret (MTuple [shape_msg (shape a); MDtype (arr_dtype a)])
           | _ => Raise (Exn AttributeError "object has no attribute 'flags'")
           end
         else Ret MNone) ;;
      (* each rank needs shape/dtype of input data *)
      sd_r <- call (bcast shape_and_dtype 0) ;;
      match as_shape_dtype sd_r with
      | None | Some ([], _) =>
          Raise (Exn TypeError "cannot unpack non-iterable object")
      | Some (len :: ts, dtype) =>
          if (if Ascii.eqb (dtype_char dtype) "V"
              then match dtype_names dtype with
                   | Some names => any_object_field dtype names
                   | None => false
                   end
              else is_object dtype)
          then Raise (Exn ValueError
            "'object' data type not supported in ScatterArray; please specify specific data type")
          else
            (* initialize empty data on non-root ranks *)
            let data :=
              if negb (Nat.eqb (rank comm) root)
              then MArray (np_empty 0 ts dtype) else data in
            let itemsize := duplicity ts * dtype_itemsize dtype in
            let send := buf_of itemsize data in
            match counts with
            | None =>
                let newlength :=
                  len / size comm
                  + (if Nat.ltb (rank comm) (len mod size comm) then 1 else 0) in
                let recvbuffer := np_empty newlength ts dtype in
                counts_r <- call (allgather (nat_msg newlength)) ;;
                counts <- expect (as_seq as_int counts_r) ;;
                call Barrier ;;;
                r <- call (Scatterv send counts (offsets_of counts)
                             (mk_buf itemsize (rows recvbuffer)) 0) ;;
                match r with
                | MBuffer rs => Ret (MArray (mk_ndarray dtype ts rs))
                | _ => Raise type_error
                end
            | Some counts =>
                if negb (Z.eqb (sum_Z counts) (Z.of_nat len)) then
                  Raise (Exn ValueError
                    "the sum of the `counts` array needs to be equal to data length")
                else
                  match nth_error counts (rank comm) with
                  | None => Raise (Exn IndexError "index out of bounds")
                  | Some c =>
                      if (c <? 0)%Z then
                        Raise (Exn ValueError "negative dimensions are not allowed")
                      else
                        let recvbuffer := np_empty (Z.to_nat c) ts dtype in
                        call Barrier ;;;
                        r <- call (Scatterv send counts (offsets_of counts)
                                     (mk_buf itemsize (rows recvbuffer)) 0) ;;
                        match r with
                        | MBuffer rs => Ret (MArray (mk_ndarray dtype ts rs))
                        | _ => Raise type_error
                        end
                  end
            end
      end.

(** ** FrontPadArray *)

(** [array[-items:]] for [items > 0]. *)
Definition last_rows {A : Type} (items : nat) (l : list A) : list A :=
  skipn (length l - items) l.

(** [a[-items:] if items > 0 else a[0:0]] *)
Definition tail_slice (a : ndarray) (items : Z) : ndarray :=
  mk_ndarray (arr_dtype a) (tshape a)
    (if (0 <? items)%Z then last_rows (Z.to_nat items) (rows a) else []).

(** [t[t < 0] = 0; t[t > front] = 0; t[t > N] = N[t > N]], one entry. *)
Definition clamp (front n t : Z) : Z :=
  let t1 := if (t <? 0)%Z then 0%Z else t in
  let t2 := if (front <? t1)%Z then 0%Z else t1 in
  if (n <? t2)%Z then n else t2.

(** The plan of a rank: how many rows it takes from every rank. *)
Definition torecv_plan (N : list Z) (rank : nat) (front : Z) : list Z :=
  let offsets := cumsum (0%Z :: N) in
  let mystart := (nth rank offsets 0 - front)%Z in
  zip_with (fun on n => clamp front n (on - mystart))
    (zip_with Z.add (removelast offsets) N) N.

Definition as_array (v : msg) : option ndarray :=
  match v with
  | MArray a => Some a
  | _ => None
  end.

(** [numpy.concatenate(arrays, axis=0)] for arrays of one dtype and one
    trailing shape.  numpy raises on different trailing shapes; arrays of
    different dtypes, which numpy would promote, are outside the model and
    are treated the same. *)
Fixpoint np_concatenate (l : list ndarray) : option ndarray :=
  match l with
  | [] => None
  | [a] => Some a
  | a :: l' =>
      match np_concatenate l' with
      | Some b =>
          if dtype_eqb (arr_dtype a) (arr_dtype b)
             && list_eqb Nat.eqb (tshape a) (tshape b)
          then Some (mk_ndarray (arr_dtype b) (tshape b) (rows a ++ rows b))
          else None
      | None => None
      end
  end.

Definition padding_infeasible : exn :=
  Exn ValueError
    "cannot work out a plan to padd items. Some front values are too large. %d %d".

Definition FrontPadArray (array : ndarray) (front : Z) (comm : Comm)
  : prog ndarray :=
  N_r <- call (allgather (nat_msg (length (rows array)))) ;;
  N <- expect (as_seq as_int N_r) ;;
  let torecv := torecv_plan N (rank comm) front in
  bad <- call (allreduce (MBool (negb (Z.eqb (sum_Z torecv) front))) LOR) ;;
  if truthy bad then Raise padding_infeasible
  else
    tosend_r <- call (alltoall (map MInt torecv)) ;;
    tosend <- expect (as_seq as_int tosend_r) ;;
    let sendbuf := map (fun items => MArray (tail_slice array items)) tosend in
    recvbuf_r <- call (alltoall sendbuf) ;;
    recvbuf <- expect (as_seq as_array recvbuf_r) ;;
    match np_concatenate (recvbuf ++ [array]) with
    | Some a => Ret a
    | None =>
        Raise (Exn ValueError
          "all the input array dimensions except for the concatenation axis must match exactly")
    end.

(** ** LinearTopology *)

(** [local[i]] as an object: the scalar of a one-dimensional array, else the
    cells of the row. *)
Definition item (r : row) : msg :=
  match r with
  | [EInt z] => MInt z
  | _ => MBuffer [r]
  end.

(** [x == y]: by value for scalars; an [EmptyRankType] defines no [__eq__],
    so it equals only itself. *)
Definition py_eq (x y : msg) : bool :=
  match x, y with
  | MInt a, MInt b => Z.eqb a b
  | MInst _ _, MInst _ _ => py_is x y
  | _, _ => false
  end.

Definition expect_seq (v : msg) : prog (list msg) :=
  expect (as_seq Some v).

(** [LinearTopology.heads] *)
Definition heads (local : ndarray) (comm : Comm) : prog (list msg) :=
  let head :=
    match rows local with
    | r :: _ => item r
    | [] => EmptyRank (rank comm)
    end in
  r <- call (allgather head) ;; expect_seq r.

(** [LinearTopology.tails] *)
Definition tails (local : ndarray) (comm : Comm) : prog (list msg) :=
  let tail :=
    match rev (rows local) with
    | r :: _ => item r
    | [] => EmptyRank (rank comm)
    end in
  r <- call (allgather tail) ;; expect_seq r.

(** The first entry that [is not EmptyRank], else [EmptyRank]. *)
Definition first_nonempty (pid : nat) (l : list msg) : msg :=
  match find (fun v => negb (py_is v (EmptyRank pid))) l with
  | Some v => v
  | None => EmptyRank pid
  end.

(** [LinearTopology.prev] *)
Definition prev (local : ndarray) (comm : Comm) : prog msg :=
  ts <- tails local comm ;;
  Ret (first_nonempty (rank comm) (rev (firstn (rank comm) ts))).

(** [LinearTopology.next] *)
Definition next (local : ndarray) (comm : Comm) : prog msg :=
  hs <- heads local comm ;;
  Ret (first_nonempty (rank comm) (skipn (rank comm + 1) hs)).

(** ** DistributedArray *)

Record DistributedArray : Type := mk_DistributedArray {
  comm_of : Comm;
  dtype_of : dtype;
  cshape : list nat;
  local : ndarray;
  coffset : nat
}.

(** The members of [set(l)]. *)
Fixpoint distinct {A : Type} (eqb : A -> A -> bool) (l : list A) : list A :=
  match l with
  | [] => []
  | a :: l' =>
      if existsb (eqb a) l' then distinct eqb l' else a :: distinct eqb l'
  end.

(** A dtype or [None]. *)
Definition as_opt_dtype (v : msg) : option (option dtype) :=
  match v with
  | MDtype d => Some (Some d)
  | MNone => Some None
  | _ => None
  end.

Fixpoint somes {A : Type} (l : list (option A)) : list A :=
  match l with
  | [] => []
  | Some a :: l' => a :: somes l'
  | None :: l' => somes l'
  end.

(** [DistributedArray._find_dtype] *)
Definition _find_dtype (dt : msg) (comm : Comm) : prog dtype :=
  dtypes_r <- call (allgather dt) ;;
  dtypes <- expect (as_seq as_opt_dtype dtypes_r) ;;
  match distinct dtype_eqb (somes dtypes) with
  | [] => Raise (Exn StopIteration "")
  | [d] => Ret d
  | _ =>
      Raise (Exn TypeError
               "Type of local array is inconsistent between ranks; got %s")
  end.

(** [DistributedArray._find_cshape] *)
Definition _find_cshape (shape : list nat) (comm : Comm) : prog (list nat) :=
  shapes_r <- call (allgather (shape_msg shape)) ;;
  shapes <- expect (as_seq as_shape shapes_r) ;;
  if Nat.ltb 1 (length (distinct (list_eqb Nat.eqb) (map (@tl nat) shapes))) then
    Raise (Exn TypeError
             "Shape of local array is inconsistent between ranks; got %s")
  else
    clen_r <- call (allreduce (nat_msg (hd 0 shape)) SUM) ;;
    clen <- expect (as_nat clen_r) ;;
    Ret (clen :: tl shape).

(** [DistributedArray.__init__] *)
Definition DistributedArray_init (local : ndarray) (comm : Comm)
  : prog DistributedArray :=
  let shape := shape local in
  let dt :=
    if Nat.eqb (length (rows local)) 0 then MNone
    else MDtype (arr_dtype local) in
  self_dtype <- _find_dtype dt comm ;;
  self_cshape <- _find_cshape shape comm ;;
  lens_r <- call (allgather (nat_msg (hd 0 shape))) ;;
  lens <- expect (as_seq as_nat lens_r) ;;
  Ret (mk_DistributedArray comm self_dtype self_cshape local
         (fold_right Nat.add 0 (firstn (rank comm) lens))).

(** [DistributedArray.cempty] *)
Definition cempty (cshape : list nat) (dt : msg) (comm : Comm)
  : prog DistributedArray :=
  dtype <- _find_dtype dt comm ;;
  match cshape with
  | [] => Raise (Exn IndexError "tuple index out of range")
  | L :: ts =>
      let llen := L * (rank comm + 1) / size comm - L * rank comm / size comm in
      let shape := llen :: ts in
      cshape1 <- _find_cshape shape comm ;;
      if negb (list_eqb Nat.eqb cshape cshape1) then
        Raise (Exn ValueError "input cshape is inconsistent %s %s")
      else
        DistributedArray_init (np_empty llen ts dtype) comm
  end.

(** *** numpy on one-dimensional integer arrays *)

(** The values of a one-dimensional array of integers. *)
Fixpoint scalars_of (rs : list row) : option (list Z) :=
  match rs with
  | [] => Some []
  | [EInt z] :: rs' =>
      match scalars_of rs' with
      | Some l => Some (z :: l)
      | None => None
      end
  | _ => None
  end.

Definition scalars (a : ndarray) : option (list Z) :=
  match tshape a with
  | [] => scalars_of (rows a)
  | _ => None
  end.

Definition of_ints (d : dtype) (l : list Z) : ndarray :=
  mk_ndarray d [] (map (fun z => [EInt z]) l).

Fixpoint insert_sorted (x : Z) (l : list Z) : list Z :=
  match l with
  | [] => [x]
  | y :: l' => if (x <=? y)%Z then x :: l else y :: insert_sorted x l'
  end.

Definition sort_Z (l : list Z) : list Z := fold_right insert_sorted [] l.

(** Drop repeats from a sorted list. *)
Fixpoint uniq (l : list Z) : list Z :=
  match l with
  | [] => []
  | x :: l' =>
      match l' with
      | y :: _ => if Z.eqb x y then uniq l' else x :: uniq l'
      | [] => [x]
      end
  end.

Fixpoint index_of (x : Z) (l : list Z) : Z :=
  match l with
  | [] => 0
  | y :: l' => if Z.eqb x y then 0 else (1 + index_of x l')%Z
  end.

(** [numpy.unique(a, return_inverse=True)]: the sorted distinct values, and
    for every entry of [a] the index of its value among them. *)
Definition np_unique (l : list Z) : list Z * list Z :=
  let junk := uniq (sort_Z l) in
  (junk, map (fun x => index_of x junk) l).

(** The dtype of the inverse: an index type, except that numpy up to 1.13.3
    ([legacy]) returns booleans for an empty input. *)
Definition inverse_dtype (legacy : bool) (l : list Z) : dtype :=
  match l with
  | [] => if legacy then bool_ else int64
  | _ => int64
  end.

(** [a += k] for an integer [k]: a boolean array cannot take the sum. *)
Definition iadd (a : ndarray) (vals : list Z) (k : Z) : prog ndarray :=
  if dtype_eqb (arr_dtype a) bool_ then
    Raise (Exn TypeError "Cannot cast ufunc 'add' output from dtype('int64') to dtype('bool')")
  else Ret (of_ints (arr_dtype a) (map (fun v => (v + k)%Z) vals)).

(** The number of local distinct values that a rank reports: a group that
    goes on on the next non-empty rank is left to that rank. *)
Definition adjusted_count (nxt : msg) (local : ndarray) (junk : list Z) : Z :=
  match rev (rows local) with
  | [] => 0%Z
  | r :: _ =>
      if py_eq nxt (item r) then (Z.of_nat (length junk) - 1)%Z
      else Z.of_nat (length junk)
  end.

(** [DistributedArray.unique_labels] *)
Definition unique_labels (legacy : bool) (self : DistributedArray)
  : prog DistributedArray :=
  let comm := comm_of self in
  prv <- prev (local self) comm ;;
  nxt <- next (local self) comm ;;
  vals <- expect (scalars (local self)) ;;
  let (junk, inverse) := np_unique vals in
  let label := of_ints (inverse_dtype legacy vals) inverse in
  let label :=
    if Nat.eqb (length (rows label)) 0 then of_ints int64 inverse else label in
  let Nunique := adjusted_count nxt (local self) junk in
  counts_r <- call (allgather (MInt Nunique)) ;;
  counts <- expect (as_seq as_int counts_r) ;;
  label <- iadd label inverse (sum_Z (firstn (rank comm) counts)) ;;
  DistributedArray_init label comm.

(** [numpy.bincount(l)]; [None] when an entry is negative. *)
Fixpoint count_occ_Z (x : Z) (l : list Z) : Z :=
  match l with
  | [] => 0
  | y :: l' => ((if Z.eqb x y then 1 else 0) + count_occ_Z x l')%Z
  end.

Definition np_bincount (l : list Z) : option (list Z) :=
  if existsb (fun x => (x <? 0)%Z) l then None
  else
    match l with
    | [] => Some []
    | _ =>
        let m := fold_right Z.max 0%Z l in
        Some (map (fun i => count_occ_Z (Z.of_nat i) l) (seq 0 (S (Z.to_nat m))))
    end.

(** [N[i] += v] *)
Fixpoint add_at (i : nat) (v : Z) (N : list Z) : list Z :=
  match N, i with
  | [], _ => []
  | x :: N', 0 => (x + v)%Z :: N'
  | x :: N', S i' => x :: add_at i' v N'
  end.

(** One round of [for i in ...: if edge[i] == mine: N[at] += edgeN[i]]:
    the updated counts and whether any rank matched. *)
Fixpoint merge_edges (mine : msg) (at_ : nat) (edges edgesN : list msg)
  (N : list Z) (any : bool) : option (list Z * bool) :=
  match edges, edgesN with
  | e :: edges', c :: edgesN' =>
      if py_eq e mine then
        match as_int c with
        | Some v => merge_edges mine at_ edges' edgesN' (add_at at_ v N) true
        | None => None
        end
      else merge_edges mine at_ edges' edgesN' N any
  | _, _ => Some (N, any)
  end.

Inductive bincount_result : Type :=
| Counts (N : ndarray)
| Distributed (d : DistributedArray).

(** The value of the first local bin: 0 when no rank before holds anything,
    else the last value [prv] before this rank, or the one after it when the
    local data does not start with [prv]. *)
Definition bincount_offset (prv : msg) (self : DistributedArray) : prog Z :=
  if negb (py_is prv (EmptyRank (rank (comm_of self)))) then
    p <- expect (as_int prv) ;;
    match rows (local self) with
    | r :: _ => if negb (py_eq prv (item r)) then Ret (p + 1)%Z else Ret p
    | [] => Ret p
    end
  else Ret 0%Z.

(** [DistributedArray.bincount] with [weights=None]. *)
Definition bincount (self : DistributedArray) (local_only shared_edges : bool)
  : prog bincount_result :=
  let comm := comm_of self in
  prv <- prev (local self) comm ;;
  vals <- expect (scalars (local self)) ;;
  offset <- bincount_offset prv self ;;
  match np_bincount (map (fun v => (v - offset)%Z) vals) with
  | None =>
      Raise (Exn ValueError "'list' argument must have no negative elements")
  | Some N =>
      if local_only then Ret (Counts (of_ints int64 N))
      else
        hs <- heads (local self) comm ;;
        ts <- tails (local self) comm ;;
        distN <- DistributedArray_init (of_ints int64 N) comm ;;
        headsN <- heads (local distN) comm ;;
        tailsN <- tails (local distN) comm ;;
        N <-
          match rows (local self), rev (rows (local self)), N with
          | first :: _, last :: _, _ :: _ =>
              match merge_edges (item first) 0
                      (rev (firstn (rank comm) ts))
                      (rev (firstn (rank comm) tailsN)) N false with
              | Some (N1, anyshared) =>
                  match merge_edges (item last) (length N1 - 1)
                          (skipn (rank comm + 1) hs)
                          (skipn (rank comm + 1) headsN) N1 false with
                  | Some (N2, _) =>
                      if negb shared_edges && anyshared then Ret (tl N2)
                      else Ret N2
                  | None => Raise type_error
                  end
              | None => Raise type_error
              end
          | _, _, _ => Ret N
          end ;;
        d <- DistributedArray_init (of_ints int64 N) comm ;;
        Ret (Distributed d)
  end.

(** ** split_size_3d *)

(** The loop [while a > 1: if s % a == 0: s = s // a; break / a = a - 1]:
    the values of [a] and [s] when the loop is left.  [a] decreases at every
    turn, so [turns = a] turns are enough. *)
Fixpoint divide_out (turns : nat) (a s : Z) : Z * Z :=
  match turns with
  | O => (a, s)
  | S turns' =>
      if (1 <? a)%Z then
        if (s mod a =? 0)%Z then (a, (s / a)%Z)
        else divide_out turns' (a - 1)%Z s
      else (a, s)
  end.

Section SplitSize.
(** [int(s ** 0.3333333)] and [int(s ** 0.5)]: the two floating-point
    powers, truncated, are taken as given. *)
Variables pow_third pow_half : Z -> Z.

(** [split_size_3d(s)] *)
Definition split_size_3d (s : Z) : Z * Z * Z :=
  let a := (pow_third s + 1)%Z in
  let (a, s) := divide_out (Z.to_nat a) a s in
  let b := (pow_half s + 1)%Z in
  let (b, s) := divide_out (Z.to_nat b) b s in
  let c := s in
  (a, b, c).
End SplitSize.

(** ** attrs_to_dict *)

(** [d[key] = value] on a dict, whose items are kept in insertion order. *)
Fixpoint dict_set {V : Type} (key : string) (value : V) (d : list (string * V))
  : list (string * V) :=
  match d with
  | [] => [(key, value)]
  | (k, v) :: d' =>
      if String.eqb key k then (k, value) :: d'
      else (k, v) :: dict_set key value d'
  end.

(** [attrs_to_dict(obj, prefix)]; [attrs] is [obj.attrs.items()], or [None]
    when [obj] has no attribute [attrs]. *)
Definition attrs_to_dict {V : Type} (attrs : option (list (string * V)))
  (prefix : string) : list (string * V) :=
  match attrs with
  | None => []
  | Some items =>
      fold_left (fun d kv => dict_set (String.append prefix (fst kv)) (snd kv) d)
        items []
  end.

(** * Notions used in the statements *)

(** A list of per-rank arguments in which every argument carries its rank. *)
Definition well_indexed {X : Type} (ixs : list (nat * X)) : Prop :=
  map fst ixs = seq 0 (length ixs).

(** The calls of one round match. *)
Definition calls_match (cs : list coll) : bool :=
  match cs with
  | [] => true
  | c0 :: _ =>
      forallb (same_call c0) cs && forallb (alltoall_ok (length cs)) cs
  end.

(** A rank goes on with the reply of its call, or raises the call's error. *)
Definition continue_with {A : Type} (k : msg -> prog A) (r : reply) : prog A :=
  match r with
  | RMsg m => k m
  | RErr e => Raise e
  end.

(** The local lengths of the ranks, their sum, and the sum over the ranks
    below [j]. *)
Definition lengths (locals : list ndarray) : list nat :=
  map (fun a => length (rows a)) locals.

Definition total_length (locals : list ndarray) : nat :=
  fold_right Nat.add 0 (lengths locals).

Definition offset_before (j : nat) (locals : list ndarray) : nat :=
  fold_right Nat.add 0 (firstn j (lengths locals)).

(** The object [DistributedArray(a, comm)] builds when the ranks hold
    [locals], for the agreed dtype [d] and trailing shape [ts]. *)
Definition constructed (locals : list ndarray) (d : dtype) (ts : list nat)
  (comm : Comm) (a : ndarray) : DistributedArray :=
  mk_DistributedArray comm d (total_length locals :: ts) a
    (offset_before (rank comm) locals).

(** The local length [cempty] gives rank [r] out of [P] for a global length
    [L]. *)
Definition share (L P r : nat) : nat := L * (r + 1) / P - L * r / P.

Definition ceil_div (L P : nat) : nat := (L + P - 1) / P.

(** The local lengths of the arrays the ranks returned. *)
Definition local_length (o : outcome DistributedArray) : option nat :=
  match o with
  | Ok a => Some (length (rows (local a)))
  | _ => None
  end.

(** *** FrontPadArray *)

(** The rows of the whole striped array, in global order. *)
Definition global_rows (locals : list ndarray) : list row :=
  concat (map rows locals).

(** The [len] rows from global index [start] on. *)
Definition global_slice (locals : list ndarray) (start len : nat) : list row :=
  firstn len (skipn start (global_rows locals)).

(** Rank [j] asks for no more rows than precede it (and for no negative
    number of rows). *)
Definition feasible (locals : list ndarray) (j : nat) (front : Z) : Prop :=
  (0 <= front <= Z.of_nat (offset_before j locals))%Z.

(** What rank [j] is to get: the [front] rows before its offset, then its own
    rows. *)
Definition padded (locals : list ndarray) (d : dtype) (ts : list nat)
  (j : nat) (a : ndarray) (front : Z) : ndarray :=
  mk_ndarray d ts
    (global_slice locals (offset_before j locals - Z.to_nat front)
       (Z.to_nat front)
     ++ rows a).

(** The plan of [torecv_plan], computed along the ranks: [acc] is the offset
    of the rank at the head of [N]. *)
Fixpoint plan_from (acc : Z) (N : list Z) (mystart front : Z) : list Z :=
  match N with
  | [] => []
  | n :: N' =>
      clamp front n (acc + n - mystart) :: plan_from (acc + n) N' mystart front
  end.

(** [len(a)], as a Python integer. *)
Definition lenZ (a : ndarray) : Z := Z.of_nat (length (rows a)).

(** *** unique_labels *)

(** The [DistributedArray] objects of the ranks that hold the integer arrays
    [zss] (what the constructor returns there, by
    [DistributedArray_init_spec]). *)
Definition int_locals (d : dtype) (zss : list (list Z)) : list ndarray :=
  map (of_ints d) zss.

Definition dist_ints (d : dtype) (zss : list (list Z)) : list DistributedArray :=
  map (fun jz => constructed (int_locals d zss) d []
                   (mk_Comm (fst jz) (length zss)) (of_ints d (snd jz)))
    (indexed zss).

(** The first value held by the ranks [post]. *)
Definition next_value (post : list (list Z)) : option Z := hd_error (concat post).

(** The count a rank holding [zs] reports when the next value is [nxt]. *)
Definition adjusted (zs : list Z) (nxt : option Z) : Z :=
  match rev zs with
  | [] => 0%Z
  | z :: _ =>
      if match nxt with Some n => Z.eqb n z | None => false end
      then (Z.of_nat (length (uniq (sort_Z zs))) - 1)%Z
      else Z.of_nat (length (uniq (sort_Z zs)))
  end.

Definition counts_of (zss : list (list Z)) : list Z :=
  map (fun jz => adjusted (snd jz) (next_value (skipn (fst jz + 1) zss)))
    (indexed zss).

(** The labels of every rank: the local inverse index, shifted by the counts
    of the ranks below. *)
Definition labels_of (zss : list (list Z)) : list (list Z) :=
  map (fun jz =>
         map (fun v => (v + sum_Z (firstn (fst jz) (counts_of zss)))%Z)
           (snd (np_unique (snd jz))))
    (indexed zss).

(** The labels of a sorted sequence on one process: 0 for the first entry,
    one more at every change of value. *)
Fixpoint labels_after (p lab : Z) (l : list Z) : list Z :=
  match l with
  | [] => []
  | x :: l' =>
      let lab' := if Z.eqb x p then lab else (lab + 1)%Z in
      lab' :: labels_after x lab' l'
  end.

Definition ref_labels (l : list Z) : list Z :=
  match l with
  | [] => []
  | x :: l' => 0%Z :: labels_after x 0 l'
  end.

(** Non-decreasing. *)
Fixpoint sorted (l : list Z) : Prop :=
  match l with
  | [] => True
  | x :: l' =>
      match l' with
      | [] => True
      | y :: _ => (x <= y)%Z /\ sorted l'
      end
  end.

(** The number of distinct values. *)
Definition n_distinct (l : list Z) : nat := length (nodup Z.eq_dec l).

(** What rank [j] reads as the head or tail of a peer: a value, or its own
    [EmptyRank]. *)
Definition edge_msg (j : nat) (e : option Z) : msg :=
  match e with
  | Some z => MInt z
  | None => EmptyRank j
  end.

(** [labels_of], rank after rank: [acc] is the sum of the counts of the
    ranks already passed. *)
Fixpoint labels_from (acc : Z) (zss : list (list Z)) : list (list Z) :=
  match zss with
  | [] => []
  | zs :: rest =>
      map (fun v => (v + acc)%Z) (snd (np_unique zs))
      :: labels_from (acc + adjusted zs (next_value rest)) rest
  end.

(** *** bincount *)

(** The count a rank whose first bin is the value [off] holds for the value
    [v], if [v] is one of its bins. *)
Definition bin_at (off : Z) (N : list Z) (v : Z) : option Z :=
  if ((off <=? v) && (v <? off + Z.of_nat (length N)))%Z
  then nth_error N (Z.to_nat (v - off))
  else None.

(** The count of the value [v], read from the first rank that holds a bin
    for it: every distinct bin is read once. *)
Fixpoint distinct_bin (offs : list Z) (Ns : list (list Z)) (v : Z) : Z :=
  match offs, Ns with
  | off :: offs', N :: Ns' =>
      match bin_at off N v with
      | Some c => c
      | None => distinct_bin offs' Ns' v
      end
  | _, _ => 0%Z
  end.

Definition histogram (offs : list Z) (Ns : list (list Z)) (nbins : nat)
  : list Z :=
  map (fun v => distinct_bin offs Ns (Z.of_nat v)) (seq 0 nbins).

(** The last value held by the ranks [pre]. *)
Definition prev_value (pre : list (list Z)) : option Z :=
  hd_error (rev (concat pre)).

(** *** GatherArray and ScatterArray *)

(** A dtype the transfer accepts: no boxed objects, no raw void, distinct
    field names. *)
Fixpoint transmissible (d : dtype) : Prop :=
  match d with
  | DScalar c _ => c <> "O"%char /\ c <> "V"%char
  | DStruct fs =>
      NoDup (map fst fs)
      /\ (fix go (fs : list (string * dtype)) : Prop :=
            match fs with
            | [] => True
            | (_, d') :: fs' => transmissible d' /\ go fs'
            end) fs
  end.

(** A cell of dtype [d]: for a structured dtype, a record of its fields, in
    order. *)
Fixpoint has_dtype (d : dtype) (e : elem) : Prop :=
  match d with
  | DScalar _ _ => True
  | DStruct fs =>
      match e with
      | ERec vs =>
          (fix go (fs : list (string * dtype)) (vs : list (string * elem))
             : Prop :=
             match fs, vs with
             | [], [] => True
             | (n, d') :: fs', (m, v) :: vs' =>
                 n = m /\ has_dtype d' v /\ go fs' vs'
             | _, _ => False
             end) fs vs
      | _ => False
      end
  end.

(** A row of an array of dtype [d] and trailing shape [ts]. *)
Definition row_ok (d : dtype) (ts : list nat) (r : row) : Prop :=
  length r = duplicity ts /\ Forall (has_dtype d) r.

(** An array of dtype [d] and trailing shape [ts]. *)
Definition array_ok (d : dtype) (ts : list nat) (a : ndarray) : Prop :=
  arr_dtype a = d /\ tshape a = ts /\ Forall (row_ok d ts) (rows a).

(** The offsets of [offsets_of], computed along the ranks from [a]. *)
Fixpoint offsets_from (a : Z) (counts : list Z) : list Z :=
  match counts with
  | [] => []
  | c :: counts' => a :: offsets_from (a + c) counts'
  end.

(** A cell of the receive buffer once the fields [done] were assigned from
    the cell [c]. *)
Definition filled (d : dtype) (done : list string) (c : elem) : elem :=
  fold_left (fun acc name => set_field name acc (get_field name c)) done
    (uninit d).

(** The fields of a record once the fields [names] were assigned from the
    record [vs]. *)
Definition fill_list (vs : list (string * elem)) (names : list string)
  (W : list (string * elem)) : list (string * elem) :=
  fold_left (fun acc name =>
               assoc_set name
                 (match assoc name vs with Some v => v | None => EUninit end)
                 acc)
    names W.

(** The receive buffer of a structured gather on rank [r] once the fields
    [done] were gathered: on rank 0 the global rows [G] with those fields
    assigned, elsewhere [None]. *)
Definition gather_state (d : dtype) (ts : list nat) (done : list string)
  (G : list row) (r : nat) : msg :=
  if Nat.eqb r 0
  then MArray (mk_ndarray d ts (map (map (filled d done)) G))
  else MNone.

(** [GatherArray(data, comm, root=0)] on arrays of dtype [d] and trailing
    shape [ts] returns, on rank 0, the rows of the ranks in rank order, and
    [None] elsewhere. *)
Definition gathered_at_root {X : Type} (n : nat) (ixs : list (nat * X))
  (ts : list nat) (d : dtype) : Prop :=
  forall rws : nat * X -> list row,
    (forall ix, In ix ixs -> Forall (row_ok d ts) (rws ix)) ->
    run (map (fun ix => GatherArray_nd d ts (rws ix)
                          (mk_Comm (fst ix) n) (Rank 0)) ixs)
    = map (fun ix =>
             Ok (if Nat.eqb (fst ix) 0
                 then MArray (mk_ndarray d ts (concat (map rws ixs)))
                 else MNone)) ixs.

(** ** Gathering to any root *)

(** [root] names a rank of a communicator of [n] ranks, or is [Ellipsis]. *)
Definition root_in (root : root_t) (n : nat) : Prop :=
  match root with
  | Rank r => r < n
  | Ellipsis => True
  end.

(** The receive buffer of a structured gather on a rank that is ([dest]) or
    is not a destination, once the fields [done] were gathered. *)
Definition gather_state_at (dest : bool) (d : dtype) (ts : list nat)
  (done : list string) (G : list row) : msg :=
  if dest
  then MArray (mk_ndarray d ts (map (map (filled d done)) G))
  else MNone.

(** [GatherArray(data, comm, root)] on arrays of dtype [d] and trailing
    shape [ts] returns, on the destination ranks, the rows of the ranks in
    rank order, and [None] elsewhere. *)
Definition gathered_at {X : Type} (root : root_t) (n : nat)
  (ixs : list (nat * X)) (ts : list nat) (d : dtype) : Prop :=
  forall rws : nat * X -> list row,
    (forall ix, In ix ixs -> Forall (row_ok d ts) (rws ix)) ->
    run (map (fun ix => GatherArray_nd d ts (rws ix)
                          (mk_Comm (fst ix) n) root) ixs)
    = map (fun ix =>
             Ok (if is_dest root (mk_Comm (fst ix) n)
                 then MArray (mk_ndarray d ts (concat (map rws ixs)))
                 else MNone)) ixs.

(** The recursive calls [GatherArray(data[name], comm, root)] that
    [GatherArray] holds for the fields of [a]'s own dtype. *)
Definition field_calls (a : ndarray) (comm : Comm) (root : root_t)
  : list (string * prog msg) :=
  match arr_dtype a with
  | DScalar _ _ => []
  | DStruct fs =>
      map (fun nd => (fst nd,
                      GatherArray_nd (snd nd) (tshape a)
                        (map (map (get_field (fst nd))) (rows a)) comm root))
        fs
  end.

Definition not_an_array : exn :=
  Exn ValueError "`data` must by numpy array in GatherArray".

Definition dtype_mismatch : exn :=
  Exn ValueError "mismatch between dtypes across ranks in GatherArray".

Definition shape_mismatch : exn :=
  Exn ValueError "mismatch between shape[1:] across ranks in GatherArray".

Definition object_in_gather : exn :=
  Exn ValueError
    "object data types ('O') not allowed in structured data in GatherArray".

Definition field_mismatch : exn :=
  Exn ValueError "mismatch between data type fields in structured data".

(** [set(l) == set(m)] as a proposition. *)
Definition same_set (l m : list string) : Prop :=
  forall x, In x l <-> In x m.

(** ** Scattering without [counts] *)

(** [shape[0] // size], plus one on the ranks below [shape[0] % size]. *)
Definition even_counts (L N : nat) : list nat :=
  map (fun r => L / N + (if Nat.ltb r (L mod N) then 1 else 0)) (seq 0 N).

(** Consecutive pieces of [l] of the lengths [counts]. *)
Fixpoint split_by {A : Type} (counts : list nat) (l : list A) : list (list A) :=
  match counts with
  | [] => []
  | c :: counts' => firstn c l :: split_by counts' (skipn c l)
  end.

Definition sum_nat (l : list nat) : nat := fold_right Nat.add 0 l.

Definition scatter_bad_input : exn :=
  Exn ValueError "`data` must by numpy array on root in ScatterArray".

Definition scatter_bad_sum : exn :=
  Exn ValueError
    "the sum of the `counts` array needs to be equal to data length".

Definition scatter_object : exn :=
  Exn ValueError
    "'object' data type not supported in ScatterArray; please specify specific data type".

Definition negative_dimensions : exn :=
  Exn ValueError "negative dimensions are not allowed".

(** ** DistributedArray: what construction raises *)

Definition stop_iteration : exn := Exn StopIteration "".

Definition inconsistent_dtype : exn :=
  Exn TypeError "Type of local array is inconsistent between ranks; got %s".

Definition inconsistent_shape : exn :=
  Exn TypeError "Shape of local array is inconsistent between ranks; got %s".

(** ** bincount on sorted data *)













(** * The executor *)

Lemma zip_with_map {A B C X : Type} (f : A -> B -> C) (g : X -> A) (h : X -> B)
  (l : list X) :
  zip_with f (map g l) (map h l) = map (fun x => f (g x) (h x)) l.
Proof.
  induction l as [|x l IH]; simpl; [reflexivity|]. now rewrite IH.
Qed.

Lemma length_indexed {X : Type} (xs : list X) : length (indexed xs) = length xs.
Proof.
  unfold indexed. rewrite length_combine, length_seq. apply Nat.min_id.
Qed.

Lemma combine_fst_snd {X Y : Type} (l : list (X * Y)) :
  combine (map fst l) (map snd l) = l.
Proof.
  induction l as [|[a b] l IH]; simpl; [reflexivity|]. now rewrite IH.
Qed.

Lemma map_fst_combine {X Y : Type} (l : list X) (m : list Y) :
  length l = length m -> map fst (combine l m) = l.
Proof.
  revert m; induction l as [|a l IH]; intros [|b m] H; simpl in *;
    try discriminate; [reflexivity|]. f_equal. apply IH. lia.
Qed.

Lemma map_snd_combine {X Y : Type} (l : list X) (m : list Y) :
  length l = length m -> map snd (combine l m) = m.
Proof.
  revert m; induction l as [|a l IH]; intros [|b m] H; simpl in *;
    try discriminate; [reflexivity|]. f_equal. apply IH. lia.
Qed.

Lemma indexed_well_indexed {X : Type} (xs : list X) : well_indexed (indexed xs).
Proof.
  unfold well_indexed. rewrite length_indexed. unfold indexed.
  apply map_fst_combine. now rewrite length_seq.
Qed.

Lemma map_snd_indexed {X : Type} (xs : list X) : map snd (indexed xs) = xs.
Proof.
  unfold indexed. apply map_snd_combine. now rewrite length_seq.
Qed.

Lemma combine_map {X Y Z : Type} (f : X -> Y) (g : X -> Z) (l : list X) :
  combine (map f l) (map g l) = map (fun x => (f x, g x)) l.
Proof.
  induction l as [|x l IH]; simpl; [reflexivity|]. now rewrite IH.
Qed.

Lemma indexed_map {X Y : Type} (c : nat * X -> Y) (ixs : list (nat * X)) :
  well_indexed ixs ->
  indexed (map c ixs) = map (fun ix => (fst ix, c ix)) ixs.
Proof.
  intros H. unfold indexed. rewrite length_map, <- H. apply combine_map.
Qed.

Lemma well_indexed_nth {X : Type} (ixs : list (nat * X)) (j : nat) (ix : nat * X) :
  well_indexed ixs -> nth_error ixs j = Some ix -> fst ix = j.
Proof.
  intros H Hn. unfold well_indexed in H.
  assert (Hj : nth_error (map fst ixs) j = Some (fst ix))
    by (rewrite nth_error_map, Hn; reflexivity).
  rewrite H in Hj.
  assert (j < length ixs) by (apply nth_error_Some; congruence).
  rewrite nth_error_seq in Hj.
  destruct (Nat.ltb_spec j (length ixs)); [|lia].
  simpl in Hj. congruence.
Qed.

Lemma well_indexed_In {X : Type} (ixs : list (nat * X)) (ix : nat * X) :
  well_indexed ixs -> In ix ixs -> nth_error ixs (fst ix) = Some ix.
Proof.
  intros H Hin. destruct (In_nth_error _ _ Hin) as [j Hj].
  now rewrite (well_indexed_nth _ _ _ H Hj).
Qed.

Lemma pendings_map_call {A X : Type} (c : X -> coll) (k : X -> msg -> prog A)
  (xs : list X) :
  pendings (map (fun x => Call (c x) (k x)) xs)
  = Some (map (fun x => (c x, k x)) xs).
Proof.
  induction xs as [|x xs IH]; simpl; [reflexivity|]. now rewrite IH.
Qed.

Lemma exchange_length (cs : list coll) (rs : list reply) :
  exchange cs = Some rs -> length rs = length cs.
Proof.
  unfold exchange. destruct cs as [|c0 cs].
  - intros H; injection H as <-. reflexivity.
  - destruct (_ && _); [|discriminate]. intros H; injection H as <-.
    cbn [length]. rewrite length_map, length_combine, length_seq. lia.
Qed.

Lemma exchange_match (cs : list coll) :
  calls_match cs = true ->
  exchange cs = Some (map (fun jc => reply_to cs (fst jc) (snd jc)) (indexed cs)).
Proof.
  destruct cs as [|c0 cs]; [reflexivity|].
  unfold calls_match, exchange. now intros ->.
Qed.

Lemma settle_resume_raise {A : Type} (e : exn) (rest : list (prog A)) :
  run (Raise e :: rest) = Raised e :: map settle rest.
Proof. reflexivity. Qed.

(** One round: every rank stands at a call, the calls match, and every rank
    goes on with its reply. *)
Lemma run_round {A X : Type} (c : X -> coll) (k : X -> msg -> prog A)
  (xs : list X) (rs : list reply) :
  exchange (map c xs) = Some rs ->
  run (map (fun x => Call (c x) (k x)) xs)
  = run (zip_with resume (map (fun x => (c x, k x)) xs) rs).
Proof.
  intros H. pose proof (exchange_length _ _ H) as Hl. rewrite length_map in Hl.
  destruct xs as [|x xs]; destruct rs as [|r rs]; simpl in Hl; try discriminate;
    [reflexivity|].
  cbn [map run run_from]. rewrite pendings_map_call.
  replace (map fst (map (fun x => (c x, k x)) xs)) with (map c xs)
    by (rewrite map_map; reflexivity).
  cbn [map] in H. rewrite H.
  destruct r as [m|e]; reflexivity.
Qed.

Lemma run_call {A X : Type} (c : nat * X -> coll) (k : nat * X -> msg -> prog A)
  (ixs : list (nat * X)) :
  well_indexed ixs ->
  calls_match (map c ixs) = true ->
  run (map (fun ix => Call (c ix) (k ix)) ixs)
  = run (map (fun ix =>
                continue_with (k ix) (reply_to (map c ixs) (fst ix) (c ix)))
           ixs).
Proof.
  intros Hw Hm. erewrite run_round by (apply exchange_match, Hm).
  rewrite indexed_map by exact Hw. rewrite map_map. cbn [fst snd].
  rewrite zip_with_map. reflexivity.
Qed.

Lemma run_call_ext {A X : Type} (P : nat * X -> prog A) (c : nat * X -> coll)
  (k : nat * X -> msg -> prog A) (ixs : list (nat * X)) :
  well_indexed ixs ->
  (forall ix, In ix ixs -> P ix = Call (c ix) (k ix)) ->
  calls_match (map c ixs) = true ->
  run (map P ixs)
  = run (map (fun ix =>
                continue_with (k ix) (reply_to (map c ixs) (fst ix) (c ix)))
           ixs).
Proof.
  intros Hw HP Hm. rewrite (map_ext_in _ _ _ HP). now apply run_call.
Qed.

Lemma calls_match_map {X : Type} (c : X -> coll) (xs : list X) :
  (forall x y, In x xs -> In y xs -> same_call (c x) (c y) = true) ->
  (forall x, In x xs -> alltoall_ok (length xs) (c x) = true) ->
  calls_match (map c xs) = true.
Proof.
  intros Hs Ha. destruct xs as [|x0 xs]; [reflexivity|].
  unfold calls_match. cbn [map]. apply andb_true_iff; split.
  - change (c x0 :: map c xs) with (map c (x0 :: xs)).
    apply forallb_forall. intros y Hy. apply in_map_iff in Hy.
    destruct Hy as [x [<- Hx]]. apply Hs; [now left|exact Hx].
  - change (c x0 :: map c xs) with (map c (x0 :: xs)).
    rewrite length_map. apply forallb_forall. intros y Hy.
    apply in_map_iff in Hy. destruct Hy as [x [<- Hx]]. now apply Ha.
Qed.

Section Rounds.
Context {A X : Type} (ixs : list (nat * X)) (Hw : well_indexed ixs).
Variable k : nat * X -> msg -> prog A.

Lemma run_allgather (p : nat * X -> msg) :
  run (map (fun ix => Call (allgather (p ix)) (k ix)) ixs)
  = run (map (fun ix =>
                k ix (MTuple (map (fun ix' => deliver (fst ix) (p ix')) ixs)))
           ixs).
Proof.
  rewrite (run_call (fun ix => allgather (p ix)) k ixs Hw).
  - f_equal. apply map_ext. intros ix. cbn [reply_to continue_with].
    now rewrite map_map.
  - now apply calls_match_map.
Qed.

Lemma run_bcast (p : nat * X -> msg) (root : nat) (ixr : nat * X) :
  nth_error ixs root = Some ixr ->
  run (map (fun ix => Call (bcast (p ix) root) (k ix)) ixs)
  = run (map (fun ix => k ix (deliver (fst ix) (p ixr))) ixs).
Proof.
  intros Hr.
  rewrite (run_call (fun ix => bcast (p ix) root) k ixs Hw).
  - f_equal. apply map_ext. intros ix. cbn [reply_to continue_with].
    now rewrite nth_error_map, Hr.
  - apply calls_match_map; [|reflexivity].
    intros; cbn. apply Nat.eqb_refl.
Qed.

Lemma run_allreduce_SUM (p : nat * X -> msg) (z : Z) :
  sum_msgs (map p ixs) = Some z ->
  run (map (fun ix => Call (allreduce (p ix) SUM) (k ix)) ixs)
  = run (map (fun ix => k ix (MInt z)) ixs).
Proof.
  intros Hs.
  rewrite (run_call (fun ix => allreduce (p ix) SUM) k ixs Hw).
  - f_equal. apply map_ext. intros ix. cbn [reply_to continue_with reduce].
    replace (map payload (map (fun ix0 => allreduce (p ix0) SUM) ixs))
      with (map p ixs) by (rewrite map_map; reflexivity).
    now rewrite Hs.
  - now apply calls_match_map.
Qed.

Lemma run_allreduce_LOR (p : nat * X -> msg) :
  run (map (fun ix => Call (allreduce (p ix) LOR) (k ix)) ixs)
  = run (map (fun ix => k ix (MBool (existsb truthy (map p ixs)))) ixs).
Proof.
  rewrite (run_call (fun ix => allreduce (p ix) LOR) k ixs Hw).
  - f_equal. apply map_ext. intros ix. cbn [reply_to continue_with reduce].
    now rewrite map_map.
  - now apply calls_match_map.
Qed.

Lemma run_alltoall (vs : nat * X -> list msg) :
  (forall ix, In ix ixs -> length (vs ix) = length ixs) ->
  run (map (fun ix => Call (alltoall (vs ix)) (k ix)) ixs)
  = run (map (fun ix =>
                k ix (MTuple (map (fun ix' =>
                                    deliver (fst ix) (nth (fst ix) (vs ix') MNone))
                                ixs)))
           ixs).
Proof.
  intros Hl.
  rewrite (run_call (fun ix => alltoall (vs ix)) k ixs Hw).
  - f_equal. apply map_ext. intros ix. cbn [reply_to continue_with].
    now rewrite map_map.
  - apply calls_match_map; [reflexivity|].
    intros ix Hin. cbn. rewrite (Hl ix Hin). apply Nat.eqb_refl.
Qed.

Lemma run_Gatherv (send : nat * X -> buf) (recv : nat * X -> option buf)
  (counts offsets : nat * X -> list Z) (root : nat) :
  run (map (fun ix =>
              Call (Gatherv (send ix) (recv ix) (counts ix) (offsets ix) root)
                (k ix)) ixs)
  = run (map (fun ix =>
                continue_with (k ix)
                  (if Nat.ltb root (length ixs) then
                     if Nat.eqb (fst ix) root then
                       match recv ix with
                       | Some rb =>
                           gather_reply rb (map send ixs) (counts ix) (offsets ix)
                       | None => RErr mpi_error
                       end
                     else RMsg MNone
                   else RErr mpi_error))
           ixs).
Proof.
rewrite (run_call
           (fun ix => Gatherv (send ix) (recv ix) (counts ix) (offsets ix) root)
           k ixs Hw).
- f_equal. apply map_ext. intros ix. cbn [reply_to].
  now rewrite length_map, map_map.
- apply calls_match_map; [|reflexivity].
  intros; cbn. apply Nat.eqb_refl.
Qed.

Lemma run_Scatterv (send recv : nat * X -> buf)
  (counts offsets : nat * X -> list Z) (root : nat) (ixr : nat * X) :
  nth_error ixs root = Some ixr ->
  run (map (fun ix =>
              Call (Scatterv (send ix) (counts ix) (offsets ix) (recv ix) root)
                (k ix)) ixs)
  = run (map (fun ix =>
                continue_with (k ix)
                  (scatter_reply
                     (scatter_block (send ixr) (counts ixr) (offsets ixr) (fst ix))
                     (recv ix)))
           ixs).
Proof.
intros Hr.
rewrite (run_call
           (fun ix => Scatterv (send ix) (counts ix) (offsets ix) (recv ix) root)
           k ixs Hw).
- f_equal. apply map_ext. intros ix. cbn [reply_to].
  now rewrite nth_error_map, Hr.
- apply calls_match_map; [|reflexivity].
  intros; cbn. apply Nat.eqb_refl.
Qed.

Lemma run_Barrier :
  run (map (fun ix => Call Barrier (k ix)) ixs)
  = run (map (fun ix => k ix MNone) ixs).
Proof.
  rewrite (run_call (fun _ => Barrier) k ixs Hw).
  - reflexivity.
  - now apply calls_match_map.
Qed.
End Rounds.

(** When every rank has returned or raised, [run] reports it. *)
Lemma run_settled {A X : Type} (P : X -> prog A) (o : X -> outcome A)
  (xs : list X) :
  (forall x, In x xs -> settle (P x) = o x /\ o x <> Hang) ->
  run (map P xs) = map o xs.
Proof.
  intros H. destruct xs as [|x xs]; [reflexivity|].
  cbn [map run].
  assert (Hx := H x (or_introl eq_refl)).
  assert (Hr : map settle (map P xs) = map o xs).
  { rewrite map_map. apply map_ext_in. intros y Hy.
    apply H. now right. }
  destruct (P x) eqn:E; cbn [run_from]; cbn [settle] in Hx.
  - rewrite Hr. now destruct Hx as [<- _].
  - rewrite Hr. now destruct Hx as [<- _].
  - destruct Hx as [<- Hx]. now elim Hx.
Qed.

Lemma run_ret {A X : Type} (v : X -> A) (xs : list X) :
  run (map (fun x => Ret (v x)) xs) = map (fun x => Ok (v x)) xs.
Proof.
  apply run_settled. intros x _. split; [reflexivity|discriminate].
Qed.

Lemma run_raise {A X : Type} (e : X -> exn) (xs : list X) :
  run (map (fun x => @Raise A (e x)) xs) = map (fun x => Raised (e x)) xs.
Proof.
  apply run_settled. intros x _. split; [reflexivity|discriminate].
Qed.

(** ** Sequencing: a function called by every rank *)

Lemma settle_all_Ok {A : Type} (rest : list (prog A)) (vs : list A) :
  map settle rest = map Ok vs -> rest = map Ret vs.
Proof.
  revert vs; induction rest as [|p rest IH]; intros [|v vs] H;
    try discriminate; [reflexivity|].
  cbn [map] in *. injection H as Hp Hr. rewrite (IH _ Hr).
  destruct p; cbn in Hp; try discriminate. now injection Hp as ->.
Qed.

Lemma zip_with_bind_Ret {A B : Type} (vs : list A) (ks : list (A -> prog B)) :
  zip_with bind (map Ret vs) ks = zip_with (fun k v => k v) ks vs.
Proof.
  revert ks; induction vs as [|v vs IH]; intros [|k ks]; cbn; try reflexivity.
  now rewrite IH.
Qed.

Lemma pendings_zip_bind {A B : Type} (rest : list (prog A))
  (ks : list (A -> prog B)) cks :
  pendings rest = Some cks -> length ks = length rest ->
  pendings (zip_with bind rest ks)
  = Some (zip_with (fun ck kk => (fst ck, fun r => bind (snd ck r) kk)) cks ks).
Proof.
  revert ks cks; induction rest as [|p rest IH]; intros [|k0 ks] cks H Hl;
    cbn in Hl; try discriminate.
  - cbn in H. injection H as <-. reflexivity.
  - destruct p as [a|e|c k]; cbn [pendings] in H; try discriminate.
    destruct (pendings rest) as [cks'|] eqn:E; [|discriminate].
    injection H as <-. cbn [zip_with bind pendings].
    rewrite (IH ks cks' eq_refl) by lia. reflexivity.
Qed.

Lemma pendings_length {A : Type} (rest : list (prog A)) cks :
  pendings rest = Some cks -> length cks = length rest.
Proof.
  revert cks; induction rest as [|p rest IH]; intros cks H.
  - cbn in H. now injection H as <-.
  - destruct p as [a|e|c k]; cbn [pendings] in H; try discriminate.
    destruct (pendings rest) as [cks'|]; [|discriminate].
    injection H as <-. cbn. f_equal. now apply IH.
Qed.

Lemma map_fst_zip_bind {A B : Type} (cks : list (coll * (msg -> prog A)))
  (ks : list (A -> prog B)) :
  length ks = length cks ->
  map fst (zip_with (fun ck kk => (fst ck, fun r => bind (snd ck r) kk)) cks ks)
  = map fst cks.
Proof.
  revert ks; induction cks as [|ck cks IH]; intros [|k ks] H; cbn in *;
    try discriminate; [reflexivity|]. f_equal. apply IH. lia.
Qed.

Lemma resume_zip_bind {A B : Type} (cks : list (coll * (msg -> prog A)))
  (ks : list (A -> prog B)) (rs : list reply) :
  zip_with resume
    (zip_with (fun ck kk => (fst ck, fun r => bind (snd ck r) kk)) cks ks) rs
  = zip_with bind (zip_with resume cks rs) ks.
Proof.
  revert ks rs; induction cks as [|ck cks IH]; intros [|k ks] [|r rs]; cbn;
    try reflexivity.
  rewrite IH. now destruct r.
Qed.

Lemma length_zip_with {A B C : Type} (f : A -> B -> C) (l : list A) (m : list B) :
  length l = length m -> length (zip_with f l m) = length l.
Proof.
  revert m; induction l as [|a l IH]; intros [|b m] H; cbn in *;
    try discriminate; [reflexivity|]. f_equal. apply IH. lia.
Qed.

Lemma run_from_bind {A B : Type} (p0 : prog A) :
  forall (rest : list (prog A)) (k0 : A -> prog B) (ks : list (A -> prog B))
         (vs : list A),
    run_from p0 rest = map Ok vs ->
    length ks = length rest ->
    run_from (bind p0 k0) (zip_with bind rest ks)
    = run (zip_with (fun k v => k v) (k0 :: ks) vs).
Proof.
  induction p0 as [a|e|c k IH]; intros rest k0 ks vs H Hl.
  - cbn [run_from settle] in H. destruct vs as [|v vs]; [discriminate|].
    cbn [map] in H. injection H as -> Hr.
    apply settle_all_Ok in Hr. subst rest.
    cbn [bind zip_with run]. now rewrite zip_with_bind_Ret.
  - cbn [run_from settle] in H. destruct vs; discriminate.
  - cbn [run_from] in H. cbn [bind run_from].
    destruct (pendings rest) as [cks|] eqn:Ep;
      [|destruct vs; discriminate].
    pose proof (pendings_length _ _ Ep) as Hlc.
    rewrite (pendings_zip_bind _ ks _ Ep Hl).
    rewrite map_fst_zip_bind by lia.
    destruct (exchange (c :: map fst cks)) as [[|r0 rs]|] eqn:Ex;
      try (destruct vs; discriminate).
    destruct r0 as [m|e]; [|destruct vs; discriminate].
    rewrite resume_zip_bind.
    apply IH; [exact H|].
    apply exchange_length in Ex. cbn in Ex. rewrite length_map in Ex.
    rewrite length_zip_with; lia.
Qed.

(** If a function returns on every rank, the ranks go on from its results. *)
Lemma run_bind_ok {A B X : Type} (m : X -> prog A) (k : X -> A -> prog B)
  (v : X -> A) (xs : list X) :
  run (map m xs) = map (fun x => Ok (v x)) xs ->
  run (map (fun x => bind (m x) (k x)) xs) = run (map (fun x => k x (v x)) xs).
Proof.
  destruct xs as [|x xs]; [reflexivity|]. cbn [map run]. intros H.
  replace (map (fun x => bind (m x) (k x)) xs)
    with (zip_with bind (map m xs) (map k xs))
    by (exact (zip_with_map bind m k xs)).
  rewrite (run_from_bind _ _ (k x) (map k xs) (v x :: map v xs)).
  - cbn [zip_with run]. f_equal.
    exact (zip_with_map (fun k v => k v) k v xs).
  - rewrite H. cbn [map]. now rewrite map_map.
  - now rewrite !length_map.
Qed.

(** If it raises on every rank, every rank raises. *)
Lemma run_from_bind_raise {A B : Type} (p0 : prog A) :
  forall (rest : list (prog A)) (k0 : A -> prog B) (ks : list (A -> prog B))
         (es : list exn),
    run_from p0 rest = map Raised es ->
    length ks = length rest ->
    run_from (bind p0 k0) (zip_with bind rest ks) = map Raised es.
Proof.
  induction p0 as [a|e|c k IH]; intros rest k0 ks es H Hl.
  - cbn [run_from settle] in H. destruct es; discriminate.
  - cbn [run_from settle] in H. destruct es as [|e' es]; [discriminate|].
    cbn [map] in H. injection H as -> Hr. cbn [bind run_from settle map].
    f_equal. clear -Hr Hl. revert ks es Hr Hl.
    induction rest as [|p rest IH]; intros [|k ks] [|e es] Hr Hl; cbn in *;
      try discriminate; [reflexivity|].
    injection Hr as Hp Hr. destruct p; cbn in Hp; try discriminate.
    injection Hp as ->. cbn. f_equal. apply IH; [exact Hr|lia].
  - cbn [run_from] in H. cbn [bind run_from].
    destruct (pendings rest) as [cks|] eqn:Ep;
      [|destruct es; discriminate].
    pose proof (pendings_length _ _ Ep) as Hlc.
    rewrite (pendings_zip_bind _ ks _ Ep Hl).
    rewrite map_fst_zip_bind by lia.
    destruct (exchange (c :: map fst cks)) as [[|r0 rs]|] eqn:Ex;
      try (destruct es; discriminate).
    apply exchange_length in Ex. cbn in Ex. rewrite length_map in Ex.
    rewrite resume_zip_bind.
    destruct r0 as [m|e].
    + apply IH; [exact H|]. rewrite length_zip_with; lia.
    + destruct es as [|e' es]; [discriminate|]. cbn [map] in H.
      injection H as -> Hr. cbn [map]. f_equal.
      assert (Hlz : length ks = length (zip_with resume cks rs))
        by (rewrite length_zip_with; lia).
      revert Hr Hlz. generalize (zip_with resume cks rs). clear.
      intros l; revert ks es.
      induction l as [|p l IH]; intros [|k ks] [|e es] Hr Hl; cbn in *;
        try discriminate; [reflexivity|].
      injection Hr as Hp Hr. destruct p; cbn in Hp; try discriminate.
      injection Hp as ->. cbn. f_equal. apply IH; [exact Hr|lia].
Qed.

Lemma run_bind_raise {A B X : Type} (m : X -> prog A) (k : X -> A -> prog B)
  (e : X -> exn) (xs : list X) :
  run (map m xs) = map (fun x => Raised (e x)) xs ->
  run (map (fun x => bind (m x) (k x)) xs) = map (fun x => Raised (e x)) xs.
Proof.
  destruct xs as [|x xs]; [reflexivity|]. cbn [map run]. intros H.
  replace (map (fun x => bind (m x) (k x)) xs)
    with (zip_with bind (map m xs) (map k xs))
    by (exact (zip_with_map bind m k xs)).
  rewrite (run_from_bind_raise _ _ (k x) (map k xs) (e x :: map e xs)).
  - cbn [map]. now rewrite map_map.
  - rewrite H. cbn [map]. now rewrite map_map.
  - now rewrite !length_map.
Qed.

Lemma firstn_seq (n start len : nat) :
  firstn n (seq start len) = seq start (Nat.min n len).
Proof.
  revert start len; induction n as [|n IH]; intros start [|len]; cbn;
    try reflexivity. now rewrite IH.
Qed.

Lemma run_ext {A X : Type} (P Q : X -> prog A) (xs : list X) :
  (forall x, In x xs -> P x = Q x) -> run (map P xs) = run (map Q xs).
Proof. intros H. now rewrite (map_ext_in _ _ _ H). Qed.

(** ** Element types *)

Lemma dtype_ind' (P : dtype -> Prop) :
  (forall c n, P (DScalar c n)) ->
  (forall fs, Forall (fun nd => P (snd nd)) fs -> P (DStruct fs)) ->
  forall d, P d.
Proof.
  intros Hs Hf. fix IH 1. intros [c n|fs].
  - apply Hs.
  - apply Hf. induction fs as [|[n d] fs IHfs].
    + constructor.
    + constructor; [apply IH|exact IHfs].
Qed.

Lemma dtype_eqb_eq (a b : dtype) : dtype_eqb a b = true <-> a = b.
Proof.
  revert b. induction a as [c n|fs IH] using dtype_ind'; intros [c' n'|gs];
    cbn [dtype_eqb]; try (split; discriminate).
  - rewrite andb_true_iff, Ascii.eqb_eq, Nat.eqb_eq.
    split; [intros [-> ->]; reflexivity|intros H; injection H; auto].
  - revert gs. induction IH as [|[n d] fs Hd _ IHfs]; intros [|[m e] gs];
      try (split; discriminate); [split; reflexivity|].
    rewrite !andb_true_iff, String.eqb_eq. cbn [snd] in Hd.
    rewrite Hd, IHfs. split.
    + intros [[-> ->] H]. injection H as ->. reflexivity.
    + intros H. injection H as -> -> ->. auto.
Qed.

Lemma dtype_eqb_refl (d : dtype) : dtype_eqb d d = true.
Proof. now apply dtype_eqb_eq. Qed.

Lemma dtype_eqb_neq (a b : dtype) : a <> b -> dtype_eqb a b = false.
Proof.
  intros H. destruct (dtype_eqb a b) eqn:E; [|reflexivity].
  apply dtype_eqb_eq in E. contradiction.
Qed.

Lemma list_eqb_nat_eq (l m : list nat) : list_eqb Nat.eqb l m = true <-> l = m.
Proof.
  revert m; induction l as [|a l IH]; intros [|b m]; cbn;
    try (split; discriminate); [split; reflexivity|].
  rewrite andb_true_iff, Nat.eqb_eq, IH.
  split; [intros [-> ->]; reflexivity|intros H; injection H; auto].
Qed.

Lemma list_eqb_nat_refl (l : list nat) : list_eqb Nat.eqb l l = true.
Proof. now apply list_eqb_nat_eq. Qed.

(** ** Objects through the communicator *)

Lemma deliver_nat (j n : nat) : deliver j (nat_msg n) = nat_msg n.
Proof. reflexivity. Qed.

Lemma deliver_shape (j : nat) (s : list nat) :
  deliver j (shape_msg s) = shape_msg s.
Proof.
  unfold deliver, shape_msg. cbn [dumps loads]. f_equal.
  rewrite !map_map. apply map_ext. reflexivity.
Qed.

Lemma deliver_ints (j : nat) (l : list Z) :
  deliver j (MTuple (map MInt l)) = MTuple (map MInt l).
Proof.
  unfold deliver. cbn [dumps loads]. f_equal.
  rewrite !map_map. apply map_ext. reflexivity.
Qed.

Lemma decode_all_map {A X : Type} (f : msg -> option A) (g : X -> msg)
  (h : X -> A) (l : list X) :
  (forall x, In x l -> f (g x) = Some (h x)) ->
  decode_all f (map g l) = Some (map h l).
Proof.
  induction l as [|x l IH]; intros H; cbn; [reflexivity|].
  rewrite (H x (or_introl eq_refl)), IH; [reflexivity|].
  intros y Hy. apply H. now right.
Qed.

Lemma as_nat_nat_msg (n : nat) : as_nat (nat_msg n) = Some n.
Proof.
  unfold as_nat, nat_msg. destruct (Z.leb_spec 0 (Z.of_nat n)); [|lia].
  now rewrite Nat2Z.id.
Qed.

Lemma as_shape_shape_msg (s : list nat) : as_shape (shape_msg s) = Some s.
Proof.
  unfold as_shape, shape_msg, as_seq.
  rewrite <- (map_id s) at 2. apply decode_all_map.
  intros n _. apply as_nat_nat_msg.
Qed.

Lemma sum_msgs_nat {X : Type} (f : X -> nat) (l : list X) :
  sum_msgs (map (fun x => nat_msg (f x)) l)
  = Some (Z.of_nat (fold_right Nat.add 0 (map f l))).
Proof.
  induction l as [|x l IH]; cbn [map sum_msgs fold_right]; [reflexivity|].
  rewrite IH. cbn [as_int nat_msg]. f_equal. lia.
Qed.

(** * DistributedArray: construction *)

Lemma distinct_all_equal {A : Type} (eqb : A -> A -> bool) (d : A) (l : list A) :
  eqb d d = true -> l <> [] -> (forall x, In x l -> x = d) ->
  distinct eqb l = [d].
Proof.
  intros Hr. induction l as [|a l IH]; intros Hn H; [contradiction|].
  assert (a = d) by (apply H; now left). subst a. cbn [distinct].
  destruct l as [|b l]; [reflexivity|].
  assert (b = d) by (apply H; right; now left). subst b.
  cbn [existsb]. rewrite Hr. cbn [orb]. apply IH; [discriminate|].
  intros x Hx. apply H. now right.
Qed.

Lemma distinct_all_equal_le {A : Type} (eqb : A -> A -> bool) (d : A) (l : list A) :
  eqb d d = true -> (forall x, In x l -> x = d) ->
  length (distinct eqb l) <= 1.
Proof.
  intros Hr H. destruct l as [|a l]; [cbn; lia|].
  rewrite (distinct_all_equal eqb d (a :: l) Hr); [cbn; lia|discriminate|exact H].
Qed.

Lemma In_somes {A : Type} (a : A) (l : list (option A)) :
  In a (somes l) <-> In (Some a) l.
Proof.
  induction l as [|[b|] l IH]; cbn; [tauto| |].
  - rewrite IH. split; intros [H|H]; auto; left; congruence.
  - rewrite IH. split; [auto|intros [H|H]; [discriminate|auto]].
Qed.

Section Agreement.
Context {X : Type}.
Variables (ixs : list (nat * X)) (comm : nat * X -> Comm).
Hypothesis Hw : well_indexed ixs.

(** [_find_dtype] returns the one dtype the ranks propose. *)
Lemma find_dtype_run {B : Type} (p : nat * X -> msg)
  (od : nat * X -> option dtype) (d : dtype)
  (k : nat * X -> dtype -> prog B) :
  (forall j ix, In ix ixs -> as_opt_dtype (deliver j (p ix)) = Some (od ix)) ->
  (exists ix, In ix ixs /\ od ix <> None) ->
  (forall ix, In ix ixs -> od ix <> None -> od ix = Some d) ->
  run (map (fun ix => bind (_find_dtype (p ix) (comm ix)) (k ix)) ixs)
  = run (map (fun ix => k ix d) ixs).
Proof.
  intros Hp Hne Hd. unfold _find_dtype. cbn [bind call].
  rewrite run_allgather by exact Hw.
  apply run_ext. intros ix Hin. unfold as_seq.
  rewrite (decode_all_map as_opt_dtype _ od) by (intros; now apply Hp).
  cbn [expect bind].
  rewrite (distinct_all_equal dtype_eqb d); [reflexivity|apply dtype_eqb_refl| |].
  - destruct Hne as [ix' [Hix' Hr]].
    destruct (od ix') as [d'|] eqn:E; [|contradiction].
    assert (Hs : In (Some d') (map od ixs))
      by (apply in_map_iff; now exists ix').
    apply In_somes in Hs. intros E'. rewrite E' in Hs. contradiction.
  - intros x Hx. apply In_somes, in_map_iff in Hx.
    destruct Hx as [ix' [E Hix']].
    assert (H := Hd ix' Hix'). rewrite E in H.
    assert (Some x = Some d) by (apply H; discriminate). congruence.
Qed.

(** [_find_cshape] returns the summed length and the agreed trailing shape. *)
Lemma find_cshape_run {B : Type} (sh : nat * X -> list nat) (ts : list nat)
  (k : nat * X -> list nat -> prog B) :
  (forall ix, In ix ixs -> tl (sh ix) = ts) ->
  run (map (fun ix => bind (_find_cshape (sh ix) (comm ix)) (k ix)) ixs)
  = run (map (fun ix =>
                k ix (fold_right Nat.add 0 (map (fun ix => hd 0 (sh ix)) ixs)
                      :: ts)) ixs).
Proof.
  intros Hts. unfold _find_cshape. cbn [bind call].
  rewrite run_allgather by exact Hw.
  erewrite run_ext.
  2:{ intros ix Hin. unfold as_seq.
      rewrite (decode_all_map as_shape _ sh)
        by (intros; rewrite deliver_shape; apply as_shape_shape_msg).
      cbn [expect bind].
      replace (Nat.ltb 1 _) with false; [reflexivity|].
      symmetry. apply Nat.ltb_ge.
      apply (distinct_all_equal_le _ ts); [apply list_eqb_nat_refl|].
      intros x Hx. rewrite map_map in Hx. apply in_map_iff in Hx.
      destruct Hx as [ix' [<- Hix']]. now apply Hts. }
  cbn [bind call].
  rewrite (run_allreduce_SUM ixs Hw _ (fun ix => nat_msg (hd 0 (sh ix)))
             (Z.of_nat (fold_right Nat.add 0 (map (fun ix => hd 0 (sh ix)) ixs)))).
  2:{ apply sum_msgs_nat. }
  apply run_ext. intros ix Hin.
  match goal with |- context [MInt (Z.of_nat ?n)] =>
    change (MInt (Z.of_nat n)) with (nat_msg n) end.
  rewrite as_nat_nat_msg. cbn [expect bind].
  now rewrite (Hts _ Hin).
Qed.
End Agreement.

Section Construction.
Context {X : Type}.
Variables (ixs : list (nat * X)) (loc : nat * X -> ndarray) (sz : nat * X -> nat).
Variables (d : dtype) (ts : list nat).
Hypothesis Hw : well_indexed ixs.
Hypothesis Hnonempty : exists ix, In ix ixs /\ rows (loc ix) <> [].
Hypothesis Hdtype :
  forall ix, In ix ixs -> rows (loc ix) <> [] -> arr_dtype (loc ix) = d.
Hypothesis Hshape : forall ix, In ix ixs -> tshape (loc ix) = ts.

Let locals := map loc ixs.
Let comm (ix : nat * X) : Comm := mk_Comm (fst ix) (sz ix).

Lemma find_dtype_locals {B : Type} (k : nat * X -> dtype -> prog B) :
  run (map (fun ix =>
              bind (_find_dtype
                      (if Nat.eqb (length (rows (loc ix))) 0 then MNone
                       else MDtype (arr_dtype (loc ix)))
                      (comm ix))
                (k ix)) ixs)
  = run (map (fun ix => k ix d) ixs).
Proof.
  apply (find_dtype_run ixs comm Hw _
           (fun ix => if Nat.eqb (length (rows (loc ix))) 0 then None
                      else Some (arr_dtype (loc ix)))).
  - intros j ix _. now destruct (Nat.eqb _ 0).
  - destruct Hnonempty as [ix [Hin Hr]]. exists ix. split; [exact Hin|].
    destruct (rows (loc ix)); [contradiction|discriminate].
  - intros ix Hin Hn. destruct (rows (loc ix)) eqn:E; [now elim Hn|].
    cbn. f_equal. apply Hdtype; [exact Hin|]. rewrite E. discriminate.
Qed.

Lemma sum_lengths_ixs :
  fold_right Nat.add 0 (map (fun ix : nat * X => hd 0 (shape (loc ix))) ixs)
  = total_length locals.
Proof.
  unfold total_length, lengths, locals. now rewrite map_map.
Qed.

Lemma find_cshape_locals {B : Type} (k : nat * X -> list nat -> prog B) :
  run (map (fun ix =>
              bind (_find_cshape (shape (loc ix)) (comm ix)) (k ix)) ixs)
  = run (map (fun ix => k ix (total_length locals :: ts)) ixs).
Proof.
  rewrite (find_cshape_run ixs comm Hw _ ts) by exact Hshape.
  now rewrite sum_lengths_ixs.
Qed.

Lemma offset_before_ixs (j : nat) :
  fold_right Nat.add 0
    (firstn j (map (fun ix : nat * X => length (rows (loc ix))) ixs))
  = offset_before j locals.
Proof.
  unfold offset_before, lengths, locals. now rewrite map_map.
Qed.

(** Construction succeeds on every rank when the non-empty ranks agree on
    the dtype and all the ranks on the trailing shape. *)
Lemma DistributedArray_init_run :
  run (map (fun ix => DistributedArray_init (loc ix) (comm ix)) ixs)
  = map (fun ix => Ok (constructed locals d ts (comm ix) (loc ix))) ixs.
Proof.
  unfold DistributedArray_init.
  rewrite find_dtype_locals, find_cshape_locals. cbn [bind call].
  rewrite run_allgather by exact Hw.
  rewrite <- run_ret. apply run_ext. intros ix Hin.
  unfold as_seq.
  rewrite (decode_all_map as_nat _
             (fun ix' : nat * X => length (rows (loc ix')))).
  2:{ intros ix' _. cbn [shape hd]. rewrite deliver_nat.
      apply as_nat_nat_msg. }
  cbn [expect bind rank comm]. rewrite offset_before_ixs. reflexivity.
Qed.

End Construction.

(** C9, as amended.  A rank whose local buffer is empty contributes no dtype
    constraint: when at least one rank holds a non-empty local array, all the
    non-empty ranks share the dtype [d], and all the ranks share the trailing
    shape [ts], then [DistributedArray(local, comm)] returns on every rank,
    with [dtype = d], whatever the dtypes of the empty buffers are. *)
Theorem DistributedArray_init_spec (locals : list ndarray) (d : dtype)
  (ts : list nat) :
  (exists a, In a locals /\ rows a <> []) ->
  (forall a, In a locals -> rows a <> [] -> arr_dtype a = d) ->
  (forall a, In a locals -> tshape a = ts) ->
  spmd (fun comm a => DistributedArray_init a comm) locals
  = map (fun ja => Ok (constructed locals d ts
                         (mk_Comm (fst ja) (length locals)) (snd ja)))
      (indexed locals).
Proof.
  intros Hne Hd Hs. unfold spmd.
  rewrite (DistributedArray_init_run (indexed locals) snd
             (fun _ => length locals) d ts).
  - now rewrite map_snd_indexed.
  - apply indexed_well_indexed.
  - destruct Hne as [a [Ha Hr]].
    rewrite <- (map_snd_indexed locals) in Ha. apply in_map_iff in Ha.
    destruct Ha as [ix [<- Hix]]. now exists ix.
  - intros ix Hin. apply Hd. rewrite <- (map_snd_indexed locals).
    now apply in_map.
  - intros ix Hin. apply Hs. rewrite <- (map_snd_indexed locals).
    now apply in_map.
Qed.

(** * DistributedArray.cempty *)

Lemma share_prefix_sum (L P r : nat) :
  0 < P -> fold_right Nat.add 0 (map (share L P) (seq 0 r)) = L * r / P.
Proof.
  intros HP. induction r as [|r IH].
  - cbn. rewrite Nat.mul_0_r. symmetry. apply Nat.Div0.div_0_l.
  - rewrite seq_S, map_app, fold_right_app. cbn [map fold_right plus].
    assert (E : forall l a, fold_right Nat.add a l = fold_right Nat.add 0 l + a).
    { induction l as [|x l IHl]; intros a; cbn; [reflexivity|].
      rewrite IHl. lia. }
    rewrite E, IH. unfold share. rewrite Nat.add_0_r.
    assert (L * r / P <= L * (r + 1) / P)
      by (apply Nat.Div0.div_le_mono; nia).
    replace (S r) with (r + 1) by lia. lia.
Qed.

Lemma share_floor_or_ceil (L P r : nat) :
  0 < P -> share L P r = L / P \/ share L P r = ceil_div L P.
Proof.
  intros HP. unfold share, ceil_div.
  assert (Ha := Nat.div_mod (L * r) P ltac:(lia)).
  assert (Hb := Nat.div_mod L P ltac:(lia)).
  assert (Hra := Nat.mod_upper_bound (L * r) P ltac:(lia)).
  assert (Hrb := Nat.mod_upper_bound L P ltac:(lia)).
  set (q := L * r / P) in *. set (s := (L * r) mod P) in *.
  set (q' := L / P) in *. set (s' := L mod P) in *.
  replace (L * (r + 1)) with ((q + q') * P + (s + s')) by nia.
  rewrite Nat.div_add_l by lia.
  destruct (Nat.eq_dec s' 0) as [Z|NZ].
  - left. rewrite Z, Nat.add_0_r, (Nat.div_small s) by lia. lia.
  - replace (L + P - 1) with ((q' + 1) * P + (s' - 1)) by nia.
    rewrite Nat.div_add_l, (Nat.div_small (s' - 1)) by lia.
    destruct (Nat.lt_ge_cases (s + s') P) as [Hlt|Hge].
    + left. rewrite (Nat.div_small (s + s')) by lia. lia.
    + right. replace (s + s') with (1 * P + (s + s' - P)) by lia.
      rewrite Nat.div_add_l, (Nat.div_small (s + s' - P)) by lia. lia.
Qed.

Lemma map_fst_indexed {X : Type} (xs : list X) :
  map fst (indexed xs) = seq 0 (length xs).
Proof.
  pose proof (indexed_well_indexed xs) as H. unfold well_indexed in H.
  now rewrite length_indexed in H.
Qed.

Lemma map_on_fst {X Y : Type} (f : nat -> Y) (xs : list X) :
  map (fun ix => f (fst ix)) (indexed xs) = map f (seq 0 (length xs)).
Proof. now rewrite <- map_fst_indexed, map_map. Qed.

Lemma length_rows_np_empty (n : nat) (ts : list nat) (d : dtype) :
  length (rows (np_empty n ts d)) = n.
Proof. apply repeat_length. Qed.

Section Cempty.
Variables (L P : nat) (ts : list nat) (d : dtype).
Hypothesis HL : 0 < L.
Hypothesis HP : 0 < P.

Let xs : list unit := repeat tt P.
Let ixs := indexed xs.
Let loc (ix : nat * unit) : ndarray := np_empty (share L P (fst ix)) ts d.

Lemma length_xs : length xs = P.
Proof. apply repeat_length. Qed.

Lemma shares_ixs :
  map (fun ix : nat * unit => share L P (fst ix)) ixs
  = map (share L P) (seq 0 P).
Proof.
  unfold ixs. rewrite (map_on_fst (share L P) xs). now rewrite length_xs.
Qed.

Lemma lengths_locals :
  lengths (map loc ixs) = map (share L P) (seq 0 P).
Proof.
  unfold lengths. rewrite map_map. rewrite <- shares_ixs.
  apply map_ext. intros ix. apply length_rows_np_empty.
Qed.

Lemma total_shares : fold_right Nat.add 0 (map (share L P) (seq 0 P)) = L.
Proof.
  rewrite share_prefix_sum by exact HP.
  rewrite Nat.div_mul by lia. reflexivity.
Qed.

Lemma cempty_run :
  spmd (fun comm (_ : unit) => cempty (L :: ts) (MDtype d) comm) xs
  = map (fun r => Ok (mk_DistributedArray (mk_Comm r P) d (L :: ts)
                        (np_empty (share L P r) ts d) (L * r / P)))
      (seq 0 P).
Proof.
  unfold spmd. fold ixs. rewrite length_xs. unfold cempty.
  rewrite (find_dtype_run ixs _ (indexed_well_indexed xs) _
             (fun _ => Some d) d).
  2:{ reflexivity. }
  2:{ destruct ixs as [|ix l] eqn:E.
      - apply (f_equal (@length _)) in E. unfold ixs in E.
        rewrite length_indexed, length_xs in E. cbn in E. lia.
      - exists ix. split; [now left|discriminate]. }
  2:{ reflexivity. }
  cbn [rank size].
  rewrite (find_cshape_run ixs _ (indexed_well_indexed xs) _ ts)
    by reflexivity.
  cbn [hd].
  change (fun ix0 : nat * unit => L * (fst ix0 + 1) / P - L * fst ix0 / P)
    with (fun ix0 : nat * unit => share L P (fst ix0)).
  rewrite shares_ixs, total_shares, list_eqb_nat_refl. cbn [negb].
  refine (eq_trans
            (DistributedArray_init_run ixs loc (fun _ => P) d ts _ _ _ _) _).
  5:{ replace (seq 0 P) with (seq 0 (length xs)) by (now rewrite length_xs).
    rewrite <- (map_on_fst _ xs). fold ixs.
    apply map_ext_in. intros ix Hin.
    unfold constructed, total_length, offset_before.
    rewrite lengths_locals, total_shares. cbn [rank].
    assert (Hr : fst ix < P).
    { assert (H : In (fst ix) (map fst ixs)) by now apply in_map.
      unfold ixs in H. rewrite map_fst_indexed, length_xs in H.
      apply in_seq in H. lia. }
    rewrite firstn_map, firstn_seq, Nat.min_l by lia.
    now rewrite share_prefix_sum. }
  - apply indexed_well_indexed.
  - assert (Hs := total_shares). rewrite <- shares_ixs in Hs.
    clear -Hs HL. induction ixs as [|ix l IH].
    + cbn in Hs. lia.
    + cbn [map fold_right] in Hs.
      destruct (share L P (fst ix)) eqn:E.
      * destruct IH as [ix' [Hin Hr]]; [exact Hs|].
        exists ix'. split; [now right|exact Hr].
      * exists ix. split; [now left|]. unfold loc. cbn [rows np_empty].
        rewrite E. discriminate.
  - reflexivity.
  - reflexivity.
Qed.
End Cempty.

(** C7, as amended.  For a global length [L >= 1] on [P >= 1] ranks,
    [cempty] returns on every rank; rank [r] holds
    [L*(r+1)//P - L*r//P] rows, which is [floor(L/P)] or [ceil(L/P)]; the
    local lengths sum to [L], and the rows of the ranks below [r] number
    [L*r//P].  Which ranks hold the longer share follows from that formula:
    they are not the lowest-numbered ones. *)
Theorem cempty_partition (L P : nat) (ts : list nat) (d : dtype) :
  0 < L -> 0 < P ->
  spmd (fun comm (_ : unit) => cempty (L :: ts) (MDtype d) comm) (repeat tt P)
  = map (fun r => Ok (mk_DistributedArray (mk_Comm r P) d (L :: ts)
                        (np_empty (share L P r) ts d) (L * r / P)))
      (seq 0 P)
  /\ (forall r, share L P r = L / P \/ share L P r = ceil_div L P)
  /\ fold_right Nat.add 0 (map (share L P) (seq 0 P)) = L.
Proof.
  intros HL HP. split; [now apply cempty_run|]. split.
  - intros r. now apply share_floor_or_ceil.
  - now apply total_shares.
Qed.

(** * FrontPadArray *)

(** Decide the comparisons of a goal, innermost first. *)
Ltac clamp_cases :=
  repeat match goal with
         | |- context [(?x <? ?y)%Z] =>
             lazymatch x with
             | context [Z.ltb] => fail
             | _ =>
                 lazymatch y with
                 | context [Z.ltb] => fail
                 | _ => destruct (Z.ltb_spec x y)
                 end
             end
         end.

Lemma plan_from_eq (a mystart front : Z) (N : list Z) :
  zip_with (fun on n => clamp front n (on - mystart))
    (zip_with Z.add (removelast (a :: cumsum_from a N)) N) N
  = plan_from a N mystart front.
Proof.
  revert a; induction N as [|n N IH]; intros a; [reflexivity|].
  cbn [cumsum_from plan_from].
  change (removelast (a :: (a + n)%Z :: cumsum_from (a + n) N))
    with (a :: removelast ((a + n)%Z :: cumsum_from (a + n) N)).
  cbn [zip_with]. now rewrite IH.
Qed.

Lemma torecv_plan_eq (N : list Z) (j : nat) (front : Z) :
  torecv_plan N j front
  = plan_from 0 N (nth j (cumsum (0%Z :: N)) 0%Z - front) front.
Proof.
  unfold torecv_plan, cumsum. cbn [cumsum_from].
  change (0 + 0)%Z with 0%Z. apply plan_from_eq.
Qed.

Lemma nth_cumsum_from (a : Z) (N : list Z) (j : nat) :
  j <= length N ->
  nth j (a :: cumsum_from a N) 0%Z = (a + sum_Z (firstn j N))%Z.
Proof.
  revert a j; induction N as [|n N IH]; intros a [|j] H; cbn in H;
    try (cbn; lia).
  change (nth (S j) (a :: cumsum_from a (n :: N)) 0%Z)
    with (nth j ((a + n)%Z :: cumsum_from (a + n) N) 0%Z).
  rewrite IH by lia. cbn [firstn]. unfold sum_Z. cbn [fold_right]. lia.
Qed.

Lemma length_plan_from (a : Z) (N : list Z) (m f : Z) :
  length (plan_from a N m f) = length N.
Proof.
  revert a; induction N as [|n N IH]; intros a; cbn; [reflexivity|].
  now rewrite IH.
Qed.

Lemma plan_from_app (a : Z) (N M : list Z) (m f : Z) :
  plan_from a (N ++ M) m f
  = plan_from a N m f ++ plan_from (a + sum_Z N) M m f.
Proof.
  revert a; induction N as [|n N IH]; intros a; cbn [app plan_from sum_Z fold_right].
  - now rewrite Z.add_0_r.
  - rewrite IH. do 3 f_equal. unfold sum_Z. lia.
Qed.

Lemma sum_Z_cons (x : Z) (l : list Z) : sum_Z (x :: l) = (x + sum_Z l)%Z.
Proof. reflexivity. Qed.

Lemma sum_Z_app (l m : list Z) : sum_Z (l ++ m) = (sum_Z l + sum_Z m)%Z.
Proof.
  unfold sum_Z. induction l as [|x l IH]; cbn; [reflexivity|]. rewrite IH. lia.
Qed.

Lemma sum_Z_nonneg (l : list Z) : Forall (fun x => 0 <= x)%Z l -> (0 <= sum_Z l)%Z.
Proof.
  unfold sum_Z. induction 1; cbn; lia.
Qed.

(** The ranks before the asking rank: from each the part of it that lies in
    the window. *)
Lemma plan_before_sum (N : list Z) (a f : Z) :
  Forall (fun x => 0 <= x)%Z N -> (0 <= f)%Z ->
  sum_Z (plan_from a N (a + sum_Z N - f) f) = Z.min f (sum_Z N).
Proof.
  intros HN Hf. revert a; induction HN as [|n N Hn HN IH]; intros a.
  - cbn. lia.
  - cbn [plan_from]. rewrite !sum_Z_cons.
    replace (a + (n + sum_Z N) - f)%Z with ((a + n) + sum_Z N - f)%Z by lia.
    rewrite IH. pose proof (sum_Z_nonneg _ HN) as Hs. unfold clamp.
    clamp_cases; lia.
Qed.

(** The asking rank and the ranks after it: nothing. *)
Lemma plan_after_zero (N : list Z) (a m f : Z) :
  Forall (fun x => 0 <= x)%Z N -> (0 <= f)%Z -> (m + f <= a)%Z ->
  plan_from a N m f = map (fun _ => 0%Z) N.
Proof.
  intros HN Hf. revert a; induction HN as [|n N Hn HN IH]; intros a Ha;
    [reflexivity|].
  cbn [plan_from map]. rewrite IH by lia. f_equal. unfold clamp.
  clamp_cases; lia.
Qed.

(** A negative request: nothing from anyone. *)
Lemma plan_negative (N : list Z) (a m f : Z) :
  Forall (fun x => 0 <= x)%Z N -> (f < 0)%Z ->
  plan_from a N m f = map (fun _ => 0%Z) N.
Proof.
  intros HN Hf. revert a; induction HN as [|n N Hn HN IH]; intros a;
    [reflexivity|].
  cbn [plan_from map]. rewrite IH. f_equal. unfold clamp.
  clamp_cases; lia.
Qed.

Lemma sum_Z_zeros {X : Type} (l : list X) : sum_Z (map (fun _ => 0%Z) l) = 0%Z.
Proof. unfold sum_Z. induction l; cbn; lia. Qed.

Lemma zip_with_app {A B C : Type} (f : A -> B -> C) (l1 l2 : list A)
  (m1 m2 : list B) :
  length l1 = length m1 ->
  zip_with f (l1 ++ l2) (m1 ++ m2) = zip_with f l1 m1 ++ zip_with f l2 m2.
Proof.
  revert m1; induction l1 as [|a l1 IH]; intros [|b m1] H; cbn in *;
    try discriminate; [reflexivity|]. f_equal. apply IH. lia.
Qed.

Lemma last_rows_app {A : Type} (k : nat) (c R : list A) :
  last_rows k (c ++ R)
  = if Nat.leb k (length R) then last_rows k R
    else last_rows (k - length R) c ++ R.
Proof.
  unfold last_rows. rewrite length_app, skipn_app.
  destruct (Nat.leb_spec k (length R)).
  - rewrite skipn_all2 by lia. cbn [app]. f_equal. lia.
  - replace (length c + length R - k - length c) with 0 by lia.
    cbn [skipn]. do 2 f_equal. lia.
Qed.

Lemma lenZ_nonneg (l : list ndarray) : Forall (fun x => 0 <= x)%Z (map lenZ l).
Proof. apply Forall_forall. intros x Hx. apply in_map_iff in Hx.
       destruct Hx as [a [<- _]]. unfold lenZ. lia. Qed.

Lemma sum_lenZ (l : list ndarray) :
  sum_Z (map lenZ l) = Z.of_nat (length (concat (map rows l))).
Proof.
  induction l as [|a l IH]; [reflexivity|].
  cbn [map concat]. rewrite sum_Z_cons, length_app, IH. unfold lenZ. lia.
Qed.

(** From the ranks before the asking rank come the last [f] rows that
    precede it. *)
Lemma pieces_before (pre : list ndarray) (a f : Z) :
  (0 <= f)%Z ->
  concat (zip_with (fun x t => rows (tail_slice x t)) pre
            (plan_from a (map lenZ pre) (a + sum_Z (map lenZ pre) - f) f))
  = last_rows (Z.to_nat f) (concat (map rows pre)).
Proof.
  intros Hf. revert a; induction pre as [|c pre IH]; intros a; [reflexivity|].
  cbn [map plan_from zip_with concat]. rewrite sum_Z_cons.
  replace (a + (lenZ c + sum_Z (map lenZ pre)) - f)%Z
    with ((a + lenZ c) + sum_Z (map lenZ pre) - f)%Z by lia.
  rewrite IH, last_rows_app. rewrite sum_lenZ.
  set (R := concat (map rows pre)).
  unfold tail_slice, clamp, lenZ. cbn [rows].
  destruct (Nat.leb_spec (Z.to_nat f) (length R)).
  - clamp_cases; try lia; reflexivity.
  - f_equal.
    + clamp_cases; try lia; unfold last_rows;
        solve [ f_equal; lia | rewrite skipn_all2 by lia; reflexivity ].
    + unfold last_rows. replace (length R - Z.to_nat f) with 0 by lia.
      reflexivity.
Qed.

Lemma pieces_zero (post : list ndarray) :
  concat (zip_with (fun x t => rows (tail_slice x t)) post
            (map (fun _ => 0%Z) (map lenZ post)))
  = [].
Proof.
  induction post as [|c post IH]; [reflexivity|].
  cbn [map zip_with concat]. now rewrite IH.
Qed.

Lemma map_nth_from {X Y W : Type} (g : nat * X -> Y -> W) (dflt : Y) :
  forall (ixs : list (nat * X)) (l : list Y) (s : nat),
    map fst ixs = seq s (length ixs) -> length l = length ixs ->
    map (fun ix => g ix (nth (fst ix - s) l dflt)) ixs = zip_with g ixs l.
Proof.
  induction ixs as [|ix ixs IH]; intros [|y l] s Hw Hl; cbn in Hl;
    try discriminate; [reflexivity|].
  cbn [map length seq] in Hw. injection Hw as Hix Hw.
  cbn [map zip_with]. rewrite Hix, Nat.sub_diag. cbn [nth]. f_equal.
  rewrite <- (IH l (S s) Hw) by lia.
  apply map_ext_in. intros ix' Hin.
  assert (H : In (fst ix') (map fst ixs)) by now apply in_map.
  rewrite Hw in H. apply in_seq in H.
  replace (fst ix' - s) with (S (fst ix' - S s)) by lia. reflexivity.
Qed.

Lemma map_nth_indexed {X Y W : Type} (g : nat * X -> Y -> W) (dflt : Y)
  (ixs : list (nat * X)) (l : list Y) :
  well_indexed ixs -> length l = length ixs ->
  map (fun ix => g ix (nth (fst ix) l dflt)) ixs = zip_with g ixs l.
Proof.
  intros Hw Hl. rewrite <- (map_nth_from g dflt ixs l 0 Hw Hl).
  apply map_ext. intros ix. now rewrite Nat.sub_0_r.
Qed.

Lemma zip_with_map_l {A B C X : Type} (f : A -> B -> C) (g : X -> A)
  (l : list X) (m : list B) :
  zip_with f (map g l) m = zip_with (fun x b => f (g x) b) l m.
Proof.
  revert m; induction l as [|x l IH]; intros [|b m]; cbn; try reflexivity.
  now rewrite IH.
Qed.

Lemma well_indexed_bound {X : Type} (ixs : list (nat * X)) (ix : nat * X) :
  well_indexed ixs -> In ix ixs -> fst ix < length ixs.
Proof.
  intros Hw Hin. assert (H : In (fst ix) (map fst ixs)) by now apply in_map.
  rewrite Hw in H. apply in_seq in H. lia.
Qed.

Lemma nth_map_In {X Y : Type} (g : X -> Y) (l : list X) (j : nat) (x : X)
  (dflt : Y) :
  nth_error l j = Some x -> nth j (map g l) dflt = g x.
Proof.
  intros H. apply nth_error_nth. now rewrite nth_error_map, H.
Qed.

Lemma nth_MInt (j : nat) (l : list Z) :
  j < length l -> nth j (map MInt l) MNone = MInt (nth j l 0%Z).
Proof.
  intros H. rewrite (nth_indep _ MNone (MInt 0)) by now rewrite length_map.
  apply map_nth.
Qed.

(** [numpy.concatenate] of arrays of one dtype and trailing shape. *)
Lemma np_concatenate_same (d : dtype) (ts : list nat) (l : list ndarray)
  (a : ndarray) :
  (forall x, In x (l ++ [a]) -> arr_dtype x = d /\ tshape x = ts) ->
  np_concatenate (l ++ [a])
  = Some (mk_ndarray d ts (concat (map rows l) ++ rows a)).
Proof.
  induction l as [|b l IH]; intros H.
  - cbn. destruct (H a (or_introl eq_refl)) as [<- <-]. now destruct a.
  - cbn [app np_concatenate]. cbn [app] in H.
    destruct (l ++ [a]) as [|c l'] eqn:E; [destruct l; discriminate|].
    rewrite IH by (intros x Hx; apply H; now right).
    cbn [arr_dtype tshape rows].
    destruct (H b (or_introl eq_refl)) as [-> ->].
    rewrite dtype_eqb_refl, list_eqb_nat_refl. cbn [andb map concat].
    now rewrite app_assoc.
Qed.

Section FrontPad.
Variables (inputs : list (ndarray * Z)) (d : dtype) (ts : list nat).
Hypothesis Hsame :
  forall x, In x inputs -> arr_dtype (fst x) = d /\ tshape (fst x) = ts.

Let ixs := indexed inputs.
Let locals := map fst inputs.
Let arr (ix : nat * (ndarray * Z)) : ndarray := fst (snd ix).
Let front (ix : nat * (ndarray * Z)) : Z := snd (snd ix).
Let N : list Z := map lenZ locals.
Let plan (ix : nat * (ndarray * Z)) : list Z :=
  torecv_plan N (fst ix) (front ix).

Lemma Hw_ixs : well_indexed ixs.
Proof. apply indexed_well_indexed. Qed.

Lemma N_ixs : map (fun ix => lenZ (arr ix)) ixs = N.
Proof.
  unfold N, locals. rewrite <- (map_snd_indexed inputs) at 1.
  now rewrite !map_map.
Qed.

Lemma length_N : length N = length ixs.
Proof. unfold N, locals, ixs. now rewrite !length_map, length_indexed. Qed.

Lemma length_plan (ix : nat * (ndarray * Z)) : length (plan ix) = length ixs.
Proof.
  unfold plan. now rewrite torecv_plan_eq, length_plan_from, length_N.
Qed.

Lemma offset_sum (j : nat) :
  sum_Z (map lenZ (firstn j locals)) = Z.of_nat (offset_before j locals).
Proof.
  unfold offset_before, lengths. rewrite firstn_map.
  induction (firstn j locals) as [|a l IH]; [reflexivity|].
  cbn [map fold_right]. rewrite sum_Z_cons, IH. unfold lenZ. lia.
Qed.

Lemma plan_split (j : nat) (f : Z) :
  j <= length locals -> (0 <= f)%Z ->
  torecv_plan N j f
  = plan_from 0 (map lenZ (firstn j locals))
      (0 + sum_Z (map lenZ (firstn j locals)) - f) f
    ++ map (fun _ => 0%Z) (map lenZ (skipn j locals)).
Proof.
  intros Hj Hf. rewrite torecv_plan_eq. unfold cumsum.
  cbn [cumsum_from]. change (0 + 0)%Z with 0%Z.
  rewrite nth_cumsum_from by (unfold N; now rewrite length_map).
  unfold N. rewrite <- (firstn_skipn j locals) at 1.
  rewrite map_app, plan_from_app, firstn_map. f_equal.
  apply plan_after_zero; [apply lenZ_nonneg|exact Hf|lia].
Qed.

Lemma plan_sum_feasible (j : nat) (f : Z) :
  j <= length locals ->
  (sum_Z (torecv_plan N j f) =? f)%Z = true <-> feasible locals j f.
Proof.
  intros Hj. unfold feasible. rewrite Z.eqb_eq.
  destruct (Z.lt_ge_cases f 0) as [Hneg|Hf].
  - rewrite torecv_plan_eq, plan_negative, sum_Z_zeros;
      [lia|apply lenZ_nonneg|exact Hneg].
  - rewrite plan_split, sum_Z_app, sum_Z_zeros by assumption.
    rewrite plan_before_sum by (try apply lenZ_nonneg; exact Hf).
    rewrite offset_sum. lia.
Qed.

Lemma In_ixs_bound (ix : nat * (ndarray * Z)) :
  In ix ixs -> fst ix < length locals.
Proof.
  intros Hin. pose proof (well_indexed_bound _ _ Hw_ixs Hin) as H.
  unfold ixs in H. rewrite length_indexed in H.
  unfold locals. now rewrite length_map.
Qed.

(** The rows the plan of a feasible request brings together. *)
Lemma pieces_feasible (j : nat) (f : Z) :
  j <= length locals -> feasible locals j f ->
  concat (zip_with (fun x t => rows (tail_slice x t)) locals
            (torecv_plan N j f))
  = global_slice locals (offset_before j locals - Z.to_nat f) (Z.to_nat f).
Proof.
  intros Hj [Hf Hle]. rewrite plan_split by assumption.
  rewrite <- (firstn_skipn j locals) at 1.
  rewrite zip_with_app
    by (now rewrite length_plan_from, length_map).
  rewrite concat_app, pieces_before, pieces_zero, app_nil_r by exact Hf.
  unfold global_slice, global_rows, last_rows.
  assert (Hl : length (concat (map rows (firstn j locals)))
               = offset_before j locals).
  { apply Nat2Z.inj. rewrite <- sum_lenZ. apply offset_sum. }
  set (off := offset_before j locals) in *.
  replace (concat (map rows locals))
    with (concat (map rows (firstn j locals))
          ++ concat (map rows (skipn j locals)))
    by (now rewrite <- concat_app, <- map_app, firstn_skipn).
  set (G1 := concat (map rows (firstn j locals))) in *.
  rewrite Hl, skipn_app, Hl.
  replace (off - Z.to_nat f - off) with 0 by lia.
  cbn [skipn]. rewrite firstn_app, length_skipn, Hl.
  replace (Z.to_nat f - (off - (off - Z.to_nat f))) with 0 by lia.
  cbn [firstn]. rewrite app_nil_r. symmetry. apply firstn_all2.
  rewrite length_skipn, Hl. lia.
Qed.

Let bad : bool :=
  existsb truthy
    (map (fun ix => MBool (negb (sum_Z (plan ix) =? front ix)%Z)) ixs).

Lemma bad_true : bad = true <->
  exists ix, In ix ixs /\ ~ feasible locals (fst ix) (front ix).
Proof.
  unfold bad. rewrite existsb_exists. split.
  - intros [m [Hm Ht]]. apply in_map_iff in Hm.
    destruct Hm as [ix [<- Hin]]. exists ix. split; [exact Hin|].
    cbn [truthy] in Ht. apply negb_true_iff in Ht. intros Hf.
    apply (plan_sum_feasible (fst ix) (front ix)) in Hf;
      [|apply Nat.lt_le_incl, In_ixs_bound, Hin].
    unfold plan in Ht. congruence.
  - intros [ix [Hin Hnf]]. eexists. split.
    + apply in_map_iff. exists ix. split; [reflexivity|exact Hin].
    + cbn [truthy]. apply negb_true_iff.
      destruct (sum_Z (plan ix) =? front ix)%Z eqn:E; [|reflexivity].
      elim Hnf. apply plan_sum_feasible;
        [apply Nat.lt_le_incl, In_ixs_bound, Hin|exact E].
Qed.

Lemma bad_false : bad = false ->
  forall ix, In ix ixs -> feasible locals (fst ix) (front ix).
Proof.
  intros Hb ix Hin.
  apply plan_sum_feasible; [apply Nat.lt_le_incl, In_ixs_bound, Hin|].
  destruct (sum_Z (torecv_plan N (fst ix) (front ix)) =? front ix)%Z eqn:E;
    [reflexivity|].
  assert (bad = true); [|congruence].
  unfold bad. apply existsb_exists. eexists. split.
  - apply in_map_iff. exists ix. split; [reflexivity|exact Hin].
  - cbn [truthy]. unfold plan. now rewrite E.
Qed.

Ltac frontpad_prefix :=
  unfold spmd; fold ixs; unfold FrontPadArray; cbn [bind call rank];
  rewrite run_allgather by exact Hw_ixs;
  erewrite run_ext;
  [|intros ix Hin; unfold as_seq;
    rewrite (decode_all_map as_int _ (fun ix' => lenZ (arr ix')))
      by reflexivity;
    rewrite N_ixs; cbn [expect bind]; fold (front ix) (plan ix);
    reflexivity];
  rewrite run_allreduce_LOR by exact Hw_ixs; fold bad; cbn [truthy].

(** One infeasible request: every rank raises. *)
Lemma FrontPadArray_infeasible :
  (exists ix, In ix ixs /\ ~ feasible locals (fst ix) (front ix)) ->
  spmd (fun comm x => FrontPadArray (fst x) (snd x) comm) inputs
  = map (fun _ => Raised padding_infeasible) ixs.
Proof.
  intros H. apply bad_true in H. frontpad_prefix. rewrite H.
  apply run_raise.
Qed.

Lemma locals_ixs : map arr ixs = locals.
Proof.
  unfold locals. rewrite <- (map_snd_indexed inputs) at 1.
  now rewrite map_map.
Qed.

Lemma In_ixs_input (ix : nat * (ndarray * Z)) : In ix ixs -> In (snd ix) inputs.
Proof.
  intros H. rewrite <- (map_snd_indexed inputs). now apply in_map.
Qed.

(** Every request feasible: every rank gets its padded array. *)
Lemma FrontPadArray_feasible :
  (forall ix, In ix ixs -> feasible locals (fst ix) (front ix)) ->
  spmd (fun comm x => FrontPadArray (fst x) (snd x) comm) inputs
  = map (fun ix => Ok (padded locals d ts (fst ix) (arr ix) (front ix))) ixs.
Proof.
  intros Hf.
  assert (Hb : bad = false).
  { destruct bad eqn:E; [|reflexivity]. apply bad_true in E.
    destruct E as [ix [Hin Hn]]. elim Hn. now apply Hf. }
  frontpad_prefix. rewrite Hb.
  rewrite run_alltoall; [|exact Hw_ixs|].
  2:{ intros ix Hin. now rewrite length_map, length_plan. }
  erewrite run_ext.
  2:{ intros ix Hin.
      rewrite (decode_all_map as_int _
                 (fun ix' : nat * (ndarray * Z) => nth (fst ix) (plan ix') 0%Z)).
      2:{ intros ix' Hin'. rewrite nth_MInt; [reflexivity|].
          rewrite length_plan. exact (well_indexed_bound _ _ Hw_ixs Hin). }
      cbn [expect bind]. rewrite map_map. reflexivity. }
  rewrite run_alltoall; [|exact Hw_ixs|].
  2:{ intros ix Hin. now rewrite length_map. }
  rewrite <- run_ret. apply run_ext. intros ix Hin.
  rewrite (decode_all_map as_array _
             (fun ix' : nat * (ndarray * Z) =>
                tail_slice (arr ix') (nth (fst ix') (plan ix) 0%Z))).
  2:{ intros ix' Hin'.
      rewrite (nth_map_In _ ixs (fst ix) ix)
        by (exact (well_indexed_In _ _ Hw_ixs Hin)). reflexivity. }
  cbn [expect bind].
  rewrite (np_concatenate_same d ts).
  2:{ intros x Hx. apply in_app_iff in Hx. destruct Hx as [Hx|[<-|[]]].
      - apply in_map_iff in Hx. destruct Hx as [ix' [<- Hin']].
        cbn [tail_slice arr_dtype tshape].
        apply Hsame, In_ixs_input, Hin'.
      - apply Hsame, In_ixs_input, Hin. }
  unfold padded. do 3 f_equal.
  rewrite map_map.
  rewrite (map_nth_indexed
             (fun ix' t => rows (tail_slice (arr ix') t)) 0%Z ixs (plan ix))
    by (try exact Hw_ixs; apply length_plan).
  rewrite <- (zip_with_map_l (fun x t => rows (tail_slice x t)) arr).
  rewrite locals_ixs. apply pieces_feasible.
  - apply Nat.lt_le_incl, In_ixs_bound, Hin.
  - now apply Hf.
Qed.
End FrontPad.

(** C6.  For arrays that are the local parts of one striped array (one
    dtype, one trailing shape), [FrontPadArray] does one of two things, the
    same on every rank.  Either every rank asks for no more rows than
    precede it, and every rank returns [front + len(local)] rows: the
    [front] rows that precede its offset in global order, then its own rows.
    Or some rank asks for more rows than precede it (or for a negative
    number), and every rank raises the same [ValueError]; no rank is left
    blocked. *)
Theorem FrontPadArray_spec (inputs : list (ndarray * Z)) (d : dtype)
  (ts : list nat) :
  (forall x, In x inputs -> arr_dtype (fst x) = d /\ tshape (fst x) = ts) ->
  let locals := map fst inputs in
  let outcomes :=
    spmd (fun comm x => FrontPadArray (fst x) (snd x) comm) inputs in
  ((forall ix, In ix (indexed inputs) ->
      feasible locals (fst ix) (snd (snd ix)))
   /\ outcomes
      = map (fun ix => Ok (padded locals d ts (fst ix) (fst (snd ix))
                             (snd (snd ix))))
          (indexed inputs)
   /\ forall ix, In ix (indexed inputs) ->
        length (rows (padded locals d ts (fst ix) (fst (snd ix))
                        (snd (snd ix))))
        = Z.to_nat (snd (snd ix)) + length (rows (fst (snd ix))))
  \/
  ((exists ix, In ix (indexed inputs)
               /\ ~ feasible locals (fst ix) (snd (snd ix)))
   /\ outcomes = map (fun _ => Raised padding_infeasible) inputs).
Proof.
  intros Hsame locals outcomes.
  destruct (existsb truthy
              (map (fun ix : nat * (ndarray * Z) =>
                      MBool (negb (sum_Z (torecv_plan (map lenZ locals)
                                            (fst ix) (snd (snd ix)))
                                   =? snd (snd ix))%Z))
                 (indexed inputs))) eqn:E.
  - right. apply (bad_true inputs) in E. split; [exact E|].
    unfold outcomes. rewrite (FrontPadArray_infeasible inputs) by exact E.
    rewrite <- (map_snd_indexed inputs) at 2. now rewrite map_map.
  - left. pose proof (bad_false inputs E) as Hf. split; [exact Hf|]. split.
    + now apply FrontPadArray_feasible.
    + intros ix Hin. unfold padded, global_slice. cbn [rows].
      rewrite length_app, length_firstn, length_skipn. f_equal.
      destruct (Hf ix Hin) as [H0 Hle].
      assert (Hg : offset_before (fst ix) locals
                   <= length (global_rows locals)).
      { unfold offset_before, global_rows, lengths.
        rewrite firstn_map.
        rewrite <- (firstn_skipn (fst ix) locals) at 2.
        rewrite map_app, concat_app, length_app.
        clear. induction (firstn (fst ix) locals) as [|a l IH]; cbn; [lia|].
        rewrite length_app. lia. }
      unfold locals in *. lia.
Qed.

(** * GatherArray and ScatterArray *)

Lemma offsets_from_removelast (a : Z) (N : list Z) :
  removelast (a :: cumsum_from a N) = offsets_from a N.
Proof.
  revert a; induction N as [|n N IH]; intros a; [reflexivity|].
  cbn [cumsum_from offsets_from].
  change (removelast (a :: (a + n)%Z :: cumsum_from (a + n) N))
    with (a :: removelast ((a + n)%Z :: cumsum_from (a + n) N)).
  now rewrite IH.
Qed.

Lemma offsets_of_from (counts : list Z) :
  offsets_of counts = offsets_from 0 counts.
Proof.
  destruct counts as [|c counts]; [reflexivity|].
  unfold offsets_of, cumsum. cbn [cumsum_from offsets_from]. f_equal.
  apply offsets_from_removelast.
Qed.

Lemma place_middle (pre blk junk : list row) :
  length blk <= length junk ->
  place (pre ++ junk) (length pre) blk = pre ++ blk ++ skipn (length blk) junk.
Proof.
  intros H. unfold place.
  rewrite firstn_app, firstn_all, Nat.sub_diag, skipn_app. cbn [firstn].
  rewrite app_nil_r, skipn_all2 by lia. cbn [app].
  do 3 f_equal. lia.
Qed.

(** The blocks of the ranks, gathered at consecutive offsets, fill the
    receive buffer in rank order. *)
Lemma gather_into_concat (isz : nat) (sends : list buf) :
  forall pre junk,
    Forall (fun s => buf_itemsize s = isz) sends ->
    length junk = length (concat (map records sends)) ->
    gather_into isz (pre ++ junk) sends
      (map (fun s => Z.of_nat (length (records s))) sends)
      (offsets_from (Z.of_nat (length pre))
         (map (fun s => Z.of_nat (length (records s))) sends))
    = Some (pre ++ concat (map records sends)).
Proof.
  induction sends as [|s sends IH]; intros pre junk Hi Hl.
  - cbn in Hl |- *. apply length_zero_iff_nil in Hl. now subst junk.
  - cbn [map concat] in Hl. rewrite length_app in Hl.
    cbn [map offsets_from gather_into]. unfold recv_block.
    pose proof (Forall_inv Hi) as Hs. cbn beta in Hs.
    replace ((Z.of_nat (length (records s)) <? 0)%Z) with false
      by (symmetry; apply Z.ltb_ge; lia).
    replace ((Z.of_nat (length pre) <? 0)%Z) with false
      by (symmetry; apply Z.ltb_ge; lia).
    replace ((Z.of_nat (length (pre ++ junk))
              <? Z.of_nat (length pre) + Z.of_nat (length (records s)))%Z)
      with false
      by (symmetry; apply Z.ltb_ge; rewrite length_app; lia).
    rewrite !Nat2Z.id, Hs, Nat.ltb_irrefl, Nat.eqb_refl. cbn [orb].
    rewrite place_middle by lia.
    replace (Z.of_nat (length pre) + Z.of_nat (length (records s)))%Z
      with (Z.of_nat (length (pre ++ records s)))
      by (rewrite length_app; lia).
    rewrite app_assoc.
    rewrite IH.
    + cbn [map concat]. now rewrite <- app_assoc.
    + now apply Forall_inv_tail in Hi.
    + rewrite length_skipn. lia.
Qed.

Lemma gather_reply_concat (isz total : nat) (fill : row) (sends : list buf) :
  Forall (fun s => buf_itemsize s = isz) sends ->
  total = length (concat (map records sends)) ->
  gather_reply (mk_buf isz (repeat fill total)) sends
    (map (fun s => Z.of_nat (length (records s))) sends)
    (offsets_of (map (fun s => Z.of_nat (length (records s))) sends))
  = RMsg (MBuffer (concat (map records sends))).
Proof.
  intros Hi Ht. unfold gather_reply. cbn [buf_itemsize records].
  rewrite offsets_of_from.
  pose proof (gather_into_concat isz sends [] (repeat fill total) Hi) as H.
  cbn [app length] in H. change (Z.of_nat 0) with 0%Z in H.
  rewrite H; [reflexivity|]. now rewrite repeat_length.
Qed.

Lemma length_concat_sum {A X : Type} (f : X -> list A) (l : list X) :
  length (concat (map f l)) = fold_right Nat.add 0 (map (fun x => length (f x)) l).
Proof.
  induction l as [|x l IH]; [reflexivity|].
  cbn [map concat fold_right]. now rewrite length_app, IH.
Qed.

Lemma existsb_map_false {X Y : Type} (p : Y -> bool) (f : X -> Y) (l : list X) :
  (forall x, In x l -> p (f x) = false) -> existsb p (map f l) = false.
Proof.
  intros H. induction l as [|x l IH]; [reflexivity|].
  cbn [map existsb]. rewrite H by now left. apply IH.
  intros y Hy. apply H. now right.
Qed.


(** ** Structured dtypes *)

Lemma GatherArray_nd_struct (fs : list (string * dtype)) (ts : list nat)
  (rs : list row) (comm : Comm) (root : root_t) :
  GatherArray_nd (DStruct fs) ts rs comm root
  = GatherArray_body
      (map (fun nd => (fst nd,
                       GatherArray_nd (snd nd) ts
                         (map (map (get_field (fst nd))) rs) comm root)) fs)
      (mk_ndarray (DStruct fs) ts rs) comm root.
Proof.
  cbn [GatherArray_nd]. f_equal.
  induction fs as [|[nm d'] fs IH]; [reflexivity|].
  cbn [map fst snd]. f_equal. exact IH.
Qed.

Lemma uninit_struct (fs : list (string * dtype)) :
  uninit (DStruct fs) = ERec (map (fun nd => (fst nd, uninit (snd nd))) fs).
Proof.
  cbn [uninit]. f_equal.
  induction fs as [|[nm d'] fs IH]; [reflexivity|].
  cbn [map fst snd]. f_equal. exact IH.
Qed.

Lemma transmissible_struct (fs : list (string * dtype)) :
  transmissible (DStruct fs)
  <-> NoDup (map fst fs) /\ Forall (fun nd => transmissible (snd nd)) fs.
Proof.
  cbn [transmissible].
  assert (H : (fix go (fs : list (string * dtype)) : Prop :=
                 match fs with
                 | [] => True
                 | (_, d') :: fs' => transmissible d' /\ go fs'
                 end) fs
              <-> Forall (fun nd => transmissible (snd nd)) fs).
  { induction fs as [|[nm d'] fs IH].
    - split; [constructor|trivial].
    - rewrite IH. split.
      + intros [H1 H2]. now constructor.
      + intros H. inversion H; subst. now split. }
  now rewrite H.
Qed.

Lemma has_dtype_struct (fs : list (string * dtype)) (e : elem) :
  has_dtype (DStruct fs) e
  <-> exists vs, e = ERec vs
                 /\ Forall2 (fun nd mv => fst nd = fst mv
                                          /\ has_dtype (snd nd) (snd mv)) fs vs.
Proof.
  cbn [has_dtype]. destruct e as [z|vs|].
  - split; [contradiction|]. intros [vs [E _]]. discriminate.
  - assert (H : (fix go (fs : list (string * dtype)) (vs : list (string * elem))
                   : Prop :=
                   match fs, vs with
                   | [], [] => True
                   | (n, d') :: fs', (m, v) :: vs' =>
                       n = m /\ has_dtype d' v /\ go fs' vs'
                   | _, _ => False
                   end) fs vs
                <-> Forall2 (fun nd mv => fst nd = fst mv
                                          /\ has_dtype (snd nd) (snd mv)) fs vs).
    { revert vs. induction fs as [|[nm d'] fs IH]; intros [|[m v] vs].
      - split; [constructor|trivial].
      - split; [contradiction|intros H; inversion H].
      - split; [contradiction|intros H; inversion H].
      - rewrite IH. split.
        + intros [H1 [H2 H3]]. constructor; [now split|exact H3].
        + intros H. inversion H as [|? ? ? ? [H1 H2] H3]; subst. auto. }
    rewrite H. split.
    + intros HF. now exists vs.
    + intros [vs' [E HF]]. now injection E as ->.
  - split; [contradiction|]. intros [vs [E _]]. discriminate.
Qed.

Lemma assoc_In {B : Type} (name : string) (l : list (string * B)) (b : B) :
  assoc name l = Some b -> In (name, b) l.
Proof.
  induction l as [|[m v] l IH]; cbn; [discriminate|].
  destruct (String.eqb_spec name m) as [->|Hne].
  - intros H. injection H as ->. now left.
  - intros H. right. now apply IH.
Qed.

Lemma In_assoc {B : Type} (name : string) (l : list (string * B)) (b : B) :
  NoDup (map fst l) -> In (name, b) l -> assoc name l = Some b.
Proof.
  induction l as [|[m v] l IH]; intros Hnd Hin; [contradiction|].
  cbn [map fst] in Hnd. inversion Hnd as [|? ? Hm Hnd']; subst. cbn [assoc].
  destruct Hin as [E|Hin].
  - injection E as -> ->. now rewrite String.eqb_refl.
  - destruct (String.eqb_spec name m) as [->|Hne]; [|now apply IH].
    elim Hm. apply in_map_iff. now exists (m, b).
Qed.

Lemma assoc_map_snd {B C : Type} (F : string -> B -> C) (name : string)
  (l : list (string * B)) :
  assoc name (map (fun nd => (fst nd, F (fst nd) (snd nd))) l)
  = match assoc name l with
    | Some b => Some (F name b)
    | None => None
    end.
Proof.
  induction l as [|[m v] l IH]; [reflexivity|]. cbn [map fst snd assoc].
  destruct (String.eqb_spec name m) as [->|Hne]; [reflexivity|exact IH].
Qed.

Lemma set_eqb_refl (l : list string) : set_eqb l l = true.
Proof.
  unfold set_eqb.
  assert (H : forallb (fun x => existsb (String.eqb x) l) l = true).
  { apply forallb_forall. intros x Hx. apply existsb_exists.
    exists x. split; [exact Hx|apply String.eqb_refl]. }
  now rewrite H.
Qed.

Lemma any_names_differ_same {Y : Type} (fs : list (string * dtype)) (l : list Y) :
  any_names_differ (map fst fs) (map (fun _ => DStruct fs) l) = Some false.
Proof.
  induction l as [|y l IH]; [reflexivity|].
  cbn [map any_names_differ dtype_names]. now rewrite set_eqb_refl.
Qed.

Lemma transmissible_not_object (d : dtype) :
  transmissible d -> is_object d = false.
Proof.
  destruct d as [c sz|fs]; [|reflexivity]. intros [HO _].
  unfold is_object, dtype_O. cbn [dtype_eqb].
  apply andb_false_iff. left. now apply Ascii.eqb_neq.
Qed.

Lemma no_object_field (fs : list (string * dtype)) :
  Forall (fun nd => transmissible (snd nd)) fs ->
  any_object_field (DStruct fs) (map fst fs) = false.
Proof.
  intros H. unfold any_object_field. apply existsb_map_false.
  intros nd _. cbn [dtype_field].
  destruct (assoc (fst nd) fs) as [f|] eqn:E; [|reflexivity].
  apply assoc_In in E. rewrite Forall_forall in H.
  apply transmissible_not_object. exact (H _ E).
Qed.

(** *** Assigning the fields one after the other *)

Lemma filled_fill_list (vs W : list (string * elem)) (names : list string) :
  fold_left (fun acc name => set_field name acc (get_field name (ERec vs)))
    names (ERec W)
  = ERec (fill_list vs names W).
Proof.
  unfold fill_list. revert W; induction names as [|nm names IH]; intros W;
    [reflexivity|].
  cbn [fold_left set_field get_field]. apply IH.
Qed.

Lemma fill_list_skip (m : string) (v : elem) (vs W : list (string * elem))
  (names : list string) :
  ~ In m names ->
  fill_list ((m, v) :: vs) names ((m, v) :: W)
  = (m, v) :: fill_list vs names W.
Proof.
  unfold fill_list. revert W; induction names as [|nm names IH]; intros W Hn;
    [reflexivity|].
  cbn [fold_left assoc assoc_set].
  destruct (String.eqb_spec nm m) as [->|Hne]; [elim Hn; now left|].
  apply IH. intros Hin. apply Hn. now right.
Qed.

Lemma fill_list_all (vs W : list (string * elem)) :
  NoDup (map fst vs) -> map fst W = map fst vs ->
  fill_list vs (map fst vs) W = vs.
Proof.
  revert W; induction vs as [|[m v] vs IH]; intros [|[m' w] W] Hnd Hn;
    try discriminate; [reflexivity|].
  cbn [map fst] in Hn, Hnd. injection Hn as -> Hn.
  inversion Hnd as [|? ? Hm Hnd']; subst.
  change (fill_list ((m, v) :: vs) (map fst ((m, v) :: vs)) ((m, w) :: W))
    with (fill_list ((m, v) :: vs) (map fst vs)
            (assoc_set m
               (match assoc m ((m, v) :: vs) with
                | Some x => x
                | None => EUninit
                end) ((m, w) :: W))).
  cbn [assoc assoc_set]. rewrite String.eqb_refl.
  rewrite fill_list_skip by exact Hm. f_equal. now apply IH.
Qed.

Lemma filled_all (fs : list (string * dtype)) (c : elem) :
  NoDup (map fst fs) -> has_dtype (DStruct fs) c ->
  filled (DStruct fs) (map fst fs) c = c.
Proof.
  intros Hnd Hc. apply has_dtype_struct in Hc. destruct Hc as [vs [-> HF]].
  assert (Hn : map fst fs = map fst vs).
  { clear Hnd. induction HF as [|nd mv fs vs [E _] _ IH]; [reflexivity|].
    cbn [map]. now rewrite E, IH. }
  unfold filled. rewrite uninit_struct, filled_fill_list. f_equal.
  rewrite Hn. apply fill_list_all.
  - now rewrite <- Hn.
  - rewrite map_map. cbn [fst]. exact Hn.
Qed.

Lemma filled_snoc (d : dtype) (done : list string) (name : string) (c : elem) :
  filled d (done ++ [name]) c
  = set_field name (filled d done c) (get_field name c).
Proof. unfold filled. now rewrite fold_left_app. Qed.

Lemma has_dtype_field (fs : list (string * dtype)) (name : string) (d' : dtype)
  (c : elem) :
  NoDup (map fst fs) -> In (name, d') fs -> has_dtype (DStruct fs) c ->
  has_dtype d' (get_field name c).
Proof.
  intros Hnd Hin Hc. apply has_dtype_struct in Hc. destruct Hc as [vs [-> HF]].
  cbn [get_field]. revert Hnd Hin.
  induction HF as [|[n d0] [m v] fs vs [E Hv] HF IH]; intros Hnd Hin;
    [contradiction|].
  cbn [fst snd] in E, Hv. subst m. cbn [map fst] in Hnd.
  inversion Hnd as [|? ? Hm Hnd']; subst. cbn [assoc].
  destruct Hin as [E|Hin].
  - injection E as -> ->. now rewrite String.eqb_refl.
  - destruct (String.eqb_spec name n) as [->|Hne]; [|now apply IH].
    elim Hm. apply in_map_iff. now exists (n, d').
Qed.


Lemma concat_map_map {A B X : Type} (g : A -> B) (f : X -> list A) (l : list X) :
  concat (map (fun x => map g (f x)) l) = map g (concat (map f l)).
Proof. now rewrite concat_map, map_map. Qed.

Lemma map_map_const {A B : Type} (u : B) (k : nat) (G : list (list A)) :
  Forall (fun r => length r = k) G ->
  map (map (fun _ => u)) G = repeat (repeat u k) (length G).
Proof.
  induction 1 as [|r G Hr _ IH]; [reflexivity|].
  cbn [map length repeat]. rewrite IH. f_equal. subst k.
  clear. induction r; [reflexivity|]. cbn. now f_equal.
Qed.

Lemma map_map_id {A : Type} (f : A -> A) (G : list (list A)) :
  Forall (Forall (fun c => f c = c)) G -> map (map f) G = G.
Proof.
  induction 1 as [|r G Hr _ IH]; [reflexivity|].
  cbn [map]. rewrite IH. f_equal.
  induction Hr as [|c r Hc _ IHr]; [reflexivity|]. cbn [map]. now rewrite Hc, IHr.
Qed.

Lemma Forall_concat_map {A X : Type} (P : A -> Prop) (f : X -> list A)
  (l : list X) :
  (forall x, In x l -> Forall P (f x)) -> Forall P (concat (map f l)).
Proof.
  intros H. induction l as [|x l IH]; [constructor|].
  cbn [map concat]. apply Forall_app. split.
  - apply H. now left.
  - apply IH. intros y Hy. apply H. now right.
Qed.

(** ** Scattering the blocks back *)

Lemma sum_Z_lengths {A X : Type} (f : X -> list A) (l : list X) :
  sum_Z (map (fun x => Z.of_nat (length (f x))) l)
  = Z.of_nat (length (concat (map f l))).
Proof.
  induction l as [|x l IH]; [reflexivity|].
  cbn [map concat]. rewrite sum_Z_cons, length_app, IH. lia.
Qed.

Lemma nth_error_offsets_from {A : Type} (pre : list (list A)) :
  forall (a : Z) (b : list A) (post : list (list A)),
    nth_error
      (offsets_from a (map (fun r => Z.of_nat (length r)) (pre ++ b :: post)))
      (length pre)
    = Some (a + Z.of_nat (length (concat pre)))%Z.
Proof.
  induction pre as [|p pre IH]; intros a b post.
  - cbn. f_equal. lia.
  - cbn [app map offsets_from length nth_error concat].
    rewrite IH, length_app. f_equal. lia.
Qed.

(** The root sends to rank [j] the [j]-th block of the gathered rows. *)
Lemma scatter_block_slice (isz : nat) (bl : list (list row)) (j : nat)
  (b : list row) :
  nth_error bl j = Some b ->
  scatter_block (mk_buf isz (concat bl))
    (map (fun r => Z.of_nat (length r)) bl)
    (offsets_of (map (fun r => Z.of_nat (length r)) bl)) j
  = Some (mk_buf isz b).
Proof.
  intros Hj. unfold scatter_block. rewrite nth_error_map, Hj. cbn [option_map].
  destruct (nth_error_split _ _ Hj) as [pre [post [-> Hl]]]. subst j.
  rewrite offsets_of_from, nth_error_offsets_from.
  cbn [records buf_itemsize]. rewrite concat_app. cbn [concat].
  rewrite !length_app. rewrite Z.add_0_l.
  replace ((Z.of_nat (length b) <? 0)%Z) with false
    by (symmetry; apply Z.ltb_ge; lia).
  replace ((Z.of_nat (length (concat pre)) <? 0)%Z) with false
    by (symmetry; apply Z.ltb_ge; lia).
  match goal with |- context [(?x <? ?y)%Z] =>
    replace (x <? y)%Z with false by (symmetry; apply Z.ltb_ge; lia) end.
  cbn [orb]. rewrite !Nat2Z.id. do 2 f_equal.
  rewrite skipn_app, skipn_all, Nat.sub_diag. cbn [skipn app].
  rewrite firstn_app, firstn_all, Nat.sub_diag. cbn [firstn].
  apply app_nil_r.
Qed.

(** A block of as many records as the receive buffer holds replaces its
    content. *)
Lemma scatter_reply_block (isz : nat) (b junk : list row) :
  length junk = length b ->
  scatter_reply (Some (mk_buf isz b)) (mk_buf isz junk) = RMsg (MBuffer b).
Proof.
  intros Hl. unfold scatter_reply, recv_block. cbn [buf_itemsize records].
  rewrite Nat2Z.id, Hl, Nat.ltb_irrefl, Nat.eqb_refl.
  replace ((Z.of_nat (length b) <? 0)%Z) with false
    by (symmetry; apply Z.ltb_ge; lia).
  replace ((Z.of_nat (length b) <? 0 + Z.of_nat (length b))%Z) with false
    by (symmetry; apply Z.ltb_ge; lia).
  cbn [orb Z.ltb Z.compare Z.to_nat]. unfold place.
  cbn [firstn Nat.add app]. rewrite skipn_all2 by lia. now rewrite app_nil_r.
Qed.

Lemma deliver_shape_dtype (j : nat) (sh : list nat) (d : dtype) :
  as_shape_dtype (deliver j (MTuple [shape_msg sh; MDtype d])) = Some (sh, d).
Proof.
  unfold deliver. cbn [dumps loads map].
  change (loads j (dumps (shape_msg sh))) with (deliver j (shape_msg sh)).
  rewrite deliver_shape. cbn [as_shape_dtype].
  now rewrite as_shape_shape_msg.
Qed.

Lemma no_object_in_scatter (d : dtype) :
  transmissible d ->
  (if Ascii.eqb (dtype_char d) "V"
   then match dtype_names d with
        | Some names => any_object_field d names
        | None => false
        end
   else is_object d) = false.
Proof.
  intros Ht. destruct d as [c sz|fs].
  - cbn [dtype_char]. pose proof (transmissible_not_object _ Ht) as HO.
    destruct Ht as [_ HV].
    replace (Ascii.eqb c "V") with false
      by (symmetry; now apply Ascii.eqb_neq).
    exact HO.
  - cbn [dtype_char dtype_names]. rewrite Ascii.eqb_refl.
    apply transmissible_struct in Ht. now apply no_object_field.
Qed.

(** [shape_and_dtype] on the root and on the other ranks. *)
Lemma shape_and_dtype_ret {B : Type} (b : bool) (a : ndarray)
  (k : msg -> prog B) :
  bind (if b then
          match (if b then MArray a else MNone) with
          | MArray a => Ret (MTuple [shape_msg (shape a); MDtype (arr_dtype a)])
          | _ => Raise (Exn AttributeError "object has no attribute 'flags'")
          end
        else Ret MNone) k
  = k (if b then MTuple [shape_msg (shape a); MDtype (arr_dtype a)] else MNone).
Proof. destruct b; reflexivity. Qed.

Section Gather.
Context {X : Type}.
Variables (ix0 : nat * X) (rest : list (nat * X)) (n : nat).
Let ixs := ix0 :: rest.
Hypothesis Hw : well_indexed ixs.

Lemma fst_ix0 : fst ix0 = 0.
Proof. unfold well_indexed in Hw. cbn in Hw. now injection Hw. Qed.

Lemma nth_error_root : nth_error ixs 0 = Some ix0.
Proof. reflexivity. Qed.

Lemma sends_records (isz : nat) (rws : nat * X -> list row) :
  map records (map (fun ix => mk_buf isz (rws ix)) ixs) = map rws ixs.
Proof. rewrite map_map. reflexivity. Qed.

(** A flat array: the rows go to rank 0 in rank order. *)
Lemma GatherArray_flat_run (c : ascii) (sz : nat) (ts : list nat)
  (rws : nat * X -> list row) :
  c <> "O"%char -> c <> "V"%char ->
  run (map (fun ix => GatherArray_nd (DScalar c sz) ts (rws ix)
                        (mk_Comm (fst ix) n) (Rank 0)) ixs)
  = map (fun ix =>
           Ok (if Nat.eqb (fst ix) 0
               then MArray (mk_ndarray (DScalar c sz) ts (concat (map rws ixs)))
               else MNone)) ixs.
Proof.
  intros HO HV. cbn [GatherArray_nd]. unfold GatherArray_body.
  cbn [bind call rows arr_dtype tshape shape].
  rewrite run_allgather by exact Hw.
  rewrite run_allgather by exact Hw.
  erewrite run_ext.
  2:{ intros ix Hin. unfold as_seq.
      rewrite (decode_all_map as_shape _ (fun ix' => length (rws ix') :: ts))
        by (intros; rewrite deliver_shape; apply as_shape_shape_msg).
      rewrite (decode_all_map as_dtype _ (fun _ => DScalar c sz))
        by reflexivity.
      cbn [expect bind]. unfold ixs. cbn [map dtype_char].
      replace (Ascii.eqb c "V") with false
        by (symmetry; now apply Ascii.eqb_neq).
      replace (is_object (DScalar c sz)) with false.
      2:{ symmetry. unfold is_object, dtype_O. cbn [dtype_eqb].
          apply andb_false_iff. left. now apply Ascii.eqb_neq. }
      rewrite !existsb_map_false.
      2:{ intros x _. now rewrite dtype_eqb_refl. }
      2:{ intros x _. cbn [tl]. now rewrite list_eqb_nat_refl. }
      reflexivity. }
  rewrite (run_bcast ixs Hw _ _ 0 ix0 nth_error_root).
  cbn [is_dest rank]. rewrite fst_ix0. cbn [Nat.eqb deliver dumps loads map].
  cbn [unpack2 expect bind fst snd truthy].
  rewrite (run_allreduce_SUM ixs Hw _ (fun ix => nat_msg (length (rws ix)))
             (Z.of_nat (fold_right Nat.add 0
                          (map (fun ix => length (rws ix)) ixs))))
    by apply sum_msgs_nat.
  erewrite run_ext.
  2:{ intros ix Hin.
      match goal with |- context [MInt (Z.of_nat ?k)] =>
        change (MInt (Z.of_nat k)) with (nat_msg k) end.
      rewrite as_nat_nat_msg. cbn [expect bind]. reflexivity. }
  rewrite run_allgather by exact Hw.
  erewrite run_ext.
  2:{ intros ix Hin. unfold as_seq.
      rewrite (decode_all_map as_int _
                 (fun ix' => Z.of_nat (length (rws ix'))))
        by reflexivity.
      cbn [expect bind]. reflexivity. }
  rewrite run_Gatherv by exact Hw.
  rewrite <- run_ret. apply run_ext. intros ix Hin.
  cbn [length Nat.ltb Nat.leb]. destruct (Nat.eqb (fst ix) 0) eqn:E.
  - unfold np_empty. cbn [rows].
    pose proof (gather_reply_concat
                  (duplicity ts * dtype_itemsize (DScalar c sz))
                  (fold_right Nat.add 0 (map (fun ix => length (rws ix)) ixs))
                  (repeat (uninit (DScalar c sz)) (duplicity ts))
                  (map (fun ix => mk_buf
                                    (duplicity ts * dtype_itemsize (DScalar c sz))
                                    (rws ix)) ixs)) as Hg.
    rewrite !map_map in Hg. cbn [records] in Hg.
    match goal with
    | |- context [gather_reply ?b ?s ?c ?o] =>
        replace (gather_reply b s c o)
          with (RMsg (MBuffer (concat (map rws ixs))))
    end.
    + reflexivity.
    + symmetry. apply Hg.
      * apply Forall_forall. intros s Hs. apply in_map_iff in Hs.
        now destruct Hs as [ix' [<- _]].
      * now rewrite length_concat_sum.
  - reflexivity.
Qed.

(** The loop over the fields: every field is gathered by the recursive call
    and assigned to the receive buffer of rank 0. *)
Lemma gather_fields_run (fs : list (string * dtype)) (ts : list nat)
  (rws : nat * X -> list row) :
  NoDup (map fst fs) ->
  Forall (fun nd => gathered_at_root n ixs ts (snd nd)) fs ->
  (forall ix, In ix ixs -> Forall (row_ok (DStruct fs) ts) (rws ix)) ->
  forall todo donefs,
    fs = donefs ++ todo ->
    run (map (fun ix =>
                gather_fields
                  (map (fun nd =>
                          (fst nd,
                           GatherArray_nd (snd nd) ts
                             (map (map (get_field (fst nd))) (rws ix))
                             (mk_Comm (fst ix) n) (Rank 0))) fs)
                  (Nat.eqb (fst ix) 0) (map fst todo)
                  (gather_state (DStruct fs) ts (map fst donefs)
                     (concat (map rws ixs)) (fst ix))) ixs)
    = map (fun ix =>
             Ok (gather_state (DStruct fs) ts (map fst fs)
                   (concat (map rws ixs)) (fst ix))) ixs.
Proof.
  intros Hnd Hfs Hrows.
  induction todo as [|[name d'] todo IH]; intros donefs E.
  - rewrite app_nil_r in E. subst donefs. cbn [map gather_fields].
    exact (run_ret (fun ix => gather_state (DStruct fs) ts (map fst fs)
                                (concat (map rws ixs)) (fst ix)) ixs).
  - assert (Hin : In (name, d') fs).
    { rewrite E. apply in_or_app. right. now left. }
    cbn [map gather_fields fst].
    erewrite run_ext.
    2:{ intros ix _.
        rewrite (assoc_map_snd
                   (fun nm dd => GatherArray_nd dd ts
                                   (map (map (get_field nm)) (rws ix))
                                   (mk_Comm (fst ix) n) (Rank 0))).
        rewrite (In_assoc name fs d' Hnd Hin). reflexivity. }
    rewrite Forall_forall in Hfs. pose proof (Hfs _ Hin) as Hd'.
    cbn [snd] in Hd'.
    specialize (Hd' (fun ix => map (map (get_field name)) (rws ix))).
    refine (eq_trans (run_bind_ok _ _ _ ixs (Hd' _)) _).
    + intros ix Hix. apply Forall_forall. intros r Hr.
      apply in_map_iff in Hr. destruct Hr as [r0 [<- Hr0]].
      pose proof (Hrows ix Hix) as Hrw. rewrite Forall_forall in Hrw.
      destruct (Hrw _ Hr0) as [Hlen Hcells]. split.
      * now rewrite length_map.
      * apply Forall_forall. intros c Hc. apply in_map_iff in Hc.
        destruct Hc as [c0 [<- Hc0]]. rewrite Forall_forall in Hcells.
        exact (has_dtype_field fs name d' c0 Hnd Hin (Hcells _ Hc0)).
    + refine (eq_trans _ (IH (donefs ++ [(name, d')]) _)).
      2:{ now rewrite <- app_assoc. }
      apply run_ext. intros ix _. unfold gather_state.
      destruct (Nat.eqb (fst ix) 0); [|reflexivity].
      rewrite concat_map_map. unfold setitem_field.
      unfold shape. cbn [rows tshape arr_dtype]. rewrite !length_map.
      rewrite list_eqb_nat_refl. do 3 f_equal.
      rewrite zip_with_map. apply map_ext. intros r.
      rewrite zip_with_map. apply map_ext. intros c.
      rewrite map_app. cbn [map fst]. now rewrite filled_snoc.
Qed.

(** An array of any transmissible dtype: rank 0 receives the rows of the
    ranks in rank order, field by field for a structured dtype. *)
Lemma GatherArray_root_run (ts : list nat) (d : dtype) :
  transmissible d -> gathered_at_root n ixs ts d.
Proof.
  induction d as [c sz|fs IHfs] using dtype_ind'.
  - intros [HO HV] rws _. now apply GatherArray_flat_run.
  - intros Ht rws Hrows. apply transmissible_struct in Ht.
    destruct Ht as [Hnd Hall].
    assert (Hfs : Forall (fun nd => gathered_at_root n ixs ts (snd nd)) fs).
    { rewrite Forall_forall in *. intros nd Hin. apply IHfs; auto. }
    assert (HG : Forall (row_ok (DStruct fs) ts) (concat (map rws ixs))).
    { now apply Forall_concat_map. }
    erewrite run_ext by (intros; apply GatherArray_nd_struct).
    unfold GatherArray_body. cbn [bind call rows arr_dtype tshape shape].
    rewrite run_allgather by exact Hw.
    rewrite run_allgather by exact Hw.
    erewrite run_ext.
    2:{ intros ix Hin. unfold as_seq.
        rewrite (decode_all_map as_shape _ (fun ix' => length (rws ix') :: ts))
          by (intros; rewrite deliver_shape; apply as_shape_shape_msg).
        rewrite (decode_all_map as_dtype _ (fun _ => DStruct fs))
          by reflexivity.
        cbn [expect bind]. unfold ixs. cbn [map dtype_char dtype_names].
        rewrite Ascii.eqb_refl, any_names_differ_same.
        rewrite (no_object_field fs Hall). reflexivity. }
    rewrite (run_allreduce_SUM ixs Hw _ (fun ix => nat_msg (length (rws ix)))
               (Z.of_nat (fold_right Nat.add 0
                            (map (fun ix => length (rws ix)) ixs))))
      by apply sum_msgs_nat.
    erewrite run_ext.
    2:{ intros ix Hin.
        match goal with |- context [MInt (Z.of_nat ?k)] =>
          change (MInt (Z.of_nat k)) with (nat_msg k) end.
        rewrite as_nat_nat_msg. cbn [expect bind is_dest rank]. reflexivity. }
    refine (eq_trans _ (eq_trans
              (gather_fields_run fs ts rws Hnd Hfs Hrows fs [] eq_refl) _)).
    + apply run_ext. intros ix _. f_equal. unfold gather_state.
      destruct (Nat.eqb (fst ix) 0); [|reflexivity].
      unfold np_empty, filled. cbn [map fold_left]. do 2 f_equal.
      rewrite <- length_concat_sum. symmetry. apply map_map_const.
      eapply Forall_impl; [|exact HG]. now intros r [Hl _].
    + apply map_ext. intros ix. unfold gather_state.
      destruct (Nat.eqb (fst ix) 0); [|reflexivity]. do 3 f_equal.
      apply map_map_id. eapply Forall_impl; [|exact HG].
      intros r [_ Hc]. eapply Forall_impl; [|exact Hc].
      intros c Hcd. now apply filled_all.
Qed.
(** Scattering from rank 0 with the lengths of the blocks as [counts] hands
    every rank its block. *)
Lemma ScatterArray_root_run (ts : list nat) (d : dtype)
  (rws : nat * X -> list row) :
  n = length ixs ->
  transmissible d ->
  run (map (fun ix =>
              ScatterArray
                (if Nat.eqb (fst ix) 0
                 then MArray (mk_ndarray d ts (concat (map rws ixs)))
                 else MNone)
                (mk_Comm (fst ix) n) 0
                (Some (map (fun ix' => Z.of_nat (length (rws ix'))) ixs))) ixs)
  = map (fun ix => Ok (MArray (mk_ndarray d ts (rws ix)))) ixs.
Proof.
  intros Hn Ht. unfold ScatterArray. cbn [size rank].
  rewrite length_map, <- Hn, Nat.eqb_refl. cbn [negb bind call].
  rewrite (run_bcast ixs Hw _ _ 0 ix0 nth_error_root).
  rewrite fst_ix0. cbn [Nat.eqb deliver dumps loads truthy].
  erewrite run_ext.
  2:{ intros ix _. rewrite shape_and_dtype_ret. reflexivity. }
  rewrite (run_bcast ixs Hw _ _ 0 ix0 nth_error_root).
  rewrite fst_ix0. cbn [Nat.eqb].
  erewrite run_ext.
  2:{ intros ix Hin. rewrite deliver_shape_dtype.
      unfold shape. cbn [rows arr_dtype tshape].
      rewrite (no_object_in_scatter d Ht).
      rewrite sum_Z_lengths, Z.eqb_refl. cbn [negb].
      rewrite nth_error_map, (well_indexed_In ixs ix Hw Hin). cbn [option_map].
      replace ((Z.of_nat (length (rws ix)) <? 0)%Z) with false
        by (symmetry; apply Z.ltb_ge; lia).
      rewrite Nat2Z.id. reflexivity. }
  rewrite run_Barrier by exact Hw.
  rewrite (run_Scatterv ixs Hw _ _ _ _ _ 0 ix0 nth_error_root).
  rewrite fst_ix0. cbn [Nat.eqb negb buf_of].
  rewrite <- run_ret. apply run_ext. intros ix Hin.
  replace (map (fun ix' => Z.of_nat (length (rws ix'))) ixs)
    with (map (fun r : list row => Z.of_nat (length r)) (map rws ixs))
    by (rewrite map_map; reflexivity).
  rewrite (scatter_block_slice _ (map rws ixs) (fst ix) (rws ix)).
  2:{ now rewrite nth_error_map, (well_indexed_In ixs ix Hw Hin). }
  unfold np_empty. cbn [rows].
  rewrite scatter_reply_block by apply repeat_length.
  reflexivity.
Qed.
End Gather.

Lemma In_indexed_snd {X : Type} (xs : list X) (ix : nat * X) :
  In ix (indexed xs) -> In (snd ix) xs.
Proof.
  intros H. rewrite <- (map_snd_indexed xs). now apply in_map.
Qed.

Lemma indexed_nonempty {X : Type} (xs : list X) :
  xs <> [] -> exists ix0 rest, indexed xs = ix0 :: rest.
Proof.
  intros H. destruct (indexed xs) as [|ix0 rest] eqn:E; [|now eauto].
  apply (f_equal (@length _)) in E. rewrite length_indexed in E.
  destruct xs; [now elim H|discriminate].
Qed.

Lemma array_ok_eta (d : dtype) (ts : list nat) (a : ndarray) :
  array_ok d ts a -> mk_ndarray d ts (rows a) = a.
Proof.
  destruct a as [d0 ts0 rs]. intros [Hd [Hts _]]. cbn in Hd, Hts |- *.
  now subst.
Qed.

(** C1.  The ranks hold the local parts [locals] of an array striped over
    any number [N >= 1] of ranks: arrays of one dtype [d], flat or compound
    (fields nested to any depth, no object or void element type, field names
    distinct) and one trailing shape.  Then [GatherArray(local, comm, root=0)]
    returns on rank 0 the rows of all ranks in rank order and [None] on the
    other ranks, and [ScatterArray] of that result from root 0, with the
    original local lengths as [counts], returns on every rank an array equal
    to the local part the rank started with. *)
Theorem GatherArray_ScatterArray_round_trip (locals : list ndarray)
  (d : dtype) (ts : list nat) :
  locals <> [] ->
  transmissible d ->
  Forall (array_ok d ts) locals ->
  spmd (fun comm a => GatherArray (MArray a) comm (Rank 0)) locals
  = map (fun ix =>
           Ok (if Nat.eqb (fst ix) 0
               then MArray (mk_ndarray d ts (global_rows locals))
               else MNone)) (indexed locals)
  /\ spmd (fun comm a =>
             gathered <- GatherArray (MArray a) comm (Rank 0) ;;
             ScatterArray gathered comm 0 (Some (map lenZ locals))) locals
     = map (fun a => Ok (MArray a)) locals.
Proof.
  intros Hne Ht Hok. unfold spmd.
  pose proof (indexed_well_indexed locals) as Hw.
  assert (Hlen : length locals = length (indexed locals))
    by (symmetry; apply length_indexed).
  assert (Hix : forall ix, In ix (indexed locals) -> array_ok d ts (snd ix)).
  { intros ix Hin. rewrite Forall_forall in Hok.
    apply Hok. now apply In_indexed_snd. }
  assert (HG : global_rows locals
               = concat (map (fun ix : nat * ndarray => rows (snd ix))
                           (indexed locals))).
  { unfold global_rows. now rewrite <- (map_map snd rows), map_snd_indexed. }
  assert (Hc : map lenZ locals
               = map (fun ix : nat * ndarray => Z.of_nat (length (rows (snd ix))))
                   (indexed locals)).
  { rewrite <- (map_map snd (fun a => Z.of_nat (length (rows a)))).
    now rewrite map_snd_indexed. }
  rewrite HG, Hc. clear HG Hc.
  destruct (indexed_nonempty locals Hne) as [ix0 [rest E]].
  revert Hw Hlen Hix. rewrite E. generalize (length locals) as n.
  intros n Hw Hlen Hix.
  assert (Hgather :
    run (map (fun ix : nat * ndarray =>
                GatherArray (MArray (snd ix)) (mk_Comm (fst ix) n) (Rank 0))
           (ix0 :: rest))
    = map (fun ix : nat * ndarray =>
             Ok (if Nat.eqb (fst ix) 0
                 then MArray (mk_ndarray d ts
                                (concat (map (fun ix => rows (snd ix))
                                           (ix0 :: rest))))
                 else MNone)) (ix0 :: rest)).
  { erewrite run_ext.
    2:{ intros ix Hin. destruct (Hix ix Hin) as [Hd [Hts _]].
        unfold GatherArray. rewrite Hd, Hts. reflexivity. }
    apply (GatherArray_root_run ix0 rest n Hw ts d Ht
             (fun ix => rows (snd ix))).
    intros ix Hin. now destruct (Hix ix Hin) as [_ [_ Hr]]. }
  split; [exact Hgather|].
  refine (eq_trans (run_bind_ok _ _ _ (ix0 :: rest) Hgather) _).
  refine (eq_trans (ScatterArray_root_run ix0 rest n Hw ts d
                      (fun ix => rows (snd ix)) Hlen Ht) _).
  rewrite <- E. rewrite <- (map_snd_indexed locals) at 2.
  rewrite map_map. apply map_ext_in. intros ix Hin. do 2 f_equal.
  apply array_ok_eta. apply Hix. now rewrite <- E.
Qed.

(** * unique_labels *)

Lemma scalars_of_ints (d : dtype) (zs : list Z) :
  scalars (of_ints d zs) = Some zs.
Proof.
  unfold scalars, of_ints. cbn [tshape rows].
  induction zs as [|z zs IH]; [reflexivity|]. cbn [map scalars_of].
  now rewrite IH.
Qed.

Lemma deliver_head (d : dtype) (j s : nat) (zs : list Z) :
  deliver j match rows (of_ints d zs) with
            | r :: _ => item r
            | [] => EmptyRank s
            end
  = edge_msg j (hd_error zs).
Proof. now destruct zs. Qed.

Lemma deliver_tail (d : dtype) (j s : nat) (zs : list Z) :
  deliver j match rev (rows (of_ints d zs)) with
            | r :: _ => item r
            | [] => EmptyRank s
            end
  = edge_msg j (hd_error (rev zs)).
Proof.
  unfold of_ints. cbn [rows]. rewrite <- map_rev.
  now destruct (rev zs).
Qed.

Lemma first_nonempty_edges (j : nat) (zss : list (list Z)) :
  first_nonempty j (map (fun zs => edge_msg j (hd_error zs)) zss)
  = edge_msg j (next_value zss).
Proof.
  unfold first_nonempty, next_value.
  induction zss as [|zs zss IH]; [reflexivity|].
  destruct zs as [|z zs].
  - cbn [map find hd_error edge_msg concat app].
    cbn [EmptyRank py_is]. rewrite !Nat.eqb_refl. cbn [andb negb]. exact IH.
  - reflexivity.
Qed.

Lemma decode_all_Some (l : list msg) : decode_all Some l = Some l.
Proof. induction l as [|v l IH]; cbn; [reflexivity|]. now rewrite IH. Qed.

Lemma adjusted_count_edge (d : dtype) (j : nat) (zs : list Z) (nxt : option Z) :
  adjusted_count (edge_msg j nxt) (of_ints d zs) (uniq (sort_Z zs))
  = adjusted zs nxt.
Proof.
  unfold adjusted_count, adjusted, of_ints. cbn [rows]. rewrite <- map_rev.
  destruct (rev zs) as [|z l]; [reflexivity|]. cbn [map item].
  now destruct nxt.
Qed.

Lemma label_cast (legacy : bool) (vals inverse : list Z) :
  length inverse = length vals ->
  (if Nat.eqb (length (rows (of_ints (inverse_dtype legacy vals) inverse))) 0
   then of_ints int64 inverse
   else of_ints (inverse_dtype legacy vals) inverse)
  = of_ints int64 inverse.
Proof.
  intros H. unfold of_ints at 1. cbn [rows]. rewrite length_map, H.
  destruct vals; reflexivity.
Qed.


Lemma length_labels_of (zss : list (list Z)) :
  length (labels_of zss) = length zss.
Proof. unfold labels_of. now rewrite length_map, length_indexed. Qed.

Section UniqueLabels.
Variables (legacy : bool) (d : dtype) (zss : list (list Z)).
Hypothesis Hne : concat zss <> [].

Let ixs := indexed zss.
Let lab (ix : nat * list Z) : list Z :=
  map (fun v => (v + sum_Z (firstn (fst ix) (counts_of zss)))%Z)
    (snd (np_unique (snd ix))).

Lemma labels_of_ixs : labels_of zss = map lab ixs.
Proof. reflexivity. Qed.

Lemma exists_nonempty_label :
  exists ix, In ix ixs /\ rows (of_ints int64 (lab ix)) <> [].
Proof.
  assert (H : exists zs, In zs zss /\ zs <> []).
  { clear -Hne. induction zss as [|zs l IH]; [now elim Hne|].
    destruct zs as [|z zs].
    - destruct IH as [zs' [Hin Hn]]; [exact Hne|].
      exists zs'. split; [now right|exact Hn].
    - exists (z :: zs). split; [now left|discriminate]. }
  destruct H as [zs [Hin Hn]].
  rewrite <- (map_snd_indexed zss) in Hin. apply in_map_iff in Hin.
  destruct Hin as [ix [<- Hix]]. exists ix. split; [exact Hix|].
  unfold lab, np_unique, of_ints. cbn [snd rows].
  destruct (snd ix); [now elim Hn|discriminate].
Qed.

(** [unique_labels] returns on every rank, with the labels [labels_of]. *)
Lemma unique_labels_run :
  run (map (unique_labels legacy) (dist_ints d zss))
  = map Ok (dist_ints int64 (labels_of zss)).
Proof.
  unfold dist_ints at 1. rewrite map_map. fold ixs.
  unfold unique_labels, prev, next, tails, heads, expect_seq.
  cbn [comm_of local constructed bind call rank].
  rewrite run_allgather by apply indexed_well_indexed.
  cbn [as_seq expect bind].
  erewrite run_ext.
  2:{ intros ix Hin. rewrite decode_all_Some. cbn [expect bind].
      reflexivity. }
  rewrite run_allgather by apply indexed_well_indexed.
  erewrite run_ext.
  2:{ intros ix Hin. cbn [as_seq]. rewrite decode_all_Some.
      cbn [expect bind].
      rewrite (map_ext _ (fun ix' => edge_msg (fst ix) (hd_error (snd ix'))))
        by (intros; apply deliver_head).
      rewrite <- (map_map snd (fun zs => edge_msg (fst ix) (hd_error zs))).
      rewrite skipn_map. unfold ixs at 1.
      rewrite map_snd_indexed, first_nonempty_edges.
      rewrite scalars_of_ints. cbn [expect bind]. unfold np_unique.
      rewrite adjusted_count_edge. reflexivity. }
  rewrite run_allgather by apply indexed_well_indexed.
  erewrite run_ext.
  2:{ intros ix Hin. unfold as_seq.
      rewrite (decode_all_map as_int _
                 (fun ix' : nat * list Z =>
                    adjusted (snd ix')
                      (next_value (skipn (fst ix' + 1) zss))))
        by reflexivity.
      fold ixs. change (map _ ixs) with (counts_of zss).
      cbn [expect bind].
      rewrite label_cast by apply length_map.
      unfold iadd. cbn [of_ints arr_dtype].
      change (dtype_eqb int64 bool_) with false. cbn [bind].
      change (map (fun v : Z =>
                     (v + sum_Z (firstn (fst ix) (counts_of zss)))%Z)
                (map (fun x : Z => index_of x (uniq (sort_Z (snd ix))))
                   (snd ix)))
        with (lab ix).
      reflexivity. }
  refine (eq_trans
            (DistributedArray_init_run ixs (fun ix => of_ints int64 (lab ix))
               (fun _ => length zss) int64 [] _ _ _ _) _).
  - apply indexed_well_indexed.
  - exact exists_nonempty_label.
  - reflexivity.
  - reflexivity.
  - unfold dist_ints, int_locals. rewrite labels_of_ixs.
    rewrite (indexed_map lab ixs (indexed_well_indexed zss)).
    rewrite !map_map, length_map. unfold ixs at 4.
    rewrite length_indexed. reflexivity.
Qed.
End UniqueLabels.

(** ** The labels, rank after rank *)

Lemma indexed_cons {X : Type} (x : X) (xs : list X) :
  indexed (x :: xs) = (0, x) :: map (fun ix => (S (fst ix), snd ix)) (indexed xs).
Proof.
  unfold indexed. cbn [length seq combine]. f_equal.
  rewrite <- seq_shift. generalize (seq 0 (length xs)). intros l. revert xs.
  induction l as [|a l IH]; intros [|y xs]; cbn; try reflexivity.
  now rewrite IH.
Qed.

Lemma counts_of_cons (zs : list Z) (rest : list (list Z)) :
  counts_of (zs :: rest) = adjusted zs (next_value rest) :: counts_of rest.
Proof.
  unfold counts_of. rewrite indexed_cons. cbn [map fst snd]. f_equal.
  rewrite map_map. apply map_ext. intros ix. reflexivity.
Qed.

Lemma labels_shifted (acc : Z) (zss : list (list Z)) :
  map (fun jz =>
         map (fun v => (v + (acc + sum_Z (firstn (fst jz) (counts_of zss))))%Z)
           (snd (np_unique (snd jz))))
    (indexed zss)
  = labels_from acc zss.
Proof.
  revert acc; induction zss as [|zs rest IH]; intros acc; [reflexivity|].
  rewrite indexed_cons, counts_of_cons. cbn [map fst snd firstn labels_from].
  f_equal.
  - apply map_ext. intros v. cbn. lia.
  - rewrite <- IH, map_map. apply map_ext. intros ix. cbn [fst snd firstn].
    apply map_ext. intros v. rewrite sum_Z_cons. lia.
Qed.

Lemma labels_of_from (zss : list (list Z)) : labels_of zss = labels_from 0 zss.
Proof.
  rewrite <- labels_shifted. unfold labels_of. apply map_ext. intros ix.
  apply map_ext. intros v. lia.
Qed.

(** ** Sorted lists *)

Lemma sorted_tail (x : Z) (l : list Z) : sorted (x :: l) -> sorted l.
Proof. destruct l; cbn; tauto. Qed.

Lemma sorted_head_le (x : Z) (l : list Z) :
  sorted (x :: l) -> Forall (fun y => x <= y)%Z l.
Proof.
  revert x; induction l as [|y l IH]; intros x H; [constructor|].
  destruct H as [Hxy H]. constructor; [exact Hxy|].
  apply Forall_impl with (P := fun z => (y <= z)%Z); [intros; lia|].
  now apply IH.
Qed.

Lemma sorted_app_l (l m : list Z) : sorted (l ++ m) -> sorted l.
Proof.
  induction l as [|x l IH]; [constructor|]. intros H.
  destruct l as [|y l]; [exact I|]. cbn in H |- *.
  destruct H as [Hxy H]. split; [exact Hxy|]. apply IH. exact H.
Qed.


Lemma insert_sorted_head (x : Z) (l : list Z) :
  Forall (fun y => x <= y)%Z l -> insert_sorted x l = x :: l.
Proof.
  intros H. destruct H as [|y l Hy _]; [reflexivity|]. cbn.
  destruct (Z.leb_spec x y); [reflexivity|lia].
Qed.

Lemma sort_Z_sorted (l : list Z) : sorted l -> sort_Z l = l.
Proof.
  induction l as [|x l IH]; intros H; [reflexivity|].
  unfold sort_Z in *. cbn [fold_right]. rewrite IH by now apply sorted_tail in H.
  apply insert_sorted_head. now apply sorted_head_le.
Qed.

(** ** Labels of a sorted sequence *)

Lemma labels_after_shift (p lab k : Z) (l : list Z) :
  labels_after p (lab + k) l = map (fun v => (v + k)%Z) (labels_after p lab l).
Proof.
  revert p lab; induction l as [|x l IH]; intros p lab; [reflexivity|].
  cbn [labels_after map]. destruct (Z.eqb x p).
  - now rewrite IH.
  - replace (lab + k + 1)%Z with (lab + 1 + k)%Z by lia. now rewrite IH.
Qed.

Lemma last_cons {A : Type} (a d : A) (l : list A) : last (a :: l) d = last l a.
Proof.
  revert a d; induction l as [|b l IH]; intros a d; [reflexivity|].
  change (last (a :: b :: l) d) with (last (b :: l) d).
  now rewrite (IH b d), (IH b a).
Qed.

Lemma labels_after_app (p lab : Z) (l m : list Z) :
  labels_after p lab (l ++ m)
  = labels_after p lab l
    ++ labels_after (last l p) (last (labels_after p lab l) lab) m.
Proof.
  revert p lab; induction l as [|x l IH]; intros p lab; [reflexivity|].
  cbn [app labels_after]. rewrite IH, !last_cons. reflexivity.
Qed.

Lemma last_label (z lab : Z) (l : list Z) :
  last (labels_after z lab l) lab
  = (lab + Z.of_nat (length (uniq (z :: l))) - 1)%Z.
Proof.
  revert z lab; induction l as [|y l IH]; intros z lab; [cbn; lia|].
  cbn [labels_after]. rewrite last_cons, IH.
  change (uniq (z :: y :: l))
    with (if Z.eqb z y then uniq (y :: l) else z :: uniq (y :: l)).
  rewrite (Z.eqb_sym y z). destruct (Z.eqb z y); cbn [length]; lia.
Qed.

Lemma inverse_sorted (zs : list Z) :
  sorted zs -> map (fun x => index_of x (uniq zs)) zs = ref_labels zs.
Proof.
  induction zs as [|z zs IH]; intros Hs; [reflexivity|].
  destruct zs as [|y l].
  - cbn. now rewrite Z.eqb_refl.
  - destruct Hs as [Hzy Hs]. specialize (IH Hs).
    change (uniq (z :: y :: l))
      with (if Z.eqb z y then uniq (y :: l) else z :: uniq (y :: l)).
    set (U := uniq (y :: l)) in *.
    change (ref_labels (y :: l)) with (0%Z :: labels_after y 0 l) in IH.
    change (map (fun x => index_of x U) (y :: l))
      with (index_of y U :: map (fun x => index_of x U) l) in IH.
    injection IH as Hy Hl.
    change (ref_labels (z :: y :: l))
      with (0 :: (if Z.eqb y z then 0 else 0 + 1)
              :: labels_after y (if Z.eqb y z then 0 else 0 + 1) l)%Z.
    pose proof (sorted_head_le _ _ Hs) as Hall.
    rewrite Forall_forall in Hall.
    destruct (Z.eqb_spec z y) as [E|Hne].
    + subst z. rewrite Z.eqb_refl. cbn [map]. now rewrite Hy, Hl.
    + replace (Z.eqb y z) with false by (symmetry; apply Z.eqb_neq; lia).
      cbn [map index_of]. rewrite Z.eqb_refl.
      replace (Z.eqb y z) with false by (symmetry; apply Z.eqb_neq; lia).
      rewrite Hy. do 2 f_equal.
      rewrite (labels_after_shift y 0 1 l), <- Hl, map_map.
      apply map_ext_in. intros x Hx. specialize (Hall x Hx).
      replace (Z.eqb x z) with false by (symmetry; apply Z.eqb_neq; lia).
      lia.
Qed.

Lemma hd_rev_last (z : Z) (l : list Z) :
  rev (z :: l) = last l z :: rev (removelast (z :: l)).
Proof.
  revert z; induction l as [|y l IH]; intros z; [reflexivity|].
  rewrite last_cons.
  change (removelast (z :: y :: l)) with (z :: removelast (y :: l)).
  cbn [rev] in IH |- *. rewrite IH. reflexivity.
Qed.

Lemma adjusted_cons (z : Z) (l : list Z) (nxt : option Z) :
  adjusted (z :: l) nxt
  = if match nxt with Some n => Z.eqb n (last l z) | None => false end
    then (Z.of_nat (length (uniq (sort_Z (z :: l)))) - 1)%Z
    else Z.of_nat (length (uniq (sort_Z (z :: l)))).
Proof. unfold adjusted. now rewrite hd_rev_last. Qed.

Lemma sorted_last_app (z : Z) (l m : list Z) :
  sorted ((z :: l) ++ m) -> sorted (last l z :: m).
Proof.
  revert z; induction l as [|y l IH]; intros z H; [exact H|].
  rewrite last_cons. apply IH. now apply sorted_tail in H.
Qed.

Lemma sorted_cons_app (p : Z) (l m : list Z) :
  sorted (p :: l ++ m) -> sorted l.
Proof. intros H. apply sorted_tail in H. now apply sorted_app_l in H. Qed.

(** The labels of the ranks, put end to end, are the labels of the whole
    sequence. *)
Lemma labels_from_sorted (zss : list (list Z)) :
  forall p lab acc,
    sorted (p :: concat zss) ->
    acc = (if match next_value zss with
              | Some n => Z.eqb n p
              | None => false
              end then lab else lab + 1)%Z ->
    concat (labels_from acc zss) = labels_after p lab (concat zss).
Proof.
  induction zss as [|zs rest IH]; intros p lab acc Hs Hacc; [reflexivity|].
  destruct zs as [|z l].
  - cbn [labels_from concat app np_unique snd map adjusted rev].
    apply IH; [exact Hs|]. rewrite Z.add_0_r. exact Hacc.
  - cbn [labels_from concat]. unfold np_unique. cbn [snd].
    assert (Hzl : sorted (z :: l)) by (eapply sorted_cons_app; exact Hs).
    rewrite (sort_Z_sorted _ Hzl), (inverse_sorted _ Hzl).
    cbn [ref_labels map app].
    unfold next_value in Hacc. cbn [concat app hd_error] in Hacc.
    change (labels_after p lab (z :: l ++ concat rest))
      with ((if Z.eqb z p then lab else lab + 1)%Z
            :: labels_after z (if Z.eqb z p then lab else lab + 1)%Z
                 (l ++ concat rest)).
    rewrite <- Hacc, Z.add_0_l. f_equal.
    rewrite labels_after_app. f_equal.
    + rewrite <- (labels_after_shift z 0 acc l). now rewrite Z.add_0_l.
    + apply IH.
      * apply sorted_tail in Hs. now apply sorted_last_app.
      * rewrite adjusted_cons, (sort_Z_sorted _ Hzl), last_label.
        destruct (match next_value rest with
                  | Some n => Z.eqb n (last l z)
                  | None => false
                  end); lia.
Qed.

Lemma concat_labels_sorted (zss : list (list Z)) :
  sorted (concat zss) ->
  concat (labels_of zss) = ref_labels (concat zss).
Proof.
  intros Hs. rewrite labels_of_from.
  destruct (concat zss) as [|x V] eqn:E.
  - clear Hs. revert E. generalize 0%Z.
    induction zss as [|zs rest IH]; intros acc E; [reflexivity|].
    apply app_eq_nil in E. destruct E as [-> E].
    cbn [labels_from concat app np_unique snd map]. now apply IH.
  - rewrite (labels_from_sorted zss (x - 1) (-1)).
    + rewrite E. cbn [labels_after ref_labels].
      replace (Z.eqb x (x - 1)) with false by (symmetry; apply Z.eqb_neq; lia).
      reflexivity.
    + rewrite E. split; [lia|exact Hs].
    + unfold next_value. rewrite E. cbn [hd_error].
      replace (Z.eqb x (x - 1)) with false by (symmetry; apply Z.eqb_neq; lia).
      reflexivity.
Qed.

Lemma length_labels_after (p lab : Z) (l : list Z) :
  length (labels_after p lab l) = length l.
Proof.
  revert p lab; induction l as [|x l IH]; intros p lab; [reflexivity|].
  cbn [labels_after length]. now rewrite IH.
Qed.

Lemma length_ref_labels (l : list Z) : length (ref_labels l) = length l.
Proof. destruct l; [reflexivity|]. cbn. now rewrite length_labels_after. Qed.

Lemma labels_after_sorted (p lab : Z) (l : list Z) :
  sorted (lab :: labels_after p lab l).
Proof.
  revert p lab; induction l as [|x l IH]; intros p lab; [exact I|].
  cbn [labels_after].
  change (sorted (lab :: ?a :: ?r)) with ((lab <= a)%Z /\ sorted (a :: r)).
  split; [destruct (Z.eqb x p); lia|apply IH].
Qed.

Lemma sorted_le_last (x : Z) (l : list Z) :
  sorted (x :: l) -> Forall (fun y => x <= y <= last l x)%Z (x :: l).
Proof.
  revert x; induction l as [|y l IH]; intros x H.
  - constructor; [cbn; lia|constructor].
  - destruct H as [Hxy H]. specialize (IH y H). rewrite last_cons.
    pose proof (Forall_inv IH) as Hy. cbn beta in Hy.
    constructor; [lia|]. apply Forall_impl with (2 := IH).
    intros a Ha. cbn beta in Ha. lia.
Qed.

(** Values and labels of a sorted sequence are ordered alike. *)
Lemma labels_after_order (l : list Z) :
  forall p lab,
    sorted (p :: l) ->
    (forall x v, In (x, v) (combine l (labels_after p lab l)) ->
                 (p <= x /\ lab <= v /\ (p < x <-> lab < v))%Z)
    /\ (forall x v x' v',
           In (x, v) (combine l (labels_after p lab l)) ->
           In (x', v') (combine l (labels_after p lab l)) ->
           (x < x' <-> v < v')%Z).
Proof.
  induction l as [|y l IH]; intros p lab Hs; [split; intros; contradiction|].
  destruct Hs as [Hpy Hs]. cbn [labels_after combine].
  set (lab' := if Z.eqb y p then lab else (lab + 1)%Z).
  destruct (IH y lab' Hs) as [H1 H2].
  assert (Hl : (lab <= lab' /\ (p < y <-> lab < lab'))%Z).
  { unfold lab'. destruct (Z.eqb_spec y p); lia. }
  assert (Hhead : forall x v, In (x, v) (combine l (labels_after y lab' l)) ->
                    (p <= x /\ lab <= v /\ (p < x <-> lab < v))%Z).
  { intros x v Hin. specialize (H1 x v Hin). lia. }
  split.
  - intros x v [E|Hin]; [injection E as <- <-; lia|now apply Hhead].
  - intros x v x' v' [E|Hin] [E'|Hin'].
    + injection E as <- <-. injection E' as <- <-. lia.
    + injection E as <- <-. specialize (H1 x' v' Hin'). lia.
    + injection E' as <- <-. specialize (H1 x v Hin). lia.
    + now apply H2.
Qed.

Lemma In_combine_nth {A B : Type} (l : list A) (m : list B) (i : nat) (a : A) (b : B) :
  i < length l -> length l = length m ->
  In (nth i l a, nth i m b) (combine l m).
Proof.
  revert m i; induction l as [|x l IH]; intros [|y m] i Hi Hl; cbn in *;
    try lia.
  destruct i as [|i]; [now left|right]. apply IH; lia.
Qed.

Lemma nodup_length_sorted (l : list Z) :
  sorted l -> length (nodup Z.eq_dec l) = length (uniq l).
Proof.
  induction l as [|x l IH]; intros Hs; [reflexivity|].
  destruct l as [|y l]; [reflexivity|].
  pose proof (sorted_head_le _ _ Hs) as Hx.
  destruct Hs as [Hxy Hs]. specialize (IH Hs).
  pose proof (sorted_head_le _ _ Hs) as Hy.
  rewrite Forall_forall in Hx, Hy.
  change (uniq (x :: y :: l))
    with (if Z.eqb x y then uniq (y :: l) else x :: uniq (y :: l)).
  change (nodup Z.eq_dec (x :: y :: l))
    with (if in_dec Z.eq_dec x (y :: l) then nodup Z.eq_dec (y :: l)
          else x :: nodup Z.eq_dec (y :: l)).
  destruct (Z.eqb_spec x y) as [->|Hne].
  - destruct (in_dec Z.eq_dec y (y :: l)) as [_|Hn]; [exact IH|].
    elim Hn. now left.
  - destruct (in_dec Z.eq_dec x (y :: l)) as [Hin|_].
    + destruct Hin as [E|Hin]; [lia|]. specialize (Hy x Hin). lia.
    + cbn [length]. now rewrite IH.
Qed.

(** The labels of a sorted sequence: in [0, K), non-decreasing, and equal
    exactly on equal values. *)
Lemma ref_labels_spec (V : list Z) :
  sorted V ->
  Forall (fun v => 0 <= v < Z.of_nat (n_distinct V))%Z (ref_labels V)
  /\ sorted (ref_labels V)
  /\ forall i j, i < length V -> j < length V ->
       (nth i (ref_labels V) 0%Z = nth j (ref_labels V) 0%Z
        <-> nth i V 0%Z = nth j V 0%Z).
Proof.
  intros Hs. destruct V as [|x V].
  { split; [constructor|]. split; [exact I|]. intros i j Hi. cbn in Hi. lia. }
  cbn [ref_labels].
  pose proof (labels_after_sorted x 0 V) as Hsl.
  split; [|split].
  - pose proof (sorted_le_last _ _ Hsl) as Hr.
    rewrite last_label in Hr. unfold n_distinct.
    rewrite (nodup_length_sorted _ Hs).
    apply Forall_impl with (2 := Hr). intros v Hv. cbn beta in Hv. lia.
  - exact Hsl.
  - intros i j Hi Hj.
    destruct (labels_after_order (x :: V) (x - 1) (-1)) as [_ H2].
    { split; [lia|exact Hs]. }
    cbn [labels_after] in H2.
    replace (Z.eqb x (x - 1)) with false in H2
      by (symmetry; apply Z.eqb_neq; lia).
    change (-1 + 1)%Z with 0%Z in H2.
    assert (Hin : forall k, k < length (x :: V) ->
               In (nth k (x :: V) 0%Z, nth k (0%Z :: labels_after x 0 V) 0%Z)
                 (combine (x :: V) (0%Z :: labels_after x 0 V))).
    { intros k Hk. apply In_combine_nth; [exact Hk|].
      cbn [length]. now rewrite length_labels_after. }
    pose proof (H2 _ _ _ _ (Hin i Hi) (Hin j Hj)) as Hij.
    pose proof (H2 _ _ _ _ (Hin j Hj) (Hin i Hi)) as Hji.
    lia.
Qed.

Lemma lengths_labels_of (zss : list (list Z)) :
  map (@length Z) (labels_of zss) = map (@length Z) zss.
Proof.
  unfold labels_of. rewrite map_map.
  rewrite <- (map_snd_indexed zss) at 2. rewrite map_map.
  apply map_ext. intros ix. unfold np_unique. cbn [snd].
  now rewrite !length_map.
Qed.

(** C4.  On a globally sorted [DistributedArray] of integers,
    [unique_labels] returns on every rank; the labels, read in
    rank-then-local order next to the values, lie in [0, K) for the [K]
    distinct global values, never decrease, and agree on two elements exactly
    when the values agree, also for a run of one value that several ranks
    share. *)
Theorem unique_labels_sorted (legacy : bool) (d : dtype) (zss : list (list Z)) :
  concat zss <> [] ->
  sorted (concat zss) ->
  let V := concat zss in
  let Lb := concat (labels_of zss) in
  run (map (unique_labels legacy) (dist_ints d zss))
  = map Ok (dist_ints int64 (labels_of zss))
  /\ map (@length Z) (labels_of zss) = map (@length Z) zss
  /\ Forall (fun v => 0 <= v < Z.of_nat (n_distinct V))%Z Lb
  /\ sorted Lb
  /\ forall i j, i < length V -> j < length V ->
       (nth i Lb 0%Z = nth j Lb 0%Z <-> nth i V 0%Z = nth j V 0%Z).
Proof.
  intros Hne Hs V Lb. split; [now apply unique_labels_run|].
  split; [apply lengths_labels_of|].
  unfold Lb. rewrite (concat_labels_sorted _ Hs). now apply ref_labels_spec.
Qed.

(** ** Empty ranks *)

Lemma next_value_skip_empty (pre post : list (list Z)) :
  next_value (pre ++ [] :: post) = next_value (pre ++ post).
Proof. unfold next_value. now rewrite !concat_app. Qed.

Lemma labels_from_skip_empty (pre post : list (list Z)) (acc : Z) :
  labels_from acc (pre ++ [] :: post)
  = firstn (length pre) (labels_from acc (pre ++ post))
    ++ [] :: skipn (length pre) (labels_from acc (pre ++ post)).
Proof.
  revert acc; induction pre as [|zs pre IH]; intros acc.
  - cbn [app labels_from length firstn skipn np_unique snd map adjusted rev].
    now rewrite Z.add_0_r.
  - cbn [app labels_from length firstn skipn].
    rewrite next_value_skip_empty, IH. reflexivity.
Qed.

Lemma counts_of_skip_empty (pre post : list (list Z)) :
  counts_of (pre ++ [] :: post)
  = firstn (length pre) (counts_of (pre ++ post))
    ++ 0%Z :: skipn (length pre) (counts_of (pre ++ post)).
Proof.
  induction pre as [|zs pre IH].
  - cbn [app length firstn skipn]. now rewrite counts_of_cons.
  - cbn [app length]. rewrite !counts_of_cons, next_value_skip_empty, IH.
    reflexivity.
Qed.

Lemma nth_error_middle {A : Type} (l m : list A) (a : A) (n : nat) :
  length l = n -> nth_error (l ++ a :: m) n = Some a.
Proof.
  intros <-. rewrite nth_error_app2 by lia. now rewrite Nat.sub_diag.
Qed.

(** C10.  A rank that holds no element gets a label array of length 0 and of
    dtype int64 (also where numpy hands back booleans for an empty inverse),
    and reports the count 0; the labels and the counts of the other ranks
    are those they get when the empty rank is not there. *)
Theorem unique_labels_empty_rank (legacy : bool) (d : dtype)
  (pre post : list (list Z)) :
  concat (pre ++ post) <> [] ->
  let zss := pre ++ [] :: post in
  run (map (unique_labels legacy) (dist_ints d zss))
  = map Ok (dist_ints int64 (labels_of zss))
  /\ nth_error (map local (dist_ints int64 (labels_of zss))) (length pre)
     = Some (mk_ndarray int64 [] [])
  /\ nth_error (counts_of zss) (length pre) = Some 0%Z
  /\ labels_of zss
     = firstn (length pre) (labels_of (pre ++ post))
       ++ [] :: skipn (length pre) (labels_of (pre ++ post))
  /\ counts_of zss
     = firstn (length pre) (counts_of (pre ++ post))
       ++ 0%Z :: skipn (length pre) (counts_of (pre ++ post)).
Proof.
  intros Hne zss.
  assert (Hl : labels_of zss
               = firstn (length pre) (labels_of (pre ++ post))
                 ++ [] :: skipn (length pre) (labels_of (pre ++ post))).
  { unfold zss. rewrite !labels_of_from. apply labels_from_skip_empty. }
  assert (Hlen : length (firstn (length pre) (labels_of (pre ++ post)))
                 = length pre).
  { rewrite length_firstn, length_labels_of, length_app. lia. }
  split; [|split; [|split; [|split]]].
  - apply unique_labels_run. unfold zss. rewrite concat_app. cbn [concat app].
    now rewrite <- concat_app.
  - unfold dist_ints. rewrite map_map. cbn [local constructed].
    rewrite <- (map_map snd (of_ints int64)), map_snd_indexed, Hl, map_app.
    cbn [map]. apply nth_error_middle. now rewrite length_map.
  - unfold zss. rewrite counts_of_skip_empty. apply nth_error_middle.
    rewrite length_firstn. unfold counts_of.
    rewrite length_map, length_indexed, length_app. lia.
  - exact Hl.
  - apply counts_of_skip_empty.
Qed.

(** * EmptyRank, pickling and the topology *)

Lemma deliver_EmptyRankType (sender addr receiver : nat) :
  deliver receiver (MInst sender addr) = EmptyRank receiver.
Proof. reflexivity. Qed.

Lemma item_not_EmptyRank (j : nat) (r : row) :
  py_is (deliver j (item r)) (EmptyRank j) = false.
Proof.
  destruct r as [|[z|fs|] [|e r]]; reflexivity.
Qed.

Lemma concat_rev {A : Type} (l : list (list A)) :
  rev (concat l) = concat (map (@rev A) (rev l)).
Proof.
  induction l as [|x l IH]; [reflexivity|].
  cbn [concat rev]. rewrite rev_app_distr, IH, map_app, concat_app.
  cbn [map concat]. now rewrite app_nil_r.
Qed.

Section Topology.
Variables (d : dtype) (zss : list (list Z)).

Let ixs := indexed zss.
Let comm (ix : nat * list Z) : Comm := mk_Comm (fst ix) (length zss).

Lemma firstn_ixs_snd (j : nat) : map snd (firstn j ixs) = firstn j zss.
Proof. unfold ixs. now rewrite <- firstn_map, map_snd_indexed. Qed.

Lemma prev_run :
  run (map (fun ix => prev (of_ints d (snd ix)) (comm ix)) ixs)
  = map (fun ix => Ok (edge_msg (fst ix) (prev_value (firstn (fst ix) zss))))
      ixs.
Proof.
  unfold prev, tails, expect_seq. cbn [bind call rank comm].
  rewrite run_allgather by apply indexed_well_indexed.
  rewrite <- run_ret. apply run_ext. intros ix Hin.
  cbn [as_seq]. rewrite decode_all_Some. cbn [expect bind]. f_equal.
  rewrite (map_ext _ (fun ix' => edge_msg (fst ix) (hd_error (rev (snd ix')))))
    by (intros; apply deliver_tail).
  rewrite firstn_map, <- map_rev.
  rewrite <- (map_map snd (fun zs => edge_msg (fst ix) (hd_error (rev zs)))).
  rewrite map_rev, firstn_ixs_snd.
  rewrite <- (map_map (@rev Z) (fun zs => edge_msg (fst ix) (hd_error zs))).
  rewrite first_nonempty_edges. unfold next_value, prev_value.
  now rewrite concat_rev.
Qed.

Lemma next_run :
  run (map (fun ix => next (of_ints d (snd ix)) (comm ix)) ixs)
  = map (fun ix =>
           Ok (edge_msg (fst ix) (next_value (skipn (fst ix + 1) zss))))
      ixs.
Proof.
  unfold next, heads, expect_seq. cbn [bind call rank comm].
  rewrite run_allgather by apply indexed_well_indexed.
  rewrite <- run_ret. apply run_ext. intros ix Hin.
  cbn [as_seq]. rewrite decode_all_Some. cbn [expect bind]. f_equal.
  rewrite (map_ext _ (fun ix' => edge_msg (fst ix) (hd_error (snd ix'))))
    by (intros; apply deliver_head).
  rewrite <- (map_map snd (fun zs => edge_msg (fst ix) (hd_error zs))).
  rewrite skipn_map. unfold ixs. rewrite map_snd_indexed.
  apply first_nonempty_edges.
Qed.
End Topology.

(** C8.  An [EmptyRankType] instance pickled in one process and unpickled in
    another (or the same) is that process's [EmptyRank] itself, so [is
    EmptyRank] holds for it; no array element is ever [EmptyRank]; and so
    [prev] and [next] return, on every rank, the nearest value held before
    (after) the rank, or [EmptyRank] when no rank there holds anything. *)
Theorem EmptyRank_pickle_identity :
  (forall sender addr receiver,
      deliver receiver (MInst sender addr) = EmptyRank receiver
      /\ py_is (deliver receiver (MInst sender addr)) (EmptyRank receiver) = true)
  /\ (forall pid, loads pid (dumps (EmptyRank pid)) = EmptyRank pid)
  /\ (forall j r, py_is (deliver j (item r)) (EmptyRank j) = false)
  /\ (forall d zss,
        spmd (fun comm zs => prev (of_ints d zs) comm) zss
        = map (fun jz => Ok (edge_msg (fst jz)
                               (prev_value (firstn (fst jz) zss))))
            (indexed zss)
        /\ spmd (fun comm zs => next (of_ints d zs) comm) zss
           = map (fun jz => Ok (edge_msg (fst jz)
                                  (next_value (skipn (fst jz + 1) zss))))
               (indexed zss)).
Proof.
  split; [|split; [|split]].
  - intros s a r. split; [reflexivity|]. cbn. now rewrite !Nat.eqb_refl.
  - reflexivity.
  - apply item_not_EmptyRank.
  - intros d zss. split; [apply prev_run|apply next_run].
Qed.

(** * More on GatherArray: other roots, errors *)

Lemma run_Allgatherv {A X : Type} (ixs : list (nat * X))
  (k : nat * X -> msg -> prog A) (send recv : nat * X -> buf)
  (counts offsets : nat * X -> list Z) :
  well_indexed ixs ->
  run (map (fun ix =>
              Call (Allgatherv (send ix) (recv ix) (counts ix) (offsets ix))
                (k ix)) ixs)
  = run (map (fun ix =>
                continue_with (k ix)
                  (gather_reply (recv ix) (map send ixs) (counts ix)
                     (offsets ix)))
           ixs).
Proof.
  intros Hw.
  rewrite (run_call
             (fun ix => Allgatherv (send ix) (recv ix) (counts ix) (offsets ix))
             k ixs Hw).
  - f_equal. apply map_ext. intros ix. cbn [reply_to].
    now rewrite map_map.
  - now apply calls_match_map.
Qed.

Lemma pendings_not_call {A : Type} (ps : list (prog A)) (p : prog A) :
  In p ps -> (forall c k, p <> Call c k) -> pendings ps = None.
Proof.
  induction ps as [|q ps IH]; intros Hin Hp; [contradiction|].
  destruct Hin as [->|Hin].
  - destruct p as [a|e|c k]; [reflexivity|reflexivity|].
    now elim (Hp c k).
  - cbn [pendings]. destruct q as [a|e|c k]; try reflexivity.
    now rewrite (IH Hin Hp).
Qed.

(** When a rank has left (returned or raised) while others stand at a call,
    no round is played: those stay blocked. *)
Lemma run_not_all_calls {A : Type} (ps : list (prog A)) (p : prog A) :
  In p ps -> (forall c k, p <> Call c k) -> run ps = map settle ps.
Proof.
  destruct ps as [|p0 rest]; [contradiction|]. intros Hin Hp.
  cbn [run map]. destruct p0 as [a|e|c k]; try reflexivity.
  cbn [run_from settle]. destruct Hin as [<-|Hin]; [now elim (Hp c k)|].
  now rewrite (pendings_not_call rest p Hin Hp).
Qed.

Section GatherAnyRoot.
Context {X : Type}.
Variables (ix0 : nat * X) (rest : list (nat * X)) (n : nat) (root : root_t).
Let ixs := ix0 :: rest.
Hypothesis Hw : well_indexed ixs.
Hypothesis Hroot : root_in root (length ixs).

(** A flat array: the rows go to the destination ranks in rank order. *)
Lemma GatherArray_flat_run_at (c : ascii) (sz : nat) (ts : list nat)
  (rws : nat * X -> list row) :
  c <> "O"%char -> c <> "V"%char ->
  run (map (fun ix => GatherArray_nd (DScalar c sz) ts (rws ix)
                        (mk_Comm (fst ix) n) root) ixs)
  = map (fun ix =>
           Ok (if is_dest root (mk_Comm (fst ix) n)
               then MArray (mk_ndarray (DScalar c sz) ts (concat (map rws ixs)))
               else MNone)) ixs.
Proof.
  intros HO HV. cbn [GatherArray_nd]. unfold GatherArray_body.
  cbn [bind call rows arr_dtype tshape shape].
  rewrite run_allgather by exact Hw.
  rewrite run_allgather by exact Hw.
  erewrite run_ext.
  2:{ intros ix Hin. unfold as_seq.
      rewrite (decode_all_map as_shape _ (fun ix' => length (rws ix') :: ts))
        by (intros; rewrite deliver_shape; apply as_shape_shape_msg).
      rewrite (decode_all_map as_dtype _ (fun _ => DScalar c sz))
        by reflexivity.
      cbn [expect bind]. unfold ixs. cbn [map dtype_char].
      replace (Ascii.eqb c "V") with false
        by (symmetry; now apply Ascii.eqb_neq).
      replace (is_object (DScalar c sz)) with false.
      2:{ symmetry. unfold is_object, dtype_O. cbn [dtype_eqb].
          apply andb_false_iff. left. now apply Ascii.eqb_neq. }
      rewrite !existsb_map_false.
      2:{ intros x _. now rewrite dtype_eqb_refl. }
      2:{ intros x _. cbn [tl]. now rewrite list_eqb_nat_refl. }
      reflexivity. }
  rewrite (run_bcast ixs Hw _ _ 0 ix0 eq_refl).
  erewrite run_ext.
  2:{ intros ix Hin.
      replace (unpack2
                 (deliver (fst ix)
                    (if is_dest root (mk_Comm (fst ix0) n)
                     then MTuple [MBool false; MBool false]
                     else MTuple [MNone; MNone])))
        with (Some (if is_dest root (mk_Comm (fst ix0) n)
                    then (MBool false, MBool false) else (MNone, MNone)))
        by (destruct (is_dest root (mk_Comm (fst ix0) n)); reflexivity).
      cbn [expect bind].
      replace (truthy (fst (if is_dest root (mk_Comm (fst ix0) n)
                            then (MBool false, MBool false)
                            else (MNone, MNone))))
        with false by (destruct (is_dest root (mk_Comm (fst ix0) n)); reflexivity).
      replace (truthy (snd (if is_dest root (mk_Comm (fst ix0) n)
                            then (MBool false, MBool false)
                            else (MNone, MNone))))
        with false by (destruct (is_dest root (mk_Comm (fst ix0) n)); reflexivity).
      reflexivity. }
  rewrite (run_allreduce_SUM ixs Hw _ (fun ix => nat_msg (length (rws ix)))
             (Z.of_nat (fold_right Nat.add 0
                          (map (fun ix => length (rws ix)) ixs))))
    by apply sum_msgs_nat.
  erewrite run_ext.
  2:{ intros ix Hin.
      match goal with |- context [MInt (Z.of_nat ?k)] =>
        change (MInt (Z.of_nat k)) with (nat_msg k) end.
      rewrite as_nat_nat_msg. cbn [expect bind]. reflexivity. }
  rewrite run_allgather by exact Hw.
  erewrite run_ext.
  2:{ intros ix Hin. unfold as_seq.
      rewrite (decode_all_map as_int _
                 (fun ix' => Z.of_nat (length (rws ix'))))
        by reflexivity.
      cbn [expect bind]. reflexivity. }
  assert (Hg : gather_reply
                 (mk_buf (duplicity ts * dtype_itemsize (DScalar c sz))
                    (rows (np_empty
                             (fold_right Nat.add 0
                                (map (fun ix => length (rws ix)) ixs))
                             ts (DScalar c sz))))
                 (map (fun ix => mk_buf
                                   (duplicity ts * dtype_itemsize (DScalar c sz))
                                   (rws ix)) ixs)
                 (map (fun ix => Z.of_nat (length (rws ix))) ixs)
                 (offsets_of (map (fun ix => Z.of_nat (length (rws ix))) ixs))
               = RMsg (MBuffer (concat (map rws ixs)))).
  { unfold np_empty. cbn [rows].
    pose proof (gather_reply_concat
                  (duplicity ts * dtype_itemsize (DScalar c sz))
                  (fold_right Nat.add 0 (map (fun ix => length (rws ix)) ixs))
                  (repeat (uninit (DScalar c sz)) (duplicity ts))
                  (map (fun ix => mk_buf
                                    (duplicity ts * dtype_itemsize (DScalar c sz))
                                    (rws ix)) ixs)) as Hg.
    rewrite !map_map in Hg. cbn [records] in Hg. apply Hg.
    - apply Forall_forall. intros s Hs. apply in_map_iff in Hs.
      now destruct Hs as [ix' [<- _]].
    - now rewrite length_concat_sum. }
  destruct root as [rt|].
  - rewrite run_Gatherv by exact Hw.
    rewrite <- run_ret. apply run_ext. intros ix Hin.
    cbn [is_dest rank root_in] in Hroot |- *.
    replace (Nat.ltb rt (length ixs)) with true
      by (symmetry; apply Nat.ltb_lt; exact Hroot).
    destruct (Nat.eqb (fst ix) rt) eqn:E; [|reflexivity].
    unfold ixs in Hg |- *. now rewrite Hg.
  - rewrite run_Allgatherv by exact Hw.
    rewrite <- run_ret. apply run_ext. intros ix Hin.
    unfold ixs in Hg |- *. now rewrite Hg.
Qed.
Lemma gather_fields_run_at (fs : list (string * dtype)) (ts : list nat)
  (rws : nat * X -> list row) :
  NoDup (map fst fs) ->
  Forall (fun nd => gathered_at root n ixs ts (snd nd)) fs ->
  (forall ix, In ix ixs -> Forall (row_ok (DStruct fs) ts) (rws ix)) ->
  forall todo donefs,
    fs = donefs ++ todo ->
    run (map (fun ix =>
                gather_fields
                  (map (fun nd =>
                          (fst nd,
                           GatherArray_nd (snd nd) ts
                             (map (map (get_field (fst nd))) (rws ix))
                             (mk_Comm (fst ix) n) root)) fs)
                  (is_dest root (mk_Comm (fst ix) n)) (map fst todo)
                  (gather_state_at (is_dest root (mk_Comm (fst ix) n))
                     (DStruct fs) ts (map fst donefs)
                     (concat (map rws ixs)))) ixs)
    = map (fun ix =>
             Ok (gather_state_at (is_dest root (mk_Comm (fst ix) n))
                   (DStruct fs) ts (map fst fs) (concat (map rws ixs)))) ixs.
Proof.
  intros Hnd Hfs Hrows.
  induction todo as [|[name d'] todo IH]; intros donefs E.
  - rewrite app_nil_r in E. subst donefs. cbn [map gather_fields].
    exact (run_ret (fun ix => gather_state_at
                                (is_dest root (mk_Comm (fst ix) n))
                                (DStruct fs) ts (map fst fs)
                                (concat (map rws ixs))) ixs).
  - assert (Hin : In (name, d') fs).
    { rewrite E. apply in_or_app. right. now left. }
    cbn [map gather_fields fst].
    erewrite run_ext.
    2:{ intros ix _.
        rewrite (assoc_map_snd
                   (fun nm dd => GatherArray_nd dd ts
                                   (map (map (get_field nm)) (rws ix))
                                   (mk_Comm (fst ix) n) root)).
        rewrite (In_assoc name fs d' Hnd Hin). reflexivity. }
    rewrite Forall_forall in Hfs. pose proof (Hfs _ Hin) as Hd'.
    cbn [snd] in Hd'.
    specialize (Hd' (fun ix => map (map (get_field name)) (rws ix))).
    refine (eq_trans (run_bind_ok _ _ _ ixs (Hd' _)) _).
    + intros ix Hix. apply Forall_forall. intros r Hr.
      apply in_map_iff in Hr. destruct Hr as [r0 [<- Hr0]].
      pose proof (Hrows ix Hix) as Hrw. rewrite Forall_forall in Hrw.
      destruct (Hrw _ Hr0) as [Hlen Hcells]. split.
      * now rewrite length_map.
      * apply Forall_forall. intros c Hc. apply in_map_iff in Hc.
        destruct Hc as [c0 [<- Hc0]]. rewrite Forall_forall in Hcells.
        exact (has_dtype_field fs name d' c0 Hnd Hin (Hcells _ Hc0)).
    + refine (eq_trans _ (IH (donefs ++ [(name, d')]) _)).
      2:{ now rewrite <- app_assoc. }
      apply run_ext. intros ix _. unfold gather_state_at.
      destruct (is_dest root (mk_Comm (fst ix) n)); [|reflexivity].
      rewrite concat_map_map. unfold setitem_field.
      unfold shape. cbn [rows tshape arr_dtype]. rewrite !length_map.
      rewrite list_eqb_nat_refl. do 3 f_equal.
      rewrite zip_with_map. apply map_ext. intros r.
      rewrite zip_with_map. apply map_ext. intros c.
      rewrite map_app. cbn [map fst]. now rewrite filled_snoc.
Qed.

(** Arrays of any transmissible dtype, gathered to any root. *)
Lemma GatherArray_run_at (ts : list nat) (d : dtype) :
  transmissible d -> gathered_at root n ixs ts d.
Proof.
  induction d as [c sz|fs IHfs] using dtype_ind'.
  - intros [HO HV] rws _. now apply GatherArray_flat_run_at.
  - intros Ht rws Hrows. apply transmissible_struct in Ht.
    destruct Ht as [Hnd Hall].
    assert (Hfs : Forall (fun nd => gathered_at root n ixs ts (snd nd)) fs).
    { rewrite Forall_forall in *. intros nd Hin. apply IHfs; auto. }
    assert (HG : Forall (row_ok (DStruct fs) ts) (concat (map rws ixs))).
    { now apply Forall_concat_map. }
    erewrite run_ext by (intros; apply GatherArray_nd_struct).
    unfold GatherArray_body. cbn [bind call rows arr_dtype tshape shape].
    rewrite run_allgather by exact Hw.
    rewrite run_allgather by exact Hw.
    erewrite run_ext.
    2:{ intros ix Hin. unfold as_seq.
        rewrite (decode_all_map as_shape _ (fun ix' => length (rws ix') :: ts))
          by (intros; rewrite deliver_shape; apply as_shape_shape_msg).
        rewrite (decode_all_map as_dtype _ (fun _ => DStruct fs))
          by reflexivity.
        cbn [expect bind]. unfold ixs. cbn [map dtype_char dtype_names].
        rewrite Ascii.eqb_refl, any_names_differ_same.
        rewrite (no_object_field fs Hall). reflexivity. }
    rewrite (run_allreduce_SUM ixs Hw _ (fun ix => nat_msg (length (rws ix)))
               (Z.of_nat (fold_right Nat.add 0
                            (map (fun ix => length (rws ix)) ixs))))
      by apply sum_msgs_nat.
    erewrite run_ext.
    2:{ intros ix Hin.
        match goal with |- context [MInt (Z.of_nat ?k)] =>
          change (MInt (Z.of_nat k)) with (nat_msg k) end.
        rewrite as_nat_nat_msg. cbn [expect bind]. reflexivity. }
    refine (eq_trans _ (eq_trans
              (gather_fields_run_at fs ts rws Hnd Hfs Hrows fs [] eq_refl) _)).
    + apply run_ext. intros ix _. f_equal. unfold gather_state_at.
      destruct (is_dest root (mk_Comm (fst ix) n)); [|reflexivity].
      unfold np_empty, filled. cbn [map fold_left]. do 2 f_equal.
      rewrite <- length_concat_sum. symmetry. apply map_map_const.
      eapply Forall_impl; [|exact HG]. now intros r [Hl _].
    + apply map_ext. intros ix. unfold gather_state_at.
      destruct (is_dest root (mk_Comm (fst ix) n)); [|reflexivity].
      do 3 f_equal.
      apply map_map_id. eapply Forall_impl; [|exact HG].
      intros r [_ Hc]. eapply Forall_impl; [|exact Hc].
      intros c Hcd. now apply filled_all.
Qed.
End GatherAnyRoot.

Lemma GatherArray_spmd_at (locals : list ndarray) (d : dtype) (ts : list nat)
  (root : root_t) :
  locals <> [] ->
  transmissible d ->
  Forall (array_ok d ts) locals ->
  root_in root (length locals) ->
  spmd (fun comm a => GatherArray (MArray a) comm root) locals
  = map (fun ix =>
           Ok (if is_dest root (mk_Comm (fst ix) (length locals))
               then MArray (mk_ndarray d ts (global_rows locals))
               else MNone)) (indexed locals).
Proof.
  intros Hne Ht Hok Hroot. unfold spmd.
  pose proof (indexed_well_indexed locals) as Hw.
  rewrite <- (length_indexed locals) in Hroot.
  assert (Hix : forall ix, In ix (indexed locals) -> array_ok d ts (snd ix)).
  { intros ix Hin. rewrite Forall_forall in Hok.
    apply Hok. now apply In_indexed_snd. }
  assert (HG : global_rows locals
               = concat (map (fun ix : nat * ndarray => rows (snd ix))
                           (indexed locals))).
  { unfold global_rows. now rewrite <- (map_map snd rows), map_snd_indexed. }
  rewrite HG. clear HG.
  destruct (indexed_nonempty locals Hne) as [ix0 [rest E]].
  revert Hw Hroot Hix. rewrite E. generalize (length locals) as n.
  intros n Hw Hroot Hix.
  erewrite run_ext.
  2:{ intros ix Hin. destruct (Hix ix Hin) as [Hd [Hts _]].
      unfold GatherArray. rewrite Hd, Hts. reflexivity. }
  apply (GatherArray_run_at ix0 rest n root Hw Hroot ts d Ht
           (fun ix => rows (snd ix))).
  intros ix Hin. now destruct (Hix ix Hin) as [_ [_ Hr]].
Qed.

(** X1.  [GatherArray(data, comm, root=r)] for any rank [r] of the
    communicator, on the local parts of one striped array (one dtype, flat
    or compound, one trailing shape): rank [r] receives the rows of all
    ranks in rank order, every other rank receives [None].  The broadcast of
    the validation flags from rank 0 does no harm when the inputs agree. *)
Theorem GatherArray_to_any_root (locals : list ndarray) (d : dtype)
  (ts : list nat) (r : nat) :
  r < length locals ->
  transmissible d ->
  Forall (array_ok d ts) locals ->
  spmd (fun comm a => GatherArray (MArray a) comm (Rank r)) locals
  = map (fun ix =>
           Ok (if Nat.eqb (fst ix) r
               then MArray (mk_ndarray d ts (global_rows locals))
               else MNone)) (indexed locals).
Proof.
  intros Hr Ht Hok.
  apply (GatherArray_spmd_at locals d ts (Rank r)); auto.
  intros ->. cbn in Hr. lia.
Qed.

(** X2.  [GatherArray(data, comm, root=Ellipsis)] on the local parts of one
    striped array returns on every rank the rows of all ranks in rank
    order. *)
Theorem GatherArray_Ellipsis_all_ranks (locals : list ndarray) (d : dtype)
  (ts : list nat) :
  locals <> [] ->
  transmissible d ->
  Forall (array_ok d ts) locals ->
  spmd (fun comm a => GatherArray (MArray a) comm Ellipsis) locals
  = map (fun _ => Ok (MArray (mk_ndarray d ts (global_rows locals)))) locals.
Proof.
  intros Hne Ht Hok.
  rewrite (GatherArray_spmd_at locals d ts Ellipsis Hne Ht Hok I).
  cbn [is_dest].
  transitivity (map (fun a : ndarray =>
                       @Ok msg (MArray (mk_ndarray d ts (global_rows locals))))
                  (map snd (indexed locals))).
  - now rewrite map_map.
  - now rewrite map_snd_indexed.
Qed.

(** ** What GatherArray raises *)

Lemma GatherArray_unfold (a : ndarray) (comm : Comm) (root : root_t) :
  GatherArray (MArray a) comm root
  = GatherArray_body (field_calls a comm root) a comm root.
Proof.
  destruct a as [d ts rs]. unfold GatherArray, field_calls.
  cbn [arr_dtype tshape rows].
  destruct d as [c sz|fs]; [reflexivity|apply GatherArray_nd_struct].
Qed.

Lemma existsb_map {A B : Type} (p : B -> bool) (f : A -> B) (l : list A) :
  existsb p (map f l) = existsb (fun x => p (f x)) l.
Proof.
  induction l as [|x l IH]; [reflexivity|]. cbn [map existsb]. now rewrite IH.
Qed.

Lemma set_eqb_spec (l m : list string) :
  set_eqb l m = true <-> same_set l m.
Proof.
  unfold set_eqb, same_set. rewrite andb_true_iff, !forallb_forall. split.
  - intros [H1 H2] x. split; intros Hx.
    + apply H1 in Hx. apply existsb_exists in Hx.
      destruct Hx as [y [Hy E]]. apply String.eqb_eq in E. now subst.
    + apply H2 in Hx. apply existsb_exists in Hx.
      destruct Hx as [y [Hy E]]. apply String.eqb_eq in E. now subst.
  - intros H. split; intros x Hx; apply existsb_exists; exists x;
      (split; [now apply H|apply String.eqb_refl]).
Qed.

Lemma any_names_differ_found (names : list string) (dts : list dtype) :
  Forall (fun dt => dtype_names dt <> None) dts ->
  (exists dt ns, In dt dts /\ dtype_names dt = Some ns
                 /\ ~ same_set ns names) ->
  any_names_differ names dts = Some true.
Proof.
  induction 1 as [|dt dts Hdt Hall IH]; intros [dt' [ns [Hin [Hns Hd]]]];
    [contradiction|].
  cbn [any_names_differ].
  destruct (dtype_names dt) as [ns0|] eqn:E; [|now elim Hdt].
  destruct (set_eqb ns0 names) eqn:Es; [|reflexivity]. cbn [negb].
  apply IH. destruct Hin as [->|Hin].
  - rewrite Hns in E. injection E as ->.
    apply set_eqb_spec in Es. now elim Hd.
  - now exists dt', ns.
Qed.

Lemma any_names_differ_none (names : list string) (dts : list dtype) :
  Forall (fun dt => exists ns, dtype_names dt = Some ns /\ same_set ns names)
    dts ->
  any_names_differ names dts = Some false.
Proof.
  induction 1 as [|dt dts [ns [Hns Hsame]] _ IH]; [reflexivity|].
  cbn [any_names_differ]. rewrite Hns.
  apply set_eqb_spec in Hsame. now rewrite Hsame.
Qed.

Section GatherErrors.
Context {X : Type}.
Variables (ix0 : nat * X) (rest : list (nat * X)) (n : nat) (root : root_t).
Variable loc : nat * X -> ndarray.
Variable subs : nat * X -> list (string * prog msg).
Let ixs := ix0 :: rest.
Hypothesis Hw : well_indexed ixs.

Ltac gather_checks :=
  unfold GatherArray_body; cbn [bind call];
  rewrite run_allgather by exact Hw;
  rewrite run_allgather by exact Hw;
  erewrite run_ext;
  [|intros ? ?; unfold as_seq;
    rewrite (decode_all_map as_shape _ (fun ix' => shape (loc ix')))
      by (intros; rewrite deliver_shape; apply as_shape_shape_msg);
    rewrite (decode_all_map as_dtype _ (fun ix' => arr_dtype (loc ix')))
      by reflexivity;
    cbn [expect bind]; unfold ixs; cbn [map]; reflexivity].

(** Rank 0 holds an object array. *)
Lemma GatherArray_object_run :
  arr_dtype (loc ix0) = dtype_O ->
  run (map (fun ix => GatherArray_body (subs ix) (loc ix)
                        (mk_Comm (fst ix) n) root) ixs)
  = map (fun _ => Raised object_in_gather) ixs.
Proof.
  intros HO. gather_checks. rewrite HO.
  exact (run_raise (fun _ => object_in_gather) ixs).
Qed.

(** Rank 0 holds a structured array, another rank other field names. *)
Lemma GatherArray_fields_run (fs : list (string * dtype)) :
  arr_dtype (loc ix0) = DStruct fs ->
  (forall ix, In ix rest -> dtype_names (arr_dtype (loc ix)) <> None) ->
  (exists ix ns, In ix rest /\ dtype_names (arr_dtype (loc ix)) = Some ns
                 /\ ~ same_set ns (map fst fs)) ->
  run (map (fun ix => GatherArray_body (subs ix) (loc ix)
                        (mk_Comm (fst ix) n) root) ixs)
  = map (fun _ => Raised field_mismatch) ixs.
Proof.
  intros Hfs Hall [ixd [ns [Hin [Hns Hd]]]]. gather_checks. rewrite Hfs.
  cbn [dtype_char dtype_names]. rewrite Ascii.eqb_refl.
  rewrite any_names_differ_found.
  - exact (run_raise (fun _ => field_mismatch) ixs).
  - apply Forall_forall. intros dt Hdt. apply in_map_iff in Hdt.
    destruct Hdt as [ix [<- Hix]]. now apply Hall.
  - exists (arr_dtype (loc ixd)), ns. split; [|now split].
    apply in_map_iff. now exists ixd.
Qed.

(** Rank 0 holds a flat array and is a destination: its flags reach every
    rank. *)
Lemma GatherArray_flags_run :
  dtype_char (arr_dtype (loc ix0)) <> "V"%char ->
  arr_dtype (loc ix0) <> dtype_O ->
  is_dest root (mk_Comm (fst ix0) n) = true ->
  let bad_shape :=
    existsb (fun ix => negb (list_eqb Nat.eqb (tshape (loc ix))
                               (tshape (loc ix0)))) rest in
  let bad_dtype :=
    existsb (fun ix => negb (dtype_eqb (arr_dtype (loc ix))
                               (arr_dtype (loc ix0)))) rest in
  bad_shape || bad_dtype = true ->
  run (map (fun ix => GatherArray_body (subs ix) (loc ix)
                        (mk_Comm (fst ix) n) root) ixs)
  = map (fun _ => Raised (if bad_shape then shape_mismatch
                          else dtype_mismatch)) ixs.
Proof.
  intros HV HO Hdest bad_shape bad_dtype Hbad. gather_checks.
  replace (Ascii.eqb (dtype_char (arr_dtype (loc ix0))) "V") with false
    by (symmetry; now apply Ascii.eqb_neq).
  replace (is_object (arr_dtype (loc ix0))) with false
    by (symmetry; now apply dtype_eqb_neq).
  rewrite (run_bcast ixs Hw _ _ 0 ix0 eq_refl).
  rewrite Hdest. rewrite !existsb_map. unfold shape. cbn [tl].
  fold bad_shape. fold bad_dtype.
  cbn [deliver dumps loads map unpack2 expect bind fst snd truthy].
  destruct bad_shape.
  - exact (run_raise (fun _ => shape_mismatch) ixs).
  - cbn [orb] in Hbad. rewrite Hbad.
    exact (run_raise (fun _ => dtype_mismatch) ixs).
Qed.

(** Rank 0 holds a structured array with a field of object dtype, the other
    ranks structured arrays of the same field names. *)
Lemma GatherArray_object_field_run (fs : list (string * dtype)) :
  arr_dtype (loc ix0) = DStruct fs ->
  (forall ix, In ix rest ->
     exists ns, dtype_names (arr_dtype (loc ix)) = Some ns
                /\ same_set ns (map fst fs)) ->
  any_object_field (DStruct fs) (map fst fs) = true ->
  run (map (fun ix => GatherArray_body (subs ix) (loc ix)
                        (mk_Comm (fst ix) n) root) ixs)
  = map (fun _ => Raised object_in_gather) ixs.
Proof.
  intros Hfs Hall Hobj. gather_checks. rewrite Hfs.
  cbn [dtype_char dtype_names]. rewrite Ascii.eqb_refl.
  rewrite any_names_differ_none.
  - rewrite Hobj. exact (run_raise (fun _ => object_in_gather) ixs).
  - apply Forall_forall. intros dt Hdt. apply in_map_iff in Hdt.
    destruct Hdt as [ix [<- Hix]]. now apply Hall.
Qed.
End GatherErrors.

Lemma map_const_length {A B C : Type} (c : C) (l : list A) (m : list B) :
  length l = length m -> map (fun _ => c) l = map (fun _ => c) m.
Proof.
  revert m; induction l as [|x l IH]; intros [|y m] H; try discriminate;
    [reflexivity|].
  cbn [map]. f_equal. apply IH. now injection H.
Qed.

Lemma In_shifted {X : Type} (xs : list X) (ix : nat * X) :
  In ix (map (fun ix => (S (fst ix), snd ix)) (indexed xs)) -> In (snd ix) xs.
Proof.
  intros H. apply in_map_iff in H. destruct H as [jx [<- Hj]].
  cbn [snd]. now apply In_indexed_snd.
Qed.

Lemma shifted_In {X : Type} (xs : list X) (x : X) :
  In x xs ->
  exists ix, In ix (map (fun ix => (S (fst ix), snd ix)) (indexed xs))
             /\ snd ix = x.
Proof.
  intros H. rewrite <- (map_snd_indexed xs) in H. apply in_map_iff in H.
  destruct H as [jx [<- Hj]]. exists (S (fst jx), snd jx). split; [|reflexivity].
  apply in_map_iff. now exists jx.
Qed.

Lemma GatherArray_spmd_body (a0 : ndarray) (others : list ndarray)
  (root : root_t) :
  spmd (fun comm a => GatherArray (MArray a) comm root) (a0 :: others)
  = run (map (fun ix =>
                GatherArray_body
                  (field_calls (snd ix)
                     (mk_Comm (fst ix) (length (a0 :: others))) root)
                  (snd ix) (mk_Comm (fst ix) (length (a0 :: others))) root)
           ((0, a0) :: map (fun ix => (S (fst ix), snd ix)) (indexed others))).
Proof.
  unfold spmd. rewrite <- indexed_cons. apply run_ext.
  intros ix _. apply GatherArray_unfold.
Qed.

Lemma shifted_well_indexed {X : Type} (x : X) (xs : list X) :
  well_indexed ((0, x) :: map (fun ix => (S (fst ix), snd ix)) (indexed xs)).
Proof. rewrite <- indexed_cons. apply indexed_well_indexed. Qed.

Lemma shifted_length {X : Type} (x : X) (xs : list X) :
  length ((0, x) :: map (fun ix => (S (fst ix), snd ix)) (indexed xs))
  = length (x :: xs).
Proof. cbn [length]. now rewrite length_map, length_indexed. Qed.

(** X3.  Rank 0 holds a flat (not structured, not object) array, every rank
    has its trailing shape, and some other rank holds an array of another
    dtype.  With [root=0] or [root=Ellipsis], every rank raises the
    [ValueError] of the dtype mismatch: none is left blocked, none
    returns. *)
Theorem GatherArray_dtype_mismatch_raises (a0 : ndarray)
  (others : list ndarray) (root : root_t) :
  root = Rank 0 \/ root = Ellipsis ->
  dtype_char (arr_dtype a0) <> "V"%char ->
  arr_dtype a0 <> dtype_O ->
  (forall a, In a others -> tshape a = tshape a0) ->
  (exists a, In a others /\ arr_dtype a <> arr_dtype a0) ->
  spmd (fun comm a => GatherArray (MArray a) comm root) (a0 :: others)
  = map (fun _ => Raised dtype_mismatch) (a0 :: others).
Proof.
  intros Hroot HV HO Hts [a [Hin Hd]]. rewrite GatherArray_spmd_body.
  pose proof (GatherArray_flags_run (0, a0) _ (length (a0 :: others)) root snd
                (fun ix => field_calls (snd ix)
                             (mk_Comm (fst ix) (length (a0 :: others))) root)
                (shifted_well_indexed a0 others) HV HO) as H.
  cbn [snd fst] in H.
  assert (Hs : existsb (fun ix : nat * ndarray =>
                          negb (list_eqb Nat.eqb (tshape (snd ix)) (tshape a0)))
                 (map (fun ix => (S (fst ix), snd ix)) (indexed others))
               = false).
  { apply not_true_is_false. intros E. apply existsb_exists in E.
    destruct E as [ix [Hix E]]. apply In_shifted in Hix.
    rewrite (Hts _ Hix), list_eqb_nat_refl in E. discriminate. }
  assert (Hb : existsb (fun ix : nat * ndarray =>
                          negb (dtype_eqb (arr_dtype (snd ix)) (arr_dtype a0)))
                 (map (fun ix => (S (fst ix), snd ix)) (indexed others))
               = true).
  { apply existsb_exists. destruct (shifted_In others a Hin) as [ix [Hix <-]].
    exists ix. split; [exact Hix|]. now rewrite dtype_eqb_neq. }
  rewrite Hs, Hb in H. rewrite H.
  - apply map_const_length, shifted_length.
  - destruct Hroot as [-> | ->]; reflexivity.
  - reflexivity.
Qed.

(** X4.  Rank 0 holds a flat array and some other rank an array of another
    trailing shape.  With [root=0] or [root=Ellipsis], every rank raises the
    [ValueError] of the shape mismatch, whatever the dtypes of the other
    ranks are: the shape is reported first. *)
Theorem GatherArray_shape_mismatch_raises (a0 : ndarray)
  (others : list ndarray) (root : root_t) :
  root = Rank 0 \/ root = Ellipsis ->
  dtype_char (arr_dtype a0) <> "V"%char ->
  arr_dtype a0 <> dtype_O ->
  (exists a, In a others /\ tshape a <> tshape a0) ->
  spmd (fun comm a => GatherArray (MArray a) comm root) (a0 :: others)
  = map (fun _ => Raised shape_mismatch) (a0 :: others).
Proof.
  intros Hroot HV HO [a [Hin Hd]]. rewrite GatherArray_spmd_body.
  pose proof (GatherArray_flags_run (0, a0) _ (length (a0 :: others)) root snd
                (fun ix => field_calls (snd ix)
                             (mk_Comm (fst ix) (length (a0 :: others))) root)
                (shifted_well_indexed a0 others) HV HO) as H.
  cbn [snd fst] in H.
  assert (Hs : existsb (fun ix : nat * ndarray =>
                          negb (list_eqb Nat.eqb (tshape (snd ix)) (tshape a0)))
                 (map (fun ix => (S (fst ix), snd ix)) (indexed others))
               = true).
  { apply existsb_exists. destruct (shifted_In others a Hin) as [ix [Hix <-]].
    exists ix. split; [exact Hix|].
    destruct (list_eqb Nat.eqb (tshape (snd ix)) (tshape a0)) eqn:E;
      [|reflexivity].
    apply list_eqb_nat_eq in E. now elim Hd. }
  rewrite Hs in H. rewrite H.
  - apply map_const_length, shifted_length.
  - destruct Hroot as [-> | ->]; reflexivity.
  - reflexivity.
Qed.

(** X5.  When rank 0 holds an array of object dtype, [GatherArray] raises
    its [ValueError] on every rank, for every [root] and whatever arrays the
    other ranks hold: only the dtype of rank 0 is looked at. *)
Theorem GatherArray_object_dtype_raises (a0 : ndarray)
  (others : list ndarray) (root : root_t) :
  arr_dtype a0 = dtype_O ->
  spmd (fun comm a => GatherArray (MArray a) comm root) (a0 :: others)
  = map (fun _ => Raised object_in_gather) (a0 :: others).
Proof.
  intros HO. rewrite GatherArray_spmd_body.
  rewrite (GatherArray_object_run (0, a0) _ (length (a0 :: others)) root snd
             _ (shifted_well_indexed a0 others) HO).
  apply map_const_length, shifted_length.
Qed.

(** X6.  Rank 0 holds a structured array, the other ranks hold structured
    arrays too, and the field names of one of them are not, as a set, those
    of rank 0: every rank raises the [ValueError] of the field mismatch, for
    every [root]. *)
Theorem GatherArray_field_mismatch_raises (a0 : ndarray)
  (others : list ndarray) (root : root_t) (fs : list (string * dtype)) :
  arr_dtype a0 = DStruct fs ->
  (forall a, In a others -> exists gs, arr_dtype a = DStruct gs) ->
  (exists a gs, In a others /\ arr_dtype a = DStruct gs
                /\ ~ same_set (map fst gs) (map fst fs)) ->
  spmd (fun comm a => GatherArray (MArray a) comm root) (a0 :: others)
  = map (fun _ => Raised field_mismatch) (a0 :: others).
Proof.
  intros Hfs Hall [a [gs [Hin [Hgs Hd]]]]. rewrite GatherArray_spmd_body.
  rewrite (GatherArray_fields_run (0, a0) _ (length (a0 :: others)) root snd
             _ (shifted_well_indexed a0 others) fs Hfs).
  - apply map_const_length, shifted_length.
  - intros ix Hix. apply In_shifted in Hix.
    destruct (Hall _ Hix) as [gs' ->]. discriminate.
  - destruct (shifted_In others a Hin) as [ix [Hix <-]].
    exists ix, (map fst gs). split; [exact Hix|]. rewrite Hgs. now split.
Qed.

Lemma GatherArray_settle (v : msg) (comm : Comm) (root : root_t) :
  settle (GatherArray v comm root)
  = match v with
    | MArray _ => Hang
    | _ => Raised not_an_array
    end.
Proof.
  destruct v; try reflexivity. now rewrite GatherArray_unfold.
Qed.

(** X7.  [GatherArray] tests its own argument before it communicates: when
    some rank passes something that is not an array, that rank raises
    [ValueError] at once and every rank that passed an array is left blocked
    in the first collective call. *)
Theorem GatherArray_not_array_blocks (datas : list msg) (root : root_t) :
  (exists v, In v datas /\ forall a, v <> MArray a) ->
  spmd (fun comm v => GatherArray v comm root) datas
  = map (fun v => match v with
                  | MArray _ => Hang
                  | _ => Raised not_an_array
                  end) datas.
Proof.
  intros [v [Hin Hv]]. unfold spmd.
  rewrite <- (map_snd_indexed datas) in Hin. apply in_map_iff in Hin.
  destruct Hin as [ix [<- Hix]].
  rewrite (run_not_all_calls _
             (GatherArray (snd ix) (mk_Comm (fst ix) (length datas)) root)).
  - rewrite map_map.
    transitivity (map (fun v => match v with
                                | MArray _ => @Hang msg
                                | _ => Raised not_an_array
                                end) (map snd (indexed datas))).
    + rewrite map_map. apply map_ext. intros jx. apply GatherArray_settle.
    + now rewrite map_snd_indexed.
  - apply in_map_iff. now exists ix.
  - intros c k E. destruct (snd ix) as [| | | | |a| |]; try discriminate.
    now elim (Hv a).
Qed.

(** X26.  Rank 0 holds a structured array one of whose fields has object
    dtype, and the other ranks hold structured arrays with the same set of
    field names: [GatherArray] raises the [ValueError] of the object dtype on
    every rank, for every [root], before any row is moved. *)
Theorem GatherArray_object_field_raises (a0 : ndarray)
  (others : list ndarray) (root : root_t) (fs : list (string * dtype))
  (name : string) :
  arr_dtype a0 = DStruct fs ->
  NoDup (map fst fs) ->
  In (name, dtype_O) fs ->
  (forall a, In a others ->
     exists gs, arr_dtype a = DStruct gs
                /\ same_set (map fst gs) (map fst fs)) ->
  spmd (fun comm a => GatherArray (MArray a) comm root) (a0 :: others)
  = map (fun _ => Raised object_in_gather) (a0 :: others).
Proof.
  intros Hfs Hnd Hin Hall. rewrite GatherArray_spmd_body.
  rewrite (GatherArray_object_field_run (0, a0) _ (length (a0 :: others)) root
             snd _ (shifted_well_indexed a0 others) fs Hfs).
  - apply map_const_length, shifted_length.
  - intros ix Hix. apply In_shifted in Hix.
    destruct (Hall _ Hix) as [gs [-> Hsame]]. now exists (map fst gs).
  - unfold any_object_field. apply existsb_exists. exists name. split.
    + apply in_map_iff. now exists (name, dtype_O).
    + cbn [dtype_field]. now rewrite (In_assoc name fs dtype_O Hnd Hin).
Qed.

(** * More on ScatterArray: default counts, errors *)

Lemma concat_split_by {A : Type} (counts : list nat) :
  forall l : list A, sum_nat counts = length l -> concat (split_by counts l) = l.
Proof.
  unfold sum_nat.
  induction counts as [|c counts IH]; intros l H; cbn [fold_right] in H.
  - destruct l; [reflexivity|discriminate].
  - cbn [split_by concat]. rewrite IH.
    + apply firstn_skipn.
    + rewrite length_skipn. lia.
Qed.

Lemma length_split_by {A : Type} (counts : list nat) :
  forall l : list A,
    sum_nat counts <= length l -> map (@length A) (split_by counts l) = counts.
Proof.
  unfold sum_nat.
  induction counts as [|c counts IH]; intros l H; cbn [fold_right] in H;
    [reflexivity|].
  cbn [split_by map]. rewrite IH by (rewrite length_skipn; lia).
  f_equal. rewrite length_firstn. lia.
Qed.

Lemma Forall_firstn_skipn {A : Type} (P : A -> Prop) (c : nat) (l : list A) :
  Forall P l -> Forall P (firstn c l) /\ Forall P (skipn c l).
Proof.
  intros H. rewrite <- (firstn_skipn c l) in H. now apply Forall_app in H.
Qed.

Lemma Forall_split_by {A : Type} (P : A -> Prop) (counts : list nat) :
  forall l : list A, Forall P l -> Forall (Forall P) (split_by counts l).
Proof.
  induction counts as [|c counts IH]; intros l H; cbn [split_by];
    constructor.
  - now apply Forall_firstn_skipn.
  - apply IH. now apply (Forall_firstn_skipn P c l).
Qed.

Lemma sum_below (q m k : nat) :
  sum_nat (map (fun r => q + (if Nat.ltb r m then 1 else 0)) (seq 0 k))
  = k * q + Nat.min k m.
Proof.
  unfold sum_nat. induction k as [|k IH]; [reflexivity|].
  rewrite seq_S, map_app, fold_right_app. cbn [map fold_right Nat.add].
  rewrite Nat.add_0_r.
  assert (G : forall (l : list nat) (a : nat),
             fold_right Nat.add a l = fold_right Nat.add 0 l + a).
  { induction l as [|x l IHl]; intros a; cbn [fold_right]; [lia|].
    rewrite IHl. lia. }
  rewrite G, IH.
  destruct (Nat.ltb_spec k m); lia.
Qed.

Lemma sum_even_counts (L N : nat) : 0 < N -> sum_nat (even_counts L N) = L.
Proof.
  intros HN. unfold even_counts. rewrite sum_below.
  pose proof (Nat.mod_upper_bound L N ltac:(lia)) as Hm.
  rewrite Nat.min_r by lia.
  pose proof (Nat.div_mod_eq L N) as E. lia.
Qed.

Lemma length_even_counts (L N : nat) : length (even_counts L N) = N.
Proof. unfold even_counts. now rewrite length_map, length_seq. Qed.

Lemma zip_with_snd {A B C : Type} (f : B -> C) (l : list A) (m : list B) :
  length m = length l -> zip_with (fun _ y => f y) l m = map f m.
Proof.
  revert m; induction l as [|x l IH]; intros [|y m] H; try discriminate;
    [reflexivity|].
  cbn [zip_with map]. f_equal. apply IH. now injection H.
Qed.

Lemma map_nth_fst {X Y W : Type} (f : Y -> W) (dflt : Y)
  (ixs : list (nat * X)) (l : list Y) :
  well_indexed ixs -> length l = length ixs ->
  map (fun ix => f (nth (fst ix) l dflt)) ixs = map f l.
Proof.
  intros Hw Hl.
  rewrite (map_nth_indexed (fun _ y => f y) dflt ixs l Hw Hl).
  now apply zip_with_snd.
Qed.

Lemma nth_map_seq {B : Type} (f : nat -> B) (n j : nat) (d : B) :
  j < n -> nth j (map f (seq 0 n)) d = f j.
Proof.
  intros H.
  rewrite (nth_indep _ d (f 0)) by (rewrite length_map, length_seq; lia).
  rewrite map_nth. now rewrite seq_nth.
Qed.

Lemma shape_and_dtype_of {B : Type} (b : bool) (v : msg) (a : ndarray)
  (k : msg -> prog B) :
  (b = true -> v = MArray a) ->
  bind (if b then
          match v with
          | MArray a => Ret (MTuple [shape_msg (shape a); MDtype (arr_dtype a)])
          | _ => Raise (Exn AttributeError "object has no attribute 'flags'")
          end
        else Ret MNone) k
  = k (if b then MTuple [shape_msg (shape a); MDtype (arr_dtype a)] else MNone).
Proof. intros H. destruct b; [rewrite H by reflexivity|]; reflexivity. Qed.

Lemma sum_nat_to_nat (cs : list Z) :
  Forall (fun c => 0 <= c)%Z cs -> Z.of_nat (sum_nat (map Z.to_nat cs)) = sum_Z cs.
Proof.
  unfold sum_nat, sum_Z. induction 1 as [|c cs Hc _ IH]; [reflexivity|].
  cbn [map fold_right]. rewrite Nat2Z.inj_add, IH. lia.
Qed.

Lemma of_nat_to_nat_all (cs : list Z) :
  Forall (fun c => 0 <= c)%Z cs -> map Z.of_nat (map Z.to_nat cs) = cs.
Proof.
  induction 1 as [|c cs Hc _ IH]; [reflexivity|].
  cbn [map]. rewrite IH. f_equal. lia.
Qed.

Section ScatterMore.
Context {X : Type}.
Variables (ix0 : nat * X) (rest : list (nat * X)) (n : nat).
Variable data : nat * X -> msg.
Let ixs := ix0 :: rest.
Hypothesis Hw : well_indexed ixs.
Hypothesis Hn : n = length ixs.

Lemma root_first : fst ix0 = 0.
Proof. unfold well_indexed in Hw. cbn in Hw. now injection Hw. Qed.

Lemma root_unique (ix : nat * X) : In ix ixs -> fst ix = 0 -> ix = ix0.
Proof.
  intros Hin H0. pose proof (well_indexed_In ixs ix Hw Hin) as H.
  rewrite H0 in H. cbn in H. now injection H.
Qed.

Lemma data_on_root (a : ndarray) (ix : nat * X) :
  data ix0 = MArray a -> In ix ixs ->
  Nat.eqb (fst ix) 0 = true -> data ix = MArray a.
Proof.
  intros Hd Hin E. apply Nat.eqb_eq in E.
  now rewrite (root_unique ix Hin E).
Qed.

Ltac scatter_checks a Hd :=
  cbn [negb bind call];
  rewrite (run_bcast ixs Hw _ _ 0 ix0 eq_refl);
  rewrite root_first, Hd; cbn [Nat.eqb deliver dumps loads truthy];
  erewrite run_ext;
  [|intros ? ?;
    rewrite (shape_and_dtype_of _ _ a _ (data_on_root a _ Hd ltac:(eassumption)));
    reflexivity];
  rewrite (run_bcast ixs Hw _ _ 0 ix0 eq_refl);
  rewrite root_first; cbn [Nat.eqb].

(** Rank 0 does not hold an array. *)
Lemma ScatterArray_bad_input_run (counts : option (list Z)) :
  (forall a, data ix0 <> MArray a) ->
  (forall c, counts = Some c -> length c = n) ->
  run (map (fun ix => ScatterArray (data ix) (mk_Comm (fst ix) n) 0 counts) ixs)
  = map (fun _ => Raised scatter_bad_input) ixs.
Proof.
  intros Hd Hc. unfold ScatterArray. cbn [size rank].
  replace (match counts with
           | Some c => negb (Nat.eqb (length c) n)
           | None => false
           end) with false
    by (destruct counts as [c|]; [|reflexivity];
        now rewrite (Hc c eq_refl), Nat.eqb_refl).
  cbn [negb bind call].
  rewrite (run_bcast ixs Hw _ _ 0 ix0 eq_refl).
  rewrite root_first. cbn [Nat.eqb].
  replace (match data ix0 with MArray _ => false | _ => true end) with true
    by (destruct (data ix0) as [| | | | |a| |]; try reflexivity;
        now elim (Hd a)).
  cbn [deliver dumps loads truthy].
  exact (run_raise (fun _ => scatter_bad_input) ixs).
Qed.

(** Rank 0 holds an array of [L] rows and no [counts] is given. *)
Lemma ScatterArray_even_run (a : ndarray) :
  data ix0 = MArray a ->
  transmissible (arr_dtype a) ->
  run (map (fun ix => ScatterArray (data ix) (mk_Comm (fst ix) n) 0 None) ixs)
  = map (fun ix =>
           Ok (MArray
                 (mk_ndarray (arr_dtype a) (tshape a)
                    (nth (fst ix)
                       (split_by (even_counts (length (rows a)) n) (rows a))
                       [])))) ixs.
Proof.
  intros Hd Ht. unfold ScatterArray. cbn [size rank].
  scatter_checks a Hd.
  erewrite run_ext.
  2:{ intros ix Hin. rewrite deliver_shape_dtype.
      unfold shape. cbn [rows arr_dtype tshape].
      rewrite (no_object_in_scatter _ Ht). reflexivity. }
  rewrite run_allgather by exact Hw.
  erewrite run_ext.
  2:{ intros ix Hin. unfold as_seq.
      rewrite (decode_all_map as_int _
                 (fun ix' => Z.of_nat
                               (length (rows a) / n
                                + (if Nat.ltb (fst ix') (length (rows a) mod n)
                                   then 1 else 0))))
        by reflexivity.
      cbn [expect bind]. reflexivity. }
  rewrite run_Barrier by exact Hw.
  rewrite (run_Scatterv ixs Hw _ _ _ _ _ 0 ix0 eq_refl).
  rewrite root_first, Hd. cbn [Nat.eqb negb buf_of].
  rewrite <- run_ret. apply run_ext. intros ix Hin.
  set (bl := split_by (even_counts (length (rows a)) n) (rows a)).
  assert (Hpos : 0 < n) by (rewrite Hn; cbn; lia).
  assert (Hcat : concat bl = rows a)
    by (apply concat_split_by, sum_even_counts, Hpos).
  assert (Hlens : map (@length row) bl = even_counts (length (rows a)) n).
  { apply length_split_by. rewrite sum_even_counts by exact Hpos. lia. }
  assert (Hbl : length bl = n).
  { rewrite <- (length_map (@length row)), Hlens. apply length_even_counts. }
  assert (Hcounts :
    map (fun ix' : nat * X =>
           Z.of_nat (length (rows a) / n
                     + (if Nat.ltb (fst ix') (length (rows a) mod n)
                        then 1 else 0))) ixs
    = map (fun r : list row => Z.of_nat (length r)) bl).
  { rewrite <- (map_map (@length row) Z.of_nat), Hlens. unfold even_counts.
    rewrite Hn, <- Hw, !map_map. reflexivity. }
  assert (Hj : fst ix < length bl).
  { rewrite Hbl, Hn. now apply well_indexed_bound. }
  assert (Hlen : length (nth (fst ix) bl [])
                 = length (rows a) / n
                   + (if Nat.ltb (fst ix) (length (rows a) mod n)
                      then 1 else 0)).
  { rewrite <- (map_nth (@length row) bl [] (fst ix)). rewrite Hlens.
    unfold even_counts.
    rewrite (nth_map_seq
               (fun r => length (rows a) / n
                         + (if Nat.ltb r (length (rows a) mod n)
                            then 1 else 0))) by lia.
    reflexivity. }
  match goal with
  | |- context [scatter_block ?b ?c ?o ?j] =>
      replace (scatter_block b c o j)
        with (Some (mk_buf (duplicity (tshape a) * dtype_itemsize (arr_dtype a))
                      (nth (fst ix) bl [])))
  end.
  - unfold np_empty. cbn [rows].
    rewrite scatter_reply_block by (now rewrite repeat_length, Hlen).
    reflexivity.
  - symmetry. rewrite Hcounts. rewrite <- Hcat.
    apply scatter_block_slice. now apply nth_error_nth'.
Qed.
(** The lengths in [counts] do not add up to the length of the data. *)
Lemma ScatterArray_bad_sum_run (a : ndarray) (cs : list Z) :
  data ix0 = MArray a ->
  transmissible (arr_dtype a) ->
  length cs = n ->
  sum_Z cs <> Z.of_nat (length (rows a)) ->
  run (map (fun ix => ScatterArray (data ix) (mk_Comm (fst ix) n) 0 (Some cs))
         ixs)
  = map (fun _ => Raised scatter_bad_sum) ixs.
Proof.
  intros Hd Ht Hc Hsum. unfold ScatterArray. cbn [size rank].
  rewrite Hc, Nat.eqb_refl.
  scatter_checks a Hd.
  erewrite run_ext.
  2:{ intros ix Hin. rewrite deliver_shape_dtype.
      unfold shape. cbn [rows arr_dtype tshape].
      rewrite (no_object_in_scatter _ Ht).
      replace (Z.eqb (sum_Z cs) (Z.of_nat (length (rows a)))) with false
        by (symmetry; now apply Z.eqb_neq).
      cbn [negb]. reflexivity. }
  exact (run_raise (fun _ => scatter_bad_sum) ixs).
Qed.

(** The data has an object dtype, or a field of object dtype. *)
Lemma ScatterArray_object_run (a : ndarray) (counts : option (list Z)) :
  data ix0 = MArray a ->
  (if Ascii.eqb (dtype_char (arr_dtype a)) "V"
   then match dtype_names (arr_dtype a) with
        | Some names => any_object_field (arr_dtype a) names
        | None => false
        end
   else is_object (arr_dtype a)) = true ->
  (forall c, counts = Some c -> length c = n) ->
  run (map (fun ix => ScatterArray (data ix) (mk_Comm (fst ix) n) 0 counts) ixs)
  = map (fun _ => Raised scatter_object) ixs.
Proof.
  intros Hd Hobj Hc. unfold ScatterArray. cbn [size rank].
  replace (match counts with
           | Some c => negb (Nat.eqb (length c) n)
           | None => false
           end) with false
    by (destruct counts as [c|]; [|reflexivity];
        now rewrite (Hc c eq_refl), Nat.eqb_refl).
  scatter_checks a Hd.
  erewrite run_ext.
  2:{ intros ix Hin. rewrite deliver_shape_dtype.
      unfold shape. cbn [rows arr_dtype tshape].
      rewrite Hobj. reflexivity. }
  exact (run_raise (fun _ => scatter_object) ixs).
Qed.

(** A negative entry in [counts]: the ranks with such an entry raise, the
    others wait at the barrier. *)
Lemma ScatterArray_negative_run (a : ndarray) (cs : list Z) :
  data ix0 = MArray a ->
  transmissible (arr_dtype a) ->
  length cs = n ->
  sum_Z cs = Z.of_nat (length (rows a)) ->
  (exists c, In c cs /\ (c < 0)%Z) ->
  run (map (fun ix => ScatterArray (data ix) (mk_Comm (fst ix) n) 0 (Some cs))
         ixs)
  = map (fun ix => if (nth (fst ix) cs 0 <? 0)%Z
                   then Raised negative_dimensions else Hang) ixs.
Proof.
  intros Hd Ht Hc Hsum [c [Hin Hneg]]. unfold ScatterArray. cbn [size rank].
  rewrite Hc, Nat.eqb_refl.
  scatter_checks a Hd.
  erewrite run_ext.
  2:{ intros ix Hix. rewrite deliver_shape_dtype.
      unfold shape. cbn [rows arr_dtype tshape].
      rewrite (no_object_in_scatter _ Ht).
      rewrite Hsum, Z.eqb_refl. cbn [negb].
      rewrite (nth_error_nth' cs 0%Z)
        by (rewrite Hc, Hn; now apply well_indexed_bound).
      reflexivity. }
  destruct (In_nth_error _ _ Hin) as [j Hj].
  assert (Hjn : j < length ixs).
  { rewrite <- Hn, <- Hc. apply nth_error_Some. now rewrite Hj. }
  destruct (nth_error ixs j) as [ixj|] eqn:Ej;
    [|apply nth_error_None in Ej; lia].
  pose proof (well_indexed_nth _ _ _ Hw Ej) as Hfj.
  match goal with
  | |- run (map ?P ixs) = _ =>
      rewrite (run_not_all_calls (map P ixs) (P ixj))
  end.
  - rewrite map_map. apply map_ext. intros ix.
    destruct (nth (fst ix) cs 0 <? 0)%Z; reflexivity.
  - apply in_map_iff. exists ixj. split; [reflexivity|].
    eapply nth_error_In, Ej.
  - intros c' k'. rewrite Hfj, (nth_error_nth cs j 0%Z Hj).
    replace (c <? 0)%Z with true by (symmetry; now apply Z.ltb_lt).
    discriminate.
Qed.
(** [counts] are lengths that add up to the length of the data. *)
Lemma ScatterArray_counts_run (a : ndarray) (cs : list Z) :
  data ix0 = MArray a ->
  transmissible (arr_dtype a) ->
  length cs = n ->
  Forall (fun c => 0 <= c)%Z cs ->
  sum_Z cs = Z.of_nat (length (rows a)) ->
  run (map (fun ix => ScatterArray (data ix) (mk_Comm (fst ix) n) 0 (Some cs))
         ixs)
  = map (fun ix =>
           Ok (MArray
                 (mk_ndarray (arr_dtype a) (tshape a)
                    (nth (fst ix) (split_by (map Z.to_nat cs) (rows a)) []))))
      ixs.
Proof.
  intros Hd Ht Hc Hpos Hsum. unfold ScatterArray. cbn [size rank].
  rewrite Hc, Nat.eqb_refl.
  scatter_checks a Hd.
  assert (Hnth : forall ix, In ix ixs ->
                   nth_error cs (fst ix) = Some (nth (fst ix) cs 0%Z)).
  { intros ix Hix. apply nth_error_nth'.
    rewrite Hc, Hn. now apply well_indexed_bound. }
  assert (Hge : forall ix, In ix ixs -> (0 <= nth (fst ix) cs 0)%Z).
  { intros ix Hix. rewrite Forall_forall in Hpos. apply Hpos.
    eapply nth_error_In, Hnth, Hix. }
  erewrite run_ext.
  2:{ intros ix Hix. rewrite deliver_shape_dtype.
      unfold shape. cbn [rows arr_dtype tshape].
      rewrite (no_object_in_scatter _ Ht).
      rewrite Hsum, Z.eqb_refl. cbn [negb].
      rewrite (Hnth ix Hix).
      replace (nth (fst ix) cs 0 <? 0)%Z with false
        by (symmetry; apply Z.ltb_ge; now apply Hge).
      reflexivity. }
  rewrite run_Barrier by exact Hw.
  rewrite (run_Scatterv ixs Hw _ _ _ _ _ 0 ix0 eq_refl).
  rewrite root_first, Hd. cbn [Nat.eqb negb buf_of].
  rewrite <- run_ret. apply run_ext. intros ix Hin.
  set (bl := split_by (map Z.to_nat cs) (rows a)).
  assert (Hs : sum_nat (map Z.to_nat cs) = length (rows a))
    by (apply Nat2Z.inj; now rewrite sum_nat_to_nat).
  assert (Hcat : concat bl = rows a) by (now apply concat_split_by).
  assert (Hlens : map (@length row) bl = map Z.to_nat cs)
    by (apply length_split_by; lia).
  assert (Hbl : length bl = n).
  { now rewrite <- (length_map (@length row)), Hlens, length_map. }
  assert (Hcounts : cs = map (fun r : list row => Z.of_nat (length r)) bl).
  { rewrite <- (map_map (@length row) Z.of_nat), Hlens.
    symmetry. now apply of_nat_to_nat_all. }
  assert (Hj : fst ix < length bl).
  { rewrite Hbl, Hn. now apply well_indexed_bound. }
  assert (Hlen : length (nth (fst ix) bl []) = Z.to_nat (nth (fst ix) cs 0%Z)).
  { rewrite <- (map_nth (@length row) bl [] (fst ix)). rewrite Hlens.
    cbn [length]. change 0 with (Z.to_nat 0). apply map_nth. }
  match goal with
  | |- context [scatter_block ?b ?c ?o ?j] =>
      replace (scatter_block b c o j)
        with (Some (mk_buf (duplicity (tshape a) * dtype_itemsize (arr_dtype a))
                      (nth (fst ix) bl [])))
  end.
  - unfold np_empty. cbn [rows].
    rewrite scatter_reply_block by (now rewrite repeat_length, Hlen).
    reflexivity.
  - symmetry. rewrite Hcounts at 1 2. rewrite <- Hcat.
    apply scatter_block_slice. now apply nth_error_nth'.
Qed.
End ScatterMore.

Lemma ndarray_eta (a : ndarray) :
  mk_ndarray (arr_dtype a) (tshape a) (rows a) = a.
Proof. now destruct a. Qed.

(** X8.  [ScatterArray(data, comm, root=0)] without [counts], the array
    being on rank 0 (whatever the other ranks pass): rank [r] of [N] receives
    [L // N] rows, one more when [r < L % N], and the pieces are consecutive:
    put together in rank order they are the rows of [data]. *)
Theorem ScatterArray_even_split (a : ndarray) (others : list msg) :
  transmissible (arr_dtype a) ->
  let N := S (length others) in
  let pieces := split_by (even_counts (length (rows a)) N) (rows a) in
  spmd (fun comm v => ScatterArray v comm 0 None) (MArray a :: others)
  = map (fun p => Ok (MArray (mk_ndarray (arr_dtype a) (tshape a) p))) pieces
  /\ map (@length row) pieces = even_counts (length (rows a)) N
  /\ concat pieces = rows a.
Proof.
  intros Ht N pieces.
  assert (Hpos : 0 < N) by (unfold N; lia).
  assert (Hlens : map (@length row) pieces = even_counts (length (rows a)) N).
  { apply length_split_by. rewrite sum_even_counts by exact Hpos. lia. }
  split; [|split; [exact Hlens|]].
  - unfold spmd. rewrite indexed_cons.
    rewrite (ScatterArray_even_run (0, MArray a) _ _ snd
               (shifted_well_indexed _ others)
               (eq_sym (shifted_length _ others)) a eq_refl Ht).
    apply (map_nth_fst
             (fun p => Ok (MArray (mk_ndarray (arr_dtype a) (tshape a) p)))).
    + apply shifted_well_indexed.
    + rewrite shifted_length.
      rewrite <- (length_map (@length row)).
      change (split_by (even_counts (length (rows a))
                          (length (MArray a :: others))) (rows a))
        with pieces.
      rewrite Hlens. apply length_even_counts.
  - apply concat_split_by, sum_even_counts, Hpos.
Qed.

(** X9.  Scattering an array from rank 0 without [counts] and gathering the
    pieces to rank 0 gives the array back on rank 0 ([None] on the other
    ranks), for flat and compound dtypes and any number of ranks. *)
Theorem GatherArray_after_ScatterArray (a : ndarray) (others : list msg) :
  transmissible (arr_dtype a) ->
  Forall (row_ok (arr_dtype a) (tshape a)) (rows a) ->
  spmd (fun comm v =>
          piece <- ScatterArray v comm 0 None ;;
          GatherArray piece comm (Rank 0)) (MArray a :: others)
  = map (fun ix => Ok (if Nat.eqb (fst ix) 0 then MArray a else MNone))
      (indexed (MArray a :: others)).
Proof.
  intros Ht Hrows. unfold spmd. rewrite indexed_cons.
  pose proof (shifted_well_indexed (MArray a) others) as Hw.
  pose proof (shifted_length (MArray a) others) as Hl.
  set (N := length (MArray a :: others)) in *.
  set (pieces := split_by (even_counts (length (rows a)) N) (rows a)).
  assert (Hpos : 0 < N) by (unfold N; cbn; lia).
  assert (Hlens : length pieces = N).
  { rewrite <- (length_map (@length row)). unfold pieces.
    rewrite length_split_by by (rewrite sum_even_counts by exact Hpos; lia).
    apply length_even_counts. }
  refine (eq_trans (run_bind_ok _ _ _ _
                      (ScatterArray_even_run (0, MArray a) _ N snd Hw
                         (eq_sym Hl) a eq_refl Ht)) _).
  refine (eq_trans
            (GatherArray_root_run (0, MArray a) _ N Hw (tshape a) (arr_dtype a)
               Ht (fun ix => nth (fst ix) pieces []) _) _).
  2:{ apply map_ext. intros ix. destruct (Nat.eqb (fst ix) 0); [|reflexivity].
    do 2 f_equal. rewrite <- (ndarray_eta a) at 4. f_equal.
    rewrite (map_nth_fst (fun p : list row => p) [] _ pieces Hw)
      by (now rewrite Hl).
    rewrite map_id. apply concat_split_by, sum_even_counts, Hpos. }
  - intros ix _.
    pose proof (Forall_split_by (row_ok (arr_dtype a) (tshape a))
                  (even_counts (length (rows a)) N) (rows a) Hrows) as HF.
    fold pieces in HF. rewrite Forall_forall in HF.
    destruct (Nat.lt_ge_cases (fst ix) (length pieces)) as [Hlt|Hge].
    + apply HF. now apply nth_In.
    + rewrite nth_overflow by exact Hge. constructor.
Qed.

(** X10.  [ScatterArray] from root 0 with [counts] of the right length whose
    sum is not the length of the data raises the same [ValueError] on every
    rank. *)
Theorem ScatterArray_counts_sum_mismatch (a : ndarray) (others : list msg)
  (cs : list Z) :
  transmissible (arr_dtype a) ->
  length cs = S (length others) ->
  sum_Z cs <> Z.of_nat (length (rows a)) ->
  spmd (fun comm v => ScatterArray v comm 0 (Some cs)) (MArray a :: others)
  = map (fun _ => Raised scatter_bad_sum) (MArray a :: others).
Proof.
  intros Ht Hc Hsum. unfold spmd. rewrite indexed_cons.
  rewrite (ScatterArray_bad_sum_run (0, MArray a) _
             (length (MArray a :: others)) snd
             (shifted_well_indexed _ others) a cs eq_refl Ht Hc Hsum).
  apply map_const_length, shifted_length.
Qed.

(** X11.  [ScatterArray] with [root=0] when rank 0 does not hold an array:
    every rank raises the same [ValueError], whatever the other ranks
    hold. *)
Theorem ScatterArray_bad_input_raises (v : msg) (others : list msg)
  (counts : option (list Z)) :
  (forall a, v <> MArray a) ->
  (forall c, counts = Some c -> length c = S (length others)) ->
  spmd (fun comm v => ScatterArray v comm 0 counts) (v :: others)
  = map (fun _ => Raised scatter_bad_input) (v :: others).
Proof.
  intros Hv Hc. unfold spmd. rewrite indexed_cons.
  rewrite (ScatterArray_bad_input_run (0, v) _ (length (v :: others)) snd
             (shifted_well_indexed _ others) counts Hv Hc).
  apply map_const_length, shifted_length.
Qed.

(** X12.  [ScatterArray] from root 0 of an array of object dtype, or of a
    structured dtype one of whose fields has object dtype, raises the same
    [ValueError] on every rank. *)
Theorem ScatterArray_object_dtype_raises (a : ndarray) (others : list msg)
  (counts : option (list Z)) :
  arr_dtype a = dtype_O
  \/ (exists fs name,
        arr_dtype a = DStruct fs /\ NoDup (map fst fs)
        /\ In (name, dtype_O) fs) ->
  (forall c, counts = Some c -> length c = S (length others)) ->
  spmd (fun comm v => ScatterArray v comm 0 counts) (MArray a :: others)
  = map (fun _ => Raised scatter_object) (MArray a :: others).
Proof.
  intros Hobj Hc. unfold spmd. rewrite indexed_cons.
  rewrite (ScatterArray_object_run (0, MArray a) _
             (length (MArray a :: others)) snd
             (shifted_well_indexed _ others) a counts eq_refl).
  - apply map_const_length, shifted_length.
  - destruct Hobj as [->|[fs [name [-> [Hnd Hin]]]]]; [reflexivity|].
    cbn [dtype_char dtype_names]. rewrite Ascii.eqb_refl.
    unfold any_object_field. apply existsb_exists. exists name. split.
    + apply in_map_iff. now exists (name, dtype_O).
    + cbn [dtype_field]. now rewrite (In_assoc name fs dtype_O Hnd Hin).
  - exact Hc.
Qed.

(** X13.  [counts] of the right length and the right sum, but with a
    negative entry: the ranks whose own count is negative raise [ValueError]
    when they allocate the receive buffer, and every other rank is left
    blocked at the barrier; no rank returns. *)
Theorem ScatterArray_negative_count (a : ndarray) (others : list msg)
  (cs : list Z) :
  transmissible (arr_dtype a) ->
  length cs = S (length others) ->
  sum_Z cs = Z.of_nat (length (rows a)) ->
  (exists c, In c cs /\ (c < 0)%Z) ->
  spmd (fun comm v => ScatterArray v comm 0 (Some cs)) (MArray a :: others)
  = map (fun c => if (c <? 0)%Z then Raised negative_dimensions else Hang) cs.
Proof.
  intros Ht Hc Hsum Hneg. unfold spmd. rewrite indexed_cons.
  rewrite (ScatterArray_negative_run (0, MArray a) _
             (length (MArray a :: others)) snd
             (shifted_well_indexed _ others)
             (eq_sym (shifted_length _ others)) a cs eq_refl Ht Hc Hsum Hneg).
  apply (map_nth_fst
           (fun c => if (c <? 0)%Z
                     then @Raised msg negative_dimensions else Hang)).
  - apply shifted_well_indexed.
  - rewrite shifted_length. exact Hc.
Qed.

(** X18.  [ScatterArray(data, comm, root=0, counts=counts)] with
    non-negative [counts], one per rank, that add up to the length of the
    array on rank 0: rank [r] receives [counts[r]] rows, the pieces are
    consecutive, and put together in rank order they are the rows of
    [data]. *)
Theorem ScatterArray_counts_split (a : ndarray) (others : list msg)
  (cs : list Z) :
  transmissible (arr_dtype a) ->
  length cs = S (length others) ->
  Forall (fun c => 0 <= c)%Z cs ->
  sum_Z cs = Z.of_nat (length (rows a)) ->
  let pieces := split_by (map Z.to_nat cs) (rows a) in
  spmd (fun comm v => ScatterArray v comm 0 (Some cs)) (MArray a :: others)
  = map (fun p => Ok (MArray (mk_ndarray (arr_dtype a) (tshape a) p))) pieces
  /\ map (fun p : list row => Z.of_nat (length p)) pieces = cs
  /\ concat pieces = rows a.
Proof.
  intros Ht Hc Hpos Hsum pieces.
  assert (Hs : sum_nat (map Z.to_nat cs) = length (rows a))
    by (apply Nat2Z.inj; now rewrite sum_nat_to_nat).
  assert (Hlens : map (@length row) pieces = map Z.to_nat cs)
    by (apply length_split_by; lia).
  split; [|split].
  - unfold spmd. rewrite indexed_cons.
    rewrite (ScatterArray_counts_run (0, MArray a) _
               (length (MArray a :: others)) snd
               (shifted_well_indexed _ others)
               (eq_sym (shifted_length _ others)) a cs eq_refl Ht Hc Hpos Hsum).
    apply (map_nth_fst
             (fun p => Ok (MArray (mk_ndarray (arr_dtype a) (tshape a) p)))).
    + apply shifted_well_indexed.
    + rewrite shifted_length.
      rewrite <- (length_map (@length row)).
      fold pieces. now rewrite Hlens, length_map.
  - rewrite <- (map_map (@length row) Z.of_nat), Hlens.
    now apply of_nat_to_nat_all.
  - now apply concat_split_by.
Qed.

(** * More on DistributedArray: what construction raises *)

Lemma In_distinct {A : Type} (eqb : A -> A -> bool) (l : list A) (x : A) :
  (forall a b, eqb a b = true -> a = b) ->
  In x l -> In x (distinct eqb l).
Proof.
  intros He. induction l as [|h t IH]; intros Hin; [contradiction|].
  cbn [distinct]. destruct (existsb (eqb h) t) eqn:E.
  - destruct Hin as [->|Hin]; [|now apply IH].
    apply existsb_exists in E. destruct E as [y [Hy Ey]].
    apply He in Ey. subst y. now apply IH.
  - destruct Hin as [->|Hin]; [now left|right; now apply IH].
Qed.

Lemma distinct_two {A : Type} (eqb : A -> A -> bool) (l : list A) (a b : A) :
  (forall a b, eqb a b = true -> a = b) ->
  In a l -> In b l -> a <> b ->
  exists x y r, distinct eqb l = x :: y :: r.
Proof.
  intros He Ha Hb Hab.
  apply (In_distinct eqb l a He) in Ha. apply (In_distinct eqb l b He) in Hb.
  destruct (distinct eqb l) as [|x [|y r]].
  - contradiction.
  - destruct Ha as [<-|[]]. destruct Hb as [<-|[]]. now elim Hab.
  - now exists x, y, r.
Qed.

Lemma somes_all_None {A X : Type} (l : list X) :
  somes (map (fun _ => @None A) l) = [].
Proof. induction l; [reflexivity|exact IHl]. Qed.

Section ConstructionErrors.
Context {X : Type}.
Variables (ixs : list (nat * X)) (loc : nat * X -> ndarray).
Variable comm : nat * X -> Comm.
Hypothesis Hw : well_indexed ixs.

Let proposed (ix : nat * X) : option dtype :=
  if Nat.eqb (length (rows (loc ix))) 0 then None
  else Some (arr_dtype (loc ix)).

Lemma find_dtype_decoded {B : Type} (k : nat * X -> dtype -> prog B) :
  run (map (fun ix =>
              bind (_find_dtype
                      (if Nat.eqb (length (rows (loc ix))) 0 then MNone
                       else MDtype (arr_dtype (loc ix)))
                      (comm ix))
                (k ix)) ixs)
  = run (map (fun ix =>
                match distinct dtype_eqb (somes (map proposed ixs)) with
                | [] => Raise stop_iteration
                | [d] => k ix d
                | _ => Raise inconsistent_dtype
                end) ixs).
Proof.
  unfold _find_dtype. cbn [bind call].
  rewrite run_allgather by exact Hw.
  apply run_ext. intros ix Hin. unfold as_seq.
  rewrite (decode_all_map as_opt_dtype _ proposed)
    by (intros ix' _; unfold proposed; now destruct (Nat.eqb _ 0)).
  cbn [expect bind].
  destruct (distinct dtype_eqb (somes (map proposed ixs))) as [|d [|d' r]];
    reflexivity.
Qed.

(** No rank holds anything. *)
Lemma DistributedArray_init_all_empty_run :
  (forall ix, In ix ixs -> rows (loc ix) = []) ->
  run (map (fun ix => DistributedArray_init (loc ix) (comm ix)) ixs)
  = map (fun _ => Raised stop_iteration) ixs.
Proof.
  intros He. unfold DistributedArray_init. rewrite find_dtype_decoded.
  replace (map proposed ixs) with (map (fun _ : nat * X => @None dtype) ixs).
  - rewrite somes_all_None. cbn [distinct].
    exact (run_raise (fun _ => stop_iteration) ixs).
  - apply map_ext_in. intros ix Hin. unfold proposed.
    now rewrite (He ix Hin).
Qed.

(** Two ranks hold rows of different dtypes. *)
Lemma DistributedArray_init_dtype_conflict_run (ixa ixb : nat * X) :
  In ixa ixs -> In ixb ixs ->
  rows (loc ixa) <> [] -> rows (loc ixb) <> [] ->
  arr_dtype (loc ixa) <> arr_dtype (loc ixb) ->
  run (map (fun ix => DistributedArray_init (loc ix) (comm ix)) ixs)
  = map (fun _ => Raised inconsistent_dtype) ixs.
Proof.
  intros Ha Hb Hra Hrb Hd. unfold DistributedArray_init.
  rewrite find_dtype_decoded.
  assert (Hin : forall ix, In ix ixs -> rows (loc ix) <> [] ->
                           In (arr_dtype (loc ix)) (somes (map proposed ixs))).
  { intros ix Hix Hr. apply In_somes, in_map_iff. exists ix.
    split; [|exact Hix]. unfold proposed.
    destruct (rows (loc ix)); [now elim Hr|reflexivity]. }
  destruct (distinct_two dtype_eqb _ _ _
              (fun a b => proj1 (dtype_eqb_eq a b))
              (Hin _ Ha Hra) (Hin _ Hb Hrb) Hd) as [x [y [r ->]]].
  exact (run_raise (fun _ => inconsistent_dtype) ixs).
Qed.

(** The dtype is agreed, two ranks hold arrays of different trailing
    shapes. *)
Lemma DistributedArray_init_shape_conflict_run (d : dtype) (ixa ixb : nat * X) :
  (exists ix, In ix ixs /\ rows (loc ix) <> []) ->
  (forall ix, In ix ixs -> rows (loc ix) <> [] -> arr_dtype (loc ix) = d) ->
  In ixa ixs -> In ixb ixs ->
  tshape (loc ixa) <> tshape (loc ixb) ->
  run (map (fun ix => DistributedArray_init (loc ix) (comm ix)) ixs)
  = map (fun _ => Raised inconsistent_shape) ixs.
Proof.
  intros Hne Hd Ha Hb Hts. unfold DistributedArray_init.
  rewrite (find_dtype_run ixs comm Hw _ proposed d).
  2:{ intros j ix _. unfold proposed. now destruct (Nat.eqb _ 0). }
  2:{ destruct Hne as [ix [Hin Hr]]. exists ix. split; [exact Hin|].
      unfold proposed. destruct (rows (loc ix)); [contradiction|discriminate]. }
  2:{ intros ix Hin Hn. unfold proposed in *.
      destruct (rows (loc ix)) eqn:E; [now elim Hn|].
      cbn. f_equal. apply Hd; [exact Hin|]. rewrite E. discriminate. }
  unfold _find_cshape. cbn [bind call].
  rewrite run_allgather by exact Hw.
  erewrite run_ext.
  2:{ intros ix Hin. unfold as_seq.
      rewrite (decode_all_map as_shape _ (fun ix' => shape (loc ix')))
        by (intros; rewrite deliver_shape; apply as_shape_shape_msg).
      cbn [expect bind]. rewrite map_map. unfold shape. cbn [tl].
      reflexivity. }
  assert (Hin : forall ix, In ix ixs ->
                  In (tshape (loc ix)) (map (fun ix' => tshape (loc ix')) ixs)).
  { intros ix Hix. apply in_map_iff. now exists ix. }
  destruct (distinct_two (list_eqb Nat.eqb) _ _ _
              (fun a b => proj1 (list_eqb_nat_eq a b))
              (Hin _ Ha) (Hin _ Hb) Hts) as [x [y [r ->]]].
  cbn [length Nat.ltb Nat.leb bind].
  exact (run_raise (fun _ => inconsistent_shape) ixs).
Qed.
End ConstructionErrors.

Lemma In_indexed_of {X : Type} (xs : list X) (x : X) :
  In x xs -> exists ix, In ix (indexed xs) /\ snd ix = x.
Proof.
  intros H. rewrite <- (map_snd_indexed xs) in H. apply in_map_iff in H.
  destruct H as [ix [E Hix]]. now exists ix.
Qed.

Lemma map_const_indexed {X C : Type} (c : C) (xs : list X) :
  map (fun _ => c) (indexed xs) = map (fun _ => c) xs.
Proof. apply map_const_length, length_indexed. Qed.

(** X14.  When no rank holds a row, [DistributedArray(local, comm)] has no
    dtype to agree on and raises [StopIteration] on every rank. *)
Theorem DistributedArray_init_all_empty (locals : list ndarray) :
  (forall a, In a locals -> rows a = []) ->
  spmd (fun comm a => DistributedArray_init a comm) locals
  = map (fun _ => Raised stop_iteration) locals.
Proof.
  intros He. unfold spmd.
  rewrite (DistributedArray_init_all_empty_run (indexed locals) snd _
             (indexed_well_indexed locals)).
  - apply map_const_indexed.
  - intros ix Hin. apply He. now apply In_indexed_snd.
Qed.

(** X15.  When two ranks hold rows of different dtypes,
    [DistributedArray(local, comm)] raises the [TypeError] of the
    inconsistent type on every rank, whatever the shapes are and whatever the
    ranks without rows hold. *)
Theorem DistributedArray_init_dtype_conflict (locals : list ndarray)
  (a b : ndarray) :
  In a locals -> In b locals ->
  rows a <> [] -> rows b <> [] -> arr_dtype a <> arr_dtype b ->
  spmd (fun comm a => DistributedArray_init a comm) locals
  = map (fun _ => Raised inconsistent_dtype) locals.
Proof.
  intros Ha Hb Hra Hrb Hd. unfold spmd.
  destruct (In_indexed_of locals a Ha) as [ixa [Hixa Ea]].
  destruct (In_indexed_of locals b Hb) as [ixb [Hixb Eb]]. subst a b.
  rewrite (DistributedArray_init_dtype_conflict_run (indexed locals) snd _
             (indexed_well_indexed locals) ixa ixb Hixa Hixb Hra Hrb Hd).
  apply map_const_indexed.
Qed.

(** X16.  When the ranks that hold rows agree on the dtype but two ranks
    hold arrays of different trailing shapes, [DistributedArray(local, comm)]
    raises the [TypeError] of the inconsistent shape on every rank. *)
Theorem DistributedArray_init_shape_conflict (locals : list ndarray)
  (d : dtype) (a b : ndarray) :
  (exists c, In c locals /\ rows c <> []) ->
  (forall c, In c locals -> rows c <> [] -> arr_dtype c = d) ->
  In a locals -> In b locals -> tshape a <> tshape b ->
  spmd (fun comm a => DistributedArray_init a comm) locals
  = map (fun _ => Raised inconsistent_shape) locals.
Proof.
  intros [c [Hc Hrc]] Hd Ha Hb Hts. unfold spmd.
  destruct (In_indexed_of locals a Ha) as [ixa [Hixa Ea]].
  destruct (In_indexed_of locals b Hb) as [ixb [Hixb Eb]].
  destruct (In_indexed_of locals c Hc) as [ixc [Hixc Ec]]. subst a b c.
  rewrite (DistributedArray_init_shape_conflict_run (indexed locals) snd _
             (indexed_well_indexed locals) d ixa ixb).
  - apply map_const_indexed.
  - now exists ixc.
  - intros ix Hin. apply Hd. now apply In_indexed_snd.
  - exact Hixa.
  - exact Hixb.
  - exact Hts.
Qed.

Lemma sum_zeros_nat {A : Type} (l : list A) :
  fold_right Nat.add 0 (map (fun _ => 0) l) = 0.
Proof. induction l as [|x l IH]; [reflexivity|exact IH]. Qed.

(** X17.  [DistributedArray.cempty] for a global length 0: the ranks agree
    on the dtype and on the shape, and then the constructor, called with an
    empty local array on every rank, raises [StopIteration] on every rank. *)
Theorem cempty_zero_length (P : nat) (ts : list nat) (d : dtype) :
  spmd (fun comm (_ : unit) => cempty (0 :: ts) (MDtype d) comm) (repeat tt P)
  = map (fun _ => Raised stop_iteration) (repeat tt P).
Proof.
  destruct P as [|P']; [reflexivity|].
  set (xs := repeat tt (S P')). unfold spmd, cempty.
  pose proof (indexed_well_indexed xs) as Hw.
  rewrite (find_dtype_run (indexed xs) _ Hw _ (fun _ => Some d) d).
  2:{ reflexivity. }
  2:{ destruct (indexed_nonempty xs) as [ix [l E]]; [discriminate|].
      exists ix. rewrite E. split; [now left|discriminate]. }
  2:{ reflexivity. }
  cbn [rank size Nat.mul].
  rewrite Nat.Div0.div_0_l. cbn [Nat.sub].
  rewrite (find_cshape_run (indexed xs) _ Hw _ ts) by reflexivity.
  cbn [hd].
  replace (fold_right Nat.add 0 (map (fun _ : nat * unit => 0) (indexed xs)))
    with 0 by (symmetry; apply sum_zeros_nat).
  rewrite list_eqb_nat_refl. cbn [negb].
  rewrite (DistributedArray_init_all_empty_run (indexed xs)
             (fun _ => np_empty 0 ts d) _ Hw) by reflexivity.
  apply map_const_indexed.
Qed.

(** * More on LinearTopology: prev and next *)

(** X19.  [LinearTopology.prev()] on one-dimensional integer arrays: rank
    [r] receives the last value held by the ranks before it, that is the
    last value of the nearest rank before [r] that is not empty, and its own
    [EmptyRank] when the ranks before it hold nothing (always so on rank
    0). *)
Theorem prev_skips_empty_ranks (d : dtype) (zss : list (list Z)) :
  spmd (fun comm zs => prev (of_ints d zs) comm) zss
  = map (fun ix =>
           Ok (match prev_value (firstn (fst ix) zss) with
               | Some z => MInt z
               | None => EmptyRank (fst ix)
               end)) (indexed zss).
Proof.
  unfold spmd. rewrite (prev_run d zss). apply map_ext. intros ix.
  unfold edge_msg. now destruct (prev_value (firstn (fst ix) zss)).
Qed.

(** X20.  [LinearTopology.next()] on one-dimensional integer arrays: rank
    [r] receives the first value held by the ranks after it, skipping the
    empty ranks, and its own [EmptyRank] when the ranks after it hold
    nothing (always so on the last rank). *)
Theorem next_skips_empty_ranks (d : dtype) (zss : list (list Z)) :
  spmd (fun comm zs => next (of_ints d zs) comm) zss
  = map (fun ix =>
           Ok (match next_value (skipn (fst ix + 1) zss) with
               | Some z => MInt z
               | None => EmptyRank (fst ix)
               end)) (indexed zss).
Proof.
  unfold spmd. rewrite (next_run d zss). apply map_ext. intros ix.
  unfold edge_msg. now destruct (next_value (skipn (fst ix + 1) zss)).
Qed.

(** * bincount on sorted data *)

(** ** Counting *)









(** ** numpy.bincount on a sorted list *)



(** ** Adding the counts of the other ranks *)






(** ** What the edges of the other ranks hold *)







(** ** The first bin *)







(** ** The merged bins are the global counts *)



Section Bincount.
Variables (d : dtype) (zss : list (list Z)) (shared_edges : bool).
Hypothesis Hsorted : sorted (concat zss).
Hypothesis Hpos : Forall (fun z => 0 <= z)%Z (concat zss).
Hypothesis Hne : concat zss <> [].

Let ixs := indexed zss.

















End Bincount.



(** ** shared_edges=False: the global histogram, striped *)








(** * split_size_3d and attrs_to_dict *)

Lemma divide_out_spec (turns : nat) :
  forall a0 s a s',
    (1 <= a0)%Z -> (a0 - 1 <= Z.of_nat turns)%Z ->
    divide_out turns a0 s = (a, s') ->
    (a * s' = s /\ 1 <= a <= a0
     /\ forall k, a < k <= a0 -> s mod k <> 0)%Z.
Proof.
  induction turns as [|turns IH]; intros a0 s a s' H1 Hf E.
  - cbn in E. injection E as <- <-.
    assert (a0 = 1%Z) by lia. subst a0.
    split; [lia|]. split; [lia|]. intros k Hk. lia.
  - cbn [divide_out] in E. destruct (Z.ltb_spec 1 a0) as [Hlt|Hge].
    + destruct (Z.eqb_spec (s mod a0) 0) as [Hm|Hm].
      * injection E as <- <-. split.
        { rewrite <- (Z_div_exact_full_2 s a0) by lia. reflexivity. }
        split; [lia|]. intros k Hk. lia.
      * apply IH in E; [|lia|lia].
        destruct E as [Hp [Hb Hk]]. split; [exact Hp|]. split; [lia|].
        intros k Hk'. destruct (Z.eq_dec k a0) as [->|Hne]; [exact Hm|].
        apply Hk. lia.
    + injection E as <- <-.
      assert (a0 = 1%Z) by lia. subst a0.
      split; [lia|]. split; [lia|]. intros k Hk. lia.
Qed.

(** X21.  [split_size_3d(s)], for whatever values the two floating-point
    powers truncate to (they are not negative): the three numbers returned
    multiply to [s]; [a] is the largest divisor of [s] among
    [2 .. int(s**0.3333333)+1], or 1 when there is none; [b] is the largest
    divisor of [s // a] among [2 .. int((s//a)**0.5)+1], or 1; and
    [c = s // a // b]. *)
Theorem split_size_3d_product (pow_third pow_half : Z -> Z) (s : Z) :
  (0 <= pow_third s)%Z -> (forall t, 0 <= pow_half t)%Z ->
  let '(a, b, c) := split_size_3d pow_third pow_half s in
  (a * b * c = s
   /\ 1 <= a <= pow_third s + 1
   /\ (forall k, a < k <= pow_third s + 1 -> s mod k <> 0)
   /\ 1 <= b <= pow_half (s / a) + 1
   /\ (forall k, b < k <= pow_half (s / a) + 1 -> (s / a) mod k <> 0)
   /\ c = s / a / b)%Z.
Proof.
  intros H3 H2. unfold split_size_3d.
  destruct (divide_out (Z.to_nat (pow_third s + 1)) (pow_third s + 1) s)
    as [a s1] eqn:Ea.
  apply divide_out_spec in Ea; [|lia|lia].
  destruct Ea as [Hp [Ha Hka]].
  assert (Hs1 : s1 = (s / a)%Z).
  { rewrite <- Hp. rewrite Z.mul_comm, Z.div_mul by lia. reflexivity. }
  destruct (divide_out (Z.to_nat (pow_half s1 + 1)) (pow_half s1 + 1) s1)
    as [b c] eqn:Eb.
  pose proof (H2 s1) as H2s.
  apply divide_out_spec in Eb; [|lia|lia].
  destruct Eb as [Hq [Hb Hkb]].
  assert (Hc : c = (s1 / b)%Z).
  { rewrite <- Hq. rewrite Z.mul_comm, Z.div_mul by lia. reflexivity. }
  rewrite <- Hs1.
  repeat split; try lia; try assumption.
Qed.

Lemma append_inj (p a b : string) :
  String.append p a = String.append p b -> a = b.
Proof.
  induction p as [|c p IH]; cbn; [auto|]. intros H. injection H. exact IH.
Qed.

Lemma dict_set_fresh {V : Type} (key : string) (v : V) (d : list (string * V)) :
  ~ In key (map fst d) -> dict_set key v d = d ++ [(key, v)].
Proof.
  induction d as [|[k w] d IH]; intros H; [reflexivity|].
  cbn [dict_set]. destruct (String.eqb_spec key k) as [->|Hne].
  - elim H. now left.
  - cbn [app]. f_equal. apply IH. intros Hin. apply H. now right.
Qed.

Lemma attrs_fold {V : Type} (prefix : string) (items : list (string * V)) :
  forall acc : list (string * V),
    NoDup (map fst acc ++ map (fun kv => String.append prefix (fst kv)) items) ->
    fold_left (fun d kv => dict_set (String.append prefix (fst kv)) (snd kv) d)
      items acc
    = acc ++ map (fun kv => (String.append prefix (fst kv), snd kv)) items.
Proof.
  induction items as [|[k v] items IH]; intros acc Hnd.
  - cbn. now rewrite app_nil_r.
  - cbn [fold_left map fst snd] in *.
    rewrite dict_set_fresh.
    + rewrite IH.
      * now rewrite <- app_assoc.
      * rewrite map_app. cbn [map fst]. rewrite <- app_assoc. exact Hnd.
    + intros Hin. apply NoDup_remove_2 in Hnd. apply Hnd.
      apply in_or_app. now left.
Qed.

Lemma assoc_prefixed {V : Type} (prefix key : string) (items : list (string * V)) :
  assoc (String.append prefix key)
    (map (fun kv => (String.append prefix (fst kv), snd kv)) items)
  = assoc key items.
Proof.
  induction items as [|[k v] items IH]; [reflexivity|].
  cbn [map assoc fst snd].
  destruct (String.eqb_spec key k) as [->|Hne].
  - now rewrite String.eqb_refl.
  - destruct (String.eqb_spec (String.append prefix key) (String.append prefix k))
      as [E|_]; [|exact IH].
    apply append_inj in E. now elim Hne.
Qed.

(** X22.  [attrs_to_dict(obj, prefix)] for an object whose [attrs] has
    string keys: the result holds one item per item of [attrs], in the same
    order, under the key [prefix + key]; no item is lost to a clash of keys,
    and looking up [prefix + key] in the result gives what [key] gives in
    [attrs]. *)
Theorem attrs_to_dict_prefixed {V : Type} (items : list (string * V))
  (prefix : string) :
  NoDup (map fst items) ->
  attrs_to_dict (Some items) prefix
  = map (fun kv => (String.append prefix (fst kv), snd kv)) items
  /\ forall key,
       assoc (String.append prefix key) (attrs_to_dict (Some items) prefix)
       = assoc key items.
Proof.
  intros Hnd.
  assert (E : attrs_to_dict (Some items) prefix
              = map (fun kv => (String.append prefix (fst kv), snd kv)) items).
  { unfold attrs_to_dict. rewrite attrs_fold; [reflexivity|]. cbn [map app].
    clear -Hnd. induction items as [|[k v] items IH]; [constructor|].
    cbn [map fst] in *. inversion Hnd as [|? ? Hk Hnd']; subst.
    constructor; [|now apply IH].
    intros Hin. apply in_map_iff in Hin. destruct Hin as [[k' v'] [E Hin]].
    cbn [fst] in E. apply append_inj in E. subst k'.
    apply Hk. apply in_map_iff. now exists (k, v'). }
  split; [exact E|]. intros key. rewrite E. apply assoc_prefixed.
Qed.

(** * Concrete runs *)

(** C5.  With [0,0,1] on rank 0 and [1,2] on rank 1, the first bins are the
    values 0 and 1.  [bincount(shared_edges=True)] returns [2,2] and [2,1]:
    both ranks hold the full count 2 of the shared value 1, and reading every
    distinct bin once gives the histogram [2,2,1] of the whole array.
    [bincount(shared_edges=False)] returns [2,2] and [1]: the bin of the value
    1 stays on rank 0 and is dropped on rank 1, whose first bin was merged
    from rank 0. *)
Theorem bincount_shared_edges_example :
  let zss := [[0; 0; 1]; [1; 2]]%Z in
  let selfs := dist_ints int64 zss in
  map (fun s => bincount_offset
                  (edge_msg (rank (comm_of s))
                     (prev_value (firstn (rank (comm_of s)) zss))) s) selfs
  = [Ret 0%Z; Ret 1%Z]
  /\ run (map (fun s => bincount s false true) selfs)
     = map (fun a => Ok (Distributed a)) (dist_ints int64 [[2; 2]; [2; 1]]%Z)
  /\ bin_at 0 [2; 2]%Z 1 = bin_at 1 [2; 1]%Z 1
  /\ histogram [0; 1]%Z [[2; 2]; [2; 1]]%Z 3 = [2; 2; 1]%Z
  /\ np_bincount (concat zss) = Some [2; 2; 1]%Z
  /\ run (map (fun s => bincount s false false) selfs)
     = map (fun a => Ok (Distributed a)) (dist_ints int64 [[2; 2]; [1]]%Z)
  /\ concat [[2; 2]; [1]]%Z = [2; 2; 1]%Z.
Proof. vm_compute. repeat split. Qed.

(** C2: what the code does when the ranks disagree on the dtype and [root]
    is a rank other than 0.  The flags are computed on [root] but broadcast
    from rank 0, which holds [(None, None)]: no rank raises, and the root
    returns the rows of the other dtype as if they were its own.  With
    [root=0] and with [root=Ellipsis] every rank raises the mismatch. *)
Theorem GatherArray_mismatch_root_1 :
  let a0 := of_ints int64 [1; 2]%Z in
  let a1 := of_ints float64 [3]%Z in
  spmd (fun comm a => GatherArray (MArray a) comm (Rank 1)) [a0; a1]
  = [Ok MNone; Ok (MArray (of_ints float64 [1; 2; 3]%Z))]
  /\ spmd (fun comm a => GatherArray (MArray a) comm (Rank 0)) [a0; a1]
     = [Raised (Exn ValueError
                  "mismatch between dtypes across ranks in GatherArray");
        Raised (Exn ValueError
                  "mismatch between dtypes across ranks in GatherArray")]
  /\ spmd (fun comm a => GatherArray (MArray a) comm Ellipsis) [a0; a1]
     = [Raised (Exn ValueError
                  "mismatch between dtypes across ranks in GatherArray");
        Raised (Exn ValueError
                  "mismatch between dtypes across ranks in GatherArray")].
Proof. vm_compute. repeat split. Qed.

(** C3: what the code does for [root=1] with the data on rank 1 only.  The
    shape and dtype are read on rank 0 ([comm.rank == 0]) and broadcast
    from rank 0: rank 0 holds [None], raises [AttributeError], and rank 1 is
    left in the broadcast.  With [root=0] every rank gets its slice. *)
Theorem ScatterArray_root_1 :
  let a := of_ints int64 [1; 2; 3]%Z in
  spmd (fun comm x => ScatterArray x comm 1 None) [MNone; MArray a]
  = [Raised (Exn AttributeError "object has no attribute 'flags'"); Hang]
  /\ spmd (fun comm x => ScatterArray x comm 0 None) [MArray a; MNone]
     = [Ok (MArray (of_ints int64 [1; 2]%Z)); Ok (MArray (of_ints int64 [3]%Z))].
Proof. vm_compute. repeat split. Qed.

(** C9 as stated fails: two non-empty ranks of one dtype whose rows have 2
    and 3 columns.  The dtype hypotheses of the claim hold, and the
    constructor raises on every rank. *)
Lemma DistributedArray_init_shape_mismatch :
  let a0 := mk_ndarray int64 [2] [[EInt 1; EInt 2]] in
  let a1 := mk_ndarray int64 [3] [[EInt 3; EInt 4; EInt 5]] in
  (rows a0 <> [] /\ rows a1 <> []
   /\ arr_dtype a0 = int64 /\ arr_dtype a1 = int64)
  /\ spmd (fun comm a => DistributedArray_init a comm) [a0; a1]
     = [Raised (Exn TypeError
                  "Shape of local array is inconsistent between ranks; got %s");
        Raised (Exn TypeError
                  "Shape of local array is inconsistent between ranks; got %s")].
Proof.
  cbv zeta. split; [repeat split; discriminate|]. vm_compute. reflexivity.
Qed.

Lemma DistributedArray_init_spec_witness :
  spmd (fun comm a => DistributedArray_init a comm)
    [of_ints int64 [1; 2]%Z; of_ints float64 []; of_ints int64 [3]%Z]
  = map (fun ja =>
           Ok (constructed
                 [of_ints int64 [1; 2]%Z; of_ints float64 []; of_ints int64 [3]%Z]
                 int64 [] (mk_Comm (fst ja) 3) (snd ja)))
      (indexed
         [of_ints int64 [1; 2]%Z; of_ints float64 []; of_ints int64 [3]%Z]).
Proof.
  apply (DistributedArray_init_spec
           [of_ints int64 [1; 2]%Z; of_ints float64 []; of_ints int64 [3]%Z]
           int64 []).
  - exists (of_ints int64 [1; 2]%Z). split; [left; reflexivity|discriminate].
  - intros a [<-|[<-|[<-|[]]]] H; try reflexivity. now elim H.
  - intros a [<-|[<-|[<-|[]]]]; reflexivity.
Defined.

(** C7 as stated fails: for [L = 1] on [P = 2] ranks, rank 0 is below
    [L mod P = 1] and yet holds no row; the row goes to rank 1. *)
Lemma cempty_remainder_on_last_rank :
  0 < 1 mod 2
  /\ map local_length
       (spmd (fun comm (_ : unit) => cempty [1] (MDtype int64) comm) [tt; tt])
     = [Some 0; Some 1].
Proof. split; [cbn; lia|]. vm_compute. reflexivity. Qed.

Lemma cempty_partition_witness :
  spmd (fun comm (_ : unit) => cempty [5; 2] (MDtype int64) comm) (repeat tt 3)
  = map (fun r => Ok (mk_DistributedArray (mk_Comm r 3) int64 [5; 2]
                        (np_empty (share 5 3 r) [2] int64) (5 * r / 3)))
      (seq 0 3)
  /\ (forall r, share 5 3 r = 5 / 3 \/ share 5 3 r = ceil_div 5 3)
  /\ fold_right Nat.add 0 (map (share 5 3) (seq 0 3)) = 5.
Proof. apply (cempty_partition 5 3 [2] int64); lia. Defined.

Lemma FrontPadArray_spec_witness :
  let inputs := [(of_ints int64 [1; 2]%Z, 0%Z); (of_ints int64 [3]%Z, 2%Z);
                 (of_ints int64 [], 1%Z)] in
  let locals := map fst inputs in
  let outcomes :=
    spmd (fun comm x => FrontPadArray (fst x) (snd x) comm) inputs in
  ((forall ix, In ix (indexed inputs) ->
      feasible locals (fst ix) (snd (snd ix)))
   /\ outcomes
      = map (fun ix => Ok (padded locals int64 [] (fst ix) (fst (snd ix))
                             (snd (snd ix))))
          (indexed inputs)
   /\ forall ix, In ix (indexed inputs) ->
        length (rows (padded locals int64 [] (fst ix) (fst (snd ix))
                        (snd (snd ix))))
        = Z.to_nat (snd (snd ix)) + length (rows (fst (snd ix))))
  \/
  ((exists ix, In ix (indexed inputs)
               /\ ~ feasible locals (fst ix) (snd (snd ix)))
   /\ outcomes = map (fun _ => Raised padding_infeasible) inputs).
Proof.
  apply (FrontPadArray_spec
           [(of_ints int64 [1; 2]%Z, 0%Z); (of_ints int64 [3]%Z, 2%Z);
            (of_ints int64 [], 1%Z)] int64 []).
  intros x [<-|[<-|[<-|[]]]]; split; reflexivity.
Defined.

Lemma unique_labels_sorted_witness :
  let zss := [[1; 5]; [5; 5]; []; [5; 7]]%Z in
  let V := concat zss in
  let Lb := concat (labels_of zss) in
  run (map (unique_labels true) (dist_ints int64 zss))
  = map Ok (dist_ints int64 (labels_of zss))
  /\ map (@length Z) (labels_of zss) = map (@length Z) zss
  /\ Forall (fun v => 0 <= v < Z.of_nat (n_distinct V))%Z Lb
  /\ sorted Lb
  /\ forall i j, i < length V -> j < length V ->
       (nth i Lb 0%Z = nth j Lb 0%Z <-> nth i V 0%Z = nth j V 0%Z).
Proof.
  apply (unique_labels_sorted true int64 [[1; 5]; [5; 5]; []; [5; 7]]%Z).
  - discriminate.
  - cbn. lia.
Defined.

Lemma unique_labels_empty_rank_witness :
  let pre := [[1; 5]; [5; 5]]%Z in
  let post := [[5; 7]]%Z in
  let zss := pre ++ [] :: post in
  run (map (unique_labels true) (dist_ints int64 zss))
  = map Ok (dist_ints int64 (labels_of zss))
  /\ nth_error (map local (dist_ints int64 (labels_of zss))) (length pre)
     = Some (mk_ndarray int64 [] [])
  /\ nth_error (counts_of zss) (length pre) = Some 0%Z
  /\ labels_of zss
     = firstn (length pre) (labels_of (pre ++ post))
       ++ [] :: skipn (length pre) (labels_of (pre ++ post))
  /\ counts_of zss
     = firstn (length pre) (counts_of (pre ++ post))
       ++ 0%Z :: skipn (length pre) (counts_of (pre ++ post)).
Proof.
  apply (unique_labels_empty_rank true int64 [[1; 5]; [5; 5]]%Z [[5; 7]]%Z).
  discriminate.
Defined.

Lemma GatherArray_ScatterArray_round_trip_witness :
  let d := DStruct [("id"%string, int64);
                    ("pos"%string, DStruct [("x"%string, float64);
                                            ("y"%string, float64)])] in
  let cell (i x y : Z) :=
    ERec [("id"%string, EInt i);
          ("pos"%string, ERec [("x"%string, EInt x); ("y"%string, EInt y)])] in
  let locals := [mk_ndarray d [] [[cell 1 10 11]; [cell 2 20 21]]%Z;
                 mk_ndarray d [] [];
                 mk_ndarray d [] [[cell 3 30 31]]%Z] in
  spmd (fun comm a => GatherArray (MArray a) comm (Rank 0)) locals
  = map (fun ix =>
           Ok (if Nat.eqb (fst ix) 0
               then MArray (mk_ndarray d [] (global_rows locals))
               else MNone)) (indexed locals)
  /\ spmd (fun comm a =>
             gathered <- GatherArray (MArray a) comm (Rank 0) ;;
             ScatterArray gathered comm 0 (Some (map lenZ locals))) locals
     = map (fun a => Ok (MArray a)) locals.
Proof.
  cbv zeta.
  apply (GatherArray_ScatterArray_round_trip
           [mk_ndarray _ [] [[_]; [_]]; mk_ndarray _ [] []; mk_ndarray _ [] [[_]]]
           _ []).
  - discriminate.
  - cbn. repeat split; try discriminate.
    + repeat constructor; cbn; intuition discriminate.
    + repeat constructor; cbn; intuition discriminate.
  - repeat constructor.
Defined.

(** * The further properties at concrete inputs *)

Lemma GatherArray_to_any_root_witness :
  let locals := [of_ints int64 [1; 2]%Z; of_ints int64 []; of_ints int64 [3]%Z] in
  spmd (fun comm a => GatherArray (MArray a) comm (Rank 2)) locals
  = map (fun ix =>
           Ok (if Nat.eqb (fst ix) 2
               then MArray (mk_ndarray int64 [] (global_rows locals))
               else MNone)) (indexed locals).
Proof.
  cbv zeta.
  apply (GatherArray_to_any_root
           [of_ints int64 [1; 2]%Z; of_ints int64 []; of_ints int64 [3]%Z]
           int64 [] 2).
  - cbn. lia.
  - cbn. split; discriminate.
  - repeat constructor.
Defined.

Lemma GatherArray_Ellipsis_all_ranks_witness :
  let d := DStruct [("id"%string, int64); ("w"%string, float64)] in
  let cell (i w : Z) := ERec [("id"%string, EInt i); ("w"%string, EInt w)] in
  let locals := [mk_ndarray d [] [[cell 1 10]]%Z; mk_ndarray d [] [];
                 mk_ndarray d [] [[cell 2 20]; [cell 3 30]]%Z] in
  spmd (fun comm a => GatherArray (MArray a) comm Ellipsis) locals
  = map (fun _ => Ok (MArray (mk_ndarray d [] (global_rows locals)))) locals.
Proof.
  cbv zeta.
  apply (GatherArray_Ellipsis_all_ranks
           [mk_ndarray _ [] [[_]]; mk_ndarray _ [] []; mk_ndarray _ [] [[_]; [_]]]
           _ []).
  - discriminate.
  - cbn. repeat split; try discriminate.
    repeat constructor; cbn; intuition discriminate.
  - repeat constructor.
Defined.

Lemma GatherArray_dtype_mismatch_raises_witness :
  spmd (fun comm a => GatherArray (MArray a) comm (Rank 0))
    [of_ints int64 [1; 2]%Z; of_ints float64 [3]%Z; of_ints int64 []]
  = map (fun _ => Raised dtype_mismatch)
      [of_ints int64 [1; 2]%Z; of_ints float64 [3]%Z; of_ints int64 []].
Proof.
  apply (GatherArray_dtype_mismatch_raises (of_ints int64 [1; 2]%Z)
           [of_ints float64 [3]%Z; of_ints int64 []] (Rank 0)).
  - now left.
  - discriminate.
  - discriminate.
  - intros a [<-|[<-|[]]]; reflexivity.
  - exists (of_ints float64 [3]%Z). split; [now left|discriminate].
Defined.

Lemma GatherArray_shape_mismatch_raises_witness :
  spmd (fun comm a => GatherArray (MArray a) comm Ellipsis)
    [of_ints int64 [1; 2]%Z;
     mk_ndarray float64 [2] [[EInt 3; EInt 4]]%Z]
  = map (fun _ => Raised shape_mismatch)
      [of_ints int64 [1; 2]%Z;
       mk_ndarray float64 [2] [[EInt 3; EInt 4]]%Z].
Proof.
  apply (GatherArray_shape_mismatch_raises (of_ints int64 [1; 2]%Z)
           [mk_ndarray float64 [2] [[EInt 3; EInt 4]]%Z] Ellipsis).
  - now right.
  - discriminate.
  - discriminate.
  - exists (mk_ndarray float64 [2] [[EInt 3; EInt 4]]%Z).
    split; [now left|discriminate].
Defined.

Lemma GatherArray_object_dtype_raises_witness :
  spmd (fun comm a => GatherArray (MArray a) comm (Rank 1))
    [mk_ndarray dtype_O [] [[EInt 0]]%Z; of_ints int64 [3]%Z]
  = map (fun _ => Raised object_in_gather)
      [mk_ndarray dtype_O [] [[EInt 0]]%Z; of_ints int64 [3]%Z].
Proof.
  apply (GatherArray_object_dtype_raises (mk_ndarray dtype_O [] [[EInt 0]]%Z)
           [of_ints int64 [3]%Z] (Rank 1)).
  reflexivity.
Defined.

Lemma GatherArray_field_mismatch_raises_witness :
  spmd (fun comm a => GatherArray (MArray a) comm (Rank 0))
    [mk_ndarray (DStruct [("x"%string, int64)]) [] [];
     mk_ndarray (DStruct [("y"%string, int64)]) [] []]
  = map (fun _ => Raised field_mismatch)
      [mk_ndarray (DStruct [("x"%string, int64)]) [] [];
       mk_ndarray (DStruct [("y"%string, int64)]) [] []].
Proof.
  apply (GatherArray_field_mismatch_raises
           (mk_ndarray (DStruct [("x"%string, int64)]) [] [])
           [mk_ndarray (DStruct [("y"%string, int64)]) [] []] (Rank 0)
           [("x"%string, int64)]).
  - reflexivity.
  - intros a [<-|[]]. now exists [("y"%string, int64)].
  - exists (mk_ndarray (DStruct [("y"%string, int64)]) [] []),
      [("y"%string, int64)].
    split; [now left|]. split; [reflexivity|].
    intros H. destruct (proj1 (H "y"%string)) as [E|[]];
      [now left|discriminate].
Defined.

Lemma GatherArray_not_array_blocks_witness :
  spmd (fun comm v => GatherArray v comm (Rank 0))
    [MArray (of_ints int64 [1; 2]%Z); MNone; MArray (of_ints int64 [3]%Z)]
  = [Hang; Raised not_an_array; Hang].
Proof.
  apply (GatherArray_not_array_blocks
           [MArray (of_ints int64 [1; 2]%Z); MNone;
            MArray (of_ints int64 [3]%Z)] (Rank 0)).
  exists MNone. split; [right; now left|discriminate].
Defined.

Lemma ScatterArray_even_split_witness :
  let a := of_ints int64 [1; 2; 3; 4; 5]%Z in
  let pieces := split_by (even_counts 5 3) (rows a) in
  spmd (fun comm v => ScatterArray v comm 0 None) [MArray a; MNone; MNone]
  = map (fun p => Ok (MArray (mk_ndarray int64 [] p))) pieces
  /\ map (@length row) pieces = even_counts 5 3
  /\ concat pieces = rows a.
Proof.
  cbv zeta.
  apply (ScatterArray_even_split (of_ints int64 [1; 2; 3; 4; 5]%Z)
           [MNone; MNone]).
  cbn. split; discriminate.
Defined.

Lemma GatherArray_after_ScatterArray_witness :
  let d := DStruct [("id"%string, int64); ("w"%string, float64)] in
  let cell (i w : Z) := ERec [("id"%string, EInt i); ("w"%string, EInt w)] in
  let a := mk_ndarray d [] [[cell 1 10]; [cell 2 20]; [cell 3 30]]%Z in
  spmd (fun comm v =>
          piece <- ScatterArray v comm 0 None ;;
          GatherArray piece comm (Rank 0)) [MArray a; MNone]
  = map (fun ix => Ok (if Nat.eqb (fst ix) 0 then MArray a else MNone))
      (indexed [MArray a; MNone]).
Proof.
  cbv zeta.
  apply (GatherArray_after_ScatterArray
           (mk_ndarray _ [] [[_]; [_]; [_]]) [MNone]).
  - cbn. repeat split; try discriminate.
    repeat constructor; cbn; intuition discriminate.
  - repeat constructor.
Defined.

Lemma ScatterArray_counts_sum_mismatch_witness :
  spmd (fun comm v => ScatterArray v comm 0 (Some [1; 1]%Z))
    [MArray (of_ints int64 [1; 2; 3]%Z); MNone]
  = map (fun _ => Raised scatter_bad_sum)
      [MArray (of_ints int64 [1; 2; 3]%Z); MNone].
Proof.
  apply (ScatterArray_counts_sum_mismatch (of_ints int64 [1; 2; 3]%Z)
           [MNone] [1; 1]%Z).
  - cbn. split; discriminate.
  - reflexivity.
  - discriminate.
Defined.

Lemma ScatterArray_bad_input_raises_witness :
  spmd (fun comm v => ScatterArray v comm 0 None)
    [MNone; MArray (of_ints int64 [1; 2; 3]%Z)]
  = map (fun _ => Raised scatter_bad_input)
      [MNone; MArray (of_ints int64 [1; 2; 3]%Z)].
Proof.
  apply (ScatterArray_bad_input_raises MNone
           [MArray (of_ints int64 [1; 2; 3]%Z)] None).
  - discriminate.
  - discriminate.
Defined.

Lemma ScatterArray_object_dtype_raises_witness :
  let d := DStruct [("id"%string, int64); ("obj"%string, dtype_O)] in
  spmd (fun comm v => ScatterArray v comm 0 None)
    [MArray (mk_ndarray d [] []); MNone]
  = map (fun _ => Raised scatter_object)
      [MArray (mk_ndarray d [] []); MNone].
Proof.
  cbv zeta.
  apply (ScatterArray_object_dtype_raises (mk_ndarray _ [] []) [MNone] None).
  - right. exists [("id"%string, int64); ("obj"%string, dtype_O)], "obj"%string.
    split; [reflexivity|]. split.
    + repeat constructor; cbn; intuition discriminate.
    + right. now left.
  - discriminate.
Defined.

Lemma ScatterArray_negative_count_witness :
  spmd (fun comm v => ScatterArray v comm 0 (Some [-1; 4]%Z))
    [MArray (of_ints int64 [1; 2; 3]%Z); MNone]
  = [Raised negative_dimensions; Hang].
Proof.
  apply (ScatterArray_negative_count (of_ints int64 [1; 2; 3]%Z)
           [MNone] [-1; 4]%Z).
  - cbn. split; discriminate.
  - reflexivity.
  - reflexivity.
  - exists (-1)%Z. split; [now left|lia].
Defined.

Lemma DistributedArray_init_all_empty_witness :
  spmd (fun comm a => DistributedArray_init a comm)
    [of_ints int64 []; of_ints float64 []]
  = map (fun _ => Raised stop_iteration) [of_ints int64 []; of_ints float64 []].
Proof.
  apply (DistributedArray_init_all_empty [of_ints int64 []; of_ints float64 []]).
  intros a [<-|[<-|[]]]; reflexivity.
Defined.

Lemma DistributedArray_init_dtype_conflict_witness :
  spmd (fun comm a => DistributedArray_init a comm)
    [of_ints int64 [1]%Z; of_ints int64 []; of_ints float64 [2]%Z]
  = map (fun _ => Raised inconsistent_dtype)
      [of_ints int64 [1]%Z; of_ints int64 []; of_ints float64 [2]%Z].
Proof.
  apply (DistributedArray_init_dtype_conflict
           [of_ints int64 [1]%Z; of_ints int64 []; of_ints float64 [2]%Z]
           (of_ints int64 [1]%Z) (of_ints float64 [2]%Z)).
  - now left.
  - right; right; now left.
  - discriminate.
  - discriminate.
  - discriminate.
Defined.

Lemma DistributedArray_init_shape_conflict_witness :
  spmd (fun comm a => DistributedArray_init a comm)
    [of_ints int64 [1]%Z; mk_ndarray int64 [2] [[EInt 2; EInt 3]]%Z]
  = map (fun _ => Raised inconsistent_shape)
      [of_ints int64 [1]%Z; mk_ndarray int64 [2] [[EInt 2; EInt 3]]%Z].
Proof.
  apply (DistributedArray_init_shape_conflict
           [of_ints int64 [1]%Z; mk_ndarray int64 [2] [[EInt 2; EInt 3]]%Z]
           int64
           (of_ints int64 [1]%Z) (mk_ndarray int64 [2] [[EInt 2; EInt 3]]%Z)).
  - exists (of_ints int64 [1]%Z). split; [now left|discriminate].
  - intros c [<-|[<-|[]]] _; reflexivity.
  - now left.
  - right; now left.
  - discriminate.
Defined.

Lemma ScatterArray_counts_split_witness :
  let a := of_ints int64 [1; 2; 3]%Z in
  let pieces := split_by (map Z.to_nat [2; 0; 1]%Z) (rows a) in
  spmd (fun comm v => ScatterArray v comm 0 (Some [2; 0; 1]%Z))
    [MArray a; MNone; MNone]
  = map (fun p => Ok (MArray (mk_ndarray int64 [] p))) pieces
  /\ map (fun p : list row => Z.of_nat (length p)) pieces = [2; 0; 1]%Z
  /\ concat pieces = rows a.
Proof.
  cbv zeta.
  apply (ScatterArray_counts_split (of_ints int64 [1; 2; 3]%Z)
           [MNone; MNone] [2; 0; 1]%Z).
  - cbn. split; discriminate.
  - reflexivity.
  - repeat constructor; lia.
  - reflexivity.
Defined.

Lemma split_size_3d_product_witness :
  let '(a, b, c) := split_size_3d (fun _ => 2%Z) (fun _ => 2%Z) 12 in
  (a * b * c = 12
   /\ 1 <= a <= 2 + 1
   /\ (forall k, a < k <= 2 + 1 -> 12 mod k <> 0)
   /\ 1 <= b <= 2 + 1
   /\ (forall k, b < k <= 2 + 1 -> (12 / a) mod k <> 0)
   /\ c = 12 / a / b)%Z.
Proof.
  apply (split_size_3d_product (fun _ => 2%Z) (fun _ => 2%Z) 12%Z).
  - lia.
  - intros t. lia.
Defined.

Lemma attrs_to_dict_prefixed_witness :
  let items := [("BoxSize"%string, 1%Z); ("Nmesh"%string, 2%Z)] in
  attrs_to_dict (Some items) "first."
  = map (fun kv => (String.append "first." (fst kv), snd kv)) items
  /\ forall key,
       assoc (String.append "first." key) (attrs_to_dict (Some items) "first.")
       = assoc key items.
Proof.
  cbv zeta.
  apply (attrs_to_dict_prefixed
           [("BoxSize"%string, 1%Z); ("Nmesh"%string, 2%Z)] "first.").
  repeat constructor; cbn; intuition discriminate.
Defined.




Lemma GatherArray_object_field_raises_witness :
  let d := DStruct [("id"%string, int64); ("obj"%string, dtype_O)] in
  let e := DStruct [("obj"%string, dtype_O); ("id"%string, int64)] in
  spmd (fun comm a => GatherArray (MArray a) comm Ellipsis)
    [mk_ndarray d [] []; mk_ndarray e [] []]
  = map (fun _ => Raised object_in_gather)
      [mk_ndarray d [] []; mk_ndarray e [] []].
Proof.
  cbv zeta.
  apply (GatherArray_object_field_raises (mk_ndarray _ [] [])
           [mk_ndarray _ [] []] Ellipsis
           [("id"%string, int64); ("obj"%string, dtype_O)] "obj"%string).
  - reflexivity.
  - repeat constructor; cbn; intuition discriminate.
  - right. now left.
  - intros a [<-|[]].
    exists [("obj"%string, dtype_O); ("id"%string, int64)].
    split; [reflexivity|]. intros x. cbn. tauto.
Defined.
